(** * Zero-shot CLIP evaluation harness: scoring and metric aggregation

    A shallow embedding of [clip_finetune.ipynb]: the class
    [CLIPClassifier] ([prepare_dataset], [inference_on_samples],
    [evaluate]) and the free function [softmax].

    Numeric arrays are lists of real numbers: floating-point values are
    idealised as elements of [R], so the statements proved over them
    hold for the program up to rounding, on finite values.  Where
    rounding itself decides what the program returns, the module [F64]
    evaluates [softmax] and [np.argmax] on binary64 values.  Counting
    metrics are exact rationals.  Python exceptions (empty reductions,
    shape mismatches, bad indices) are the [None] of [option]. *)

From Stdlib Require Import Strings.String Strings.Ascii.
From Stdlib Require Import List Arith Lia Bool.
From Stdlib Require Import Reals Psatz.
From Stdlib Require Import ZArith QArith.
From Stdlib Require Import OrderedTypeEx Sorted.
From Stdlib Require Floats.
Import ListNotations.

Set Implicit Arguments.

(** ** Exceptions as [option] *)

Definition bind {A B : Type} (m : option A) (k : A -> option B) : option B :=
  match m with
  | Some a => k a
  | None => None
  end.

Notation "x <- m ;; k" := (bind m (fun x => k))
  (at level 61, m at next level, right associativity).

(** [[f(a) for a in l]] where [f] may raise. *)
Fixpoint mapM {A B : Type} (f : A -> option B) (l : list A) : option (list B) :=
  match l with
  | [] => Some []
  | a :: t => b <- f a ;; bs <- mapM f t ;; Some (b :: bs)
  end.

(** ** numpy primitives on real arrays *)

Module Np.

Local Open Scope R_scope.

Definition vec := list R.
Definition matrix := list vec.

(** [x.sum()] of a 1-D array. *)
Definition sum (x : vec) : R := fold_right Rplus 0 x.

(** [np.max(x)]: the reduction has no identity, an empty array raises. *)
Definition max (x : vec) : option R :=
  match x with
  | [] => None
  | a :: t => Some (fold_left Rmax t a)
  end.

(** Left-to-right scan of [np.argmax]: [best_i] is replaced only by a
    strictly larger element, so the first maximal position is kept. *)
Fixpoint argmax_scan (l : vec) (i best_i : nat) (best : R) : nat :=
  match l with
  | [] => best_i
  | x :: t =>
      if Rlt_dec best x then argmax_scan t (S i) i x
      else argmax_scan t (S i) best_i best
  end.

(** [np.argmax(x)] of a 1-D array; an empty array raises. *)
Definition argmax (x : vec) : option nat :=
  match x with
  | [] => None
  | a :: t => Some (argmax_scan t 1 0 a)
  end.

(** Inner product of two 1-D arrays; a length mismatch raises. *)
Fixpoint dot (a b : vec) : option R :=
  match a, b with
  | [], [] => Some 0
  | x :: a', y :: b' => r <- dot a' b' ;; Some (x * y + r)
  | _, _ => None
  end.

(** [np.dot(A, B.T)]: entry [(i, l)] is the inner product of row [i] of
    [A] with column [l] of [B.T], that is with row [l] of [B]. *)
Definition dot_T (A B : matrix) : option matrix :=
  mapM (fun a => mapM (dot a) B) A.

(** Elementwise combination of two equally long rows. *)
Fixpoint zip_with (f : R -> R -> R) (a b : vec) : vec :=
  match a, b with
  | x :: a', y :: b' => f x y :: zip_with f a' b'
  | _, _ => []
  end.

(** [np.add.reduce(M, axis=0)]: the rows are added up elementwise. *)
Definition sum_axis0 (M : matrix) : vec :=
  match M with
  | [] => []
  | r :: rs => fold_left (zip_with Rplus) rs r
  end.

(** [np.linalg.norm(M, axis=0)]: [sqrt] of the sum over the rows of the
    squared entries, one value per column. *)
Definition norm_axis0 (M : matrix) : vec :=
  map sqrt (sum_axis0 (map (map (fun x => x * x)) M)).

(** [M / v] with [v] broadcast over the rows of [M].  A zero in [v]
    makes numpy fill the column with NaN or infinities; over [R] the
    quotient by 0 is 0, so a statement that depends on the quotients
    excludes a zero divisor by a hypothesis. *)
Definition div_rows (M : matrix) (v : vec) : matrix :=
  map (fun row => zip_with Rdiv row v) M.

End Np.

(** ** [softmax] *)

Local Open Scope R_scope.

(** [softmax(x)] on a 1-D array:
    [e_x = np.exp(x - np.max(x)); return e_x / e_x.sum()], in exact
    arithmetic: the exponential is positive and strictly increasing
    here, while in binary64 it can round two close scores to the same
    value and underflow to 0 ([F64.softmax] below). *)
Definition softmax (x : Np.vec) : option Np.vec :=
  m <- Np.max x ;;
  let e_x := map (fun v => exp (v - m)) x in
  Some (map (fun e => e / Np.sum e_x) e_x).

(** The same body on a 2-D array: [np.max] and [.sum()] are called
    without an axis, so both reduce over the flattened array. *)
Definition softmax_2d (x : Np.matrix) : option Np.matrix :=
  m <- Np.max (concat x) ;;
  let e_x := map (map (fun v => exp (v - m))) x in
  Some (map (map (fun e => e / Np.sum (concat e_x))) e_x).

(** ** [softmax] and [np.argmax] on binary64 values *)

Module F64.

Import PrimFloat.
Local Open Scope float_scope.

Definition vec := list float.

(** [np.maximum] of two values: a NaN wins. *)
Definition maximum (a b : float) : float :=
  if is_nan a then a
  else if is_nan b then b
  else if ltb a b then b else a.

(** [np.max(x)] of a 1-D array; an empty array raises. *)
Definition max (x : vec) : option float :=
  match x with
  | [] => None
  | a :: t => Some (fold_left maximum t a)
  end.

(** Left-to-right scan of [np.argmax]: the first maximal position is
    kept, and the first NaN counts as the maximum. *)
Fixpoint argmax_scan (l : vec) (i best_i : nat) (best : float) : nat :=
  match l with
  | [] => best_i
  | x :: t =>
      if ltb best x || (is_nan x && negb (is_nan best))
      then argmax_scan t (S i) i x
      else argmax_scan t (S i) best_i best
  end.

Definition argmax (x : vec) : option nat :=
  match x with
  | [] => None
  | a :: t => Some (argmax_scan t 1 0 a)
  end.

(** [x.sum()] of a 1-D array of fewer than 8 entries, which numpy adds
    up from left to right (longer arrays are added up in blocks). *)
Definition sum (x : vec) : float := fold_left add x 0.

(** Modelled from the spec: [np.exp] on one binary64 value, the routine
    of numpy and of the platform's mathematical library, not under
    src/.  The exponential is computed in binary64 arithmetic: for
    [|x| <= 1/2] by the Taylor polynomial of degree 18, otherwise by
    squaring the value at [x / 2]; it is 1 at 0, underflows to 0 below
    about -745.2 and overflows to infinity above about 709.8 as the
    library routine does, and elsewhere agrees with it up to the last
    digits. *)
Definition exp_series (x : float) : float :=
  fold_right (fun k acc => 1 + x / k * acc) 1
    [1; 2; 3; 4; 5; 6; 7; 8; 9; 10; 11; 12; 13; 14; 15; 16; 17; 18].

Fixpoint exp_halving (fuel : nat) (x : float) : float :=
  if leb (abs x) 0.5 then exp_series x
  else
    match fuel with
    | O => if ltb x 0 then 0 else infinity
    | S fuel' => let h := exp_halving fuel' (x * 0.5) in h * h
    end.

Definition exp (x : float) : float :=
  if is_nan x then x else exp_halving 12 x.

(** [softmax(x)] on a 1-D array of binary64 values:
    [e_x = np.exp(x - np.max(x)); return e_x / e_x.sum()]. *)
Definition softmax (x : vec) : option vec :=
  match max x with
  | None => None
  | Some m =>
      let e_x := map (fun v => exp (v - m)) x in
      let s := sum e_x in
      Some (map (fun e => e / s) e_x)
  end.

End F64.

(** ** Python containers *)

(** [sorted(list(set(xs)))] on strings, the label type that the
    annotations of the class name ([List[str]]): the distinct values in
    ascending (lexicographic, code-point) order.  On a label column of
    another type Python orders by that type, integers numerically; only
    what does not depend on the order carries over to it. *)
Fixpoint insert_sorted (x : string) (l : list string) : list string :=
  match l with
  | [] => [x]
  | y :: t =>
      match String.compare x y with
      | Lt => x :: l
      | Eq => l
      | Gt => y :: insert_sorted x t
      end
  end.

Definition sorted_set (xs : list string) : list string :=
  fold_right insert_sorted [] xs.

(** [xs[i:j]] for [0 <= i <= j]. *)
Definition slice {A : Type} (xs : list A) (i j : nat) : list A :=
  firstn (j - i) (skipn i xs).

(** [range(start, stop, step)] for a positive [step]; the fuel bounds the
    number of iterations, [stop] is always enough. *)
Fixpoint range_from (fuel start stop step : nat) : list nat :=
  match fuel with
  | O => []
  | S fuel' =>
      if start <? stop then start :: range_from fuel' (start + step) stop step
      else []
  end.

Definition range (start stop step : nat) : list nat :=
  range_from stop start stop step.

(** A [dict] with string keys, in insertion order: assigning to a key
    that is present replaces its value in place. *)
Module Dict.

Definition t (V : Type) := list (string * V).

Fixpoint get {V : Type} (d : t V) (k : string) : option V :=
  match d with
  | [] => None
  | (k', v) :: d' => if String.eqb k k' then Some v else get d' k
  end.

Fixpoint set {V : Type} (d : t V) (k : string) (v : V) : t V :=
  match d with
  | [] => [(k, v)]
  | (k', v') :: d' =>
      if String.eqb k k' then (k, v) :: d' else (k', v') :: set d' k v
  end.

(** [dict(pairs)] and the dict comprehension [{k: v for (k, v) in pairs}]. *)
Definition of_list {V : Type} (pairs : list (string * V)) : t V :=
  fold_left (fun d kv => set d (fst kv) (snd kv)) pairs [].

End Dict.

(** [np.array(a) == np.array(b)] for two equally long label arrays, as
    the two accumulators of [evaluate] are: the elementwise comparison. *)
Definition equal_elementwise (a b : list string) : list bool :=
  map (fun p => String.eqb (fst p) (snd p)) (combine a b).

(** A count as a rational number. *)
Definition of_nat (n : nat) : Q := inject_Z (Z.of_nat n).

(** [np.mean] of a boolean array: the share of [True].  On an empty
    array numpy returns NaN with a warning; here [0 / 0] is [0]. *)
Definition mean_bool (bs : list bool) : Q :=
  (of_nat (count_occ bool_dec bs true) / of_nat (length bs))%Q.

(** ** scikit-learn metrics

    [sklearn.metrics] is an external library; the functions below follow
    its documented behaviour for multiclass string labels with the
    default [zero_division="warn"] (an undefined ratio is reported
    as 0). *)

Module Sklearn.

Local Open Scope Q_scope.

(** Modelled from the spec: [unique_labels(y_true, y_pred)] of
    scikit-learn, the sorted distinct labels occurring in either array. *)
Definition unique_labels (y_true y_pred : list string) : list string :=
  sorted_set (y_true ++ y_pred).

(** Modelled from the spec: one bin of [np.bincount] over a label
    array, the number of occurrences of the class [c]. *)
Definition count (c : string) (ys : list string) : nat :=
  count_occ string_dec ys c.

(** Modelled from the spec: [y_true[y_true == y_pred]] inside
    scikit-learn's confusion counts, the labels of the correctly
    predicted samples. *)
Definition agreeing (y_true y_pred : list string) : list string :=
  map fst (filter (fun p => String.eqb (fst p) (snd p)) (combine y_true y_pred)).

(** Modelled from the spec: the true positives of the class [c] as
    scikit-learn counts them. *)
Definition tp_sum (y_true y_pred : list string) (c : string) : nat :=
  count c (agreeing y_true y_pred).

(** Modelled from the spec: the number of samples predicted as [c]. *)
Definition pred_sum (y_pred : list string) (c : string) : nat := count c y_pred.

(** Modelled from the spec: the number of samples whose true label is
    [c], the support of [c]. *)
Definition true_sum (y_true : list string) (c : string) : nat := count c y_true.

(** Modelled from the spec: scikit-learn's guarded division, a ratio
    with a zero denominator is 0 (unassigned classes get 0). *)
Definition prf_divide (num den : nat) : Q :=
  if Nat.eqb den 0 then 0 else of_nat num / of_nat den.

(** Modelled from the spec: the four numbers reported for a class or
    for an average. *)
Record scores : Type := Scores
  { precision : Q; recall : Q; f1 : Q; support : Q }.

(** Modelled from the spec: one row of
    [precision_recall_fscore_support(..., average=None)] of scikit-learn:
    precision [tp / predicted], recall [tp / true],
    F1 [2 tp / (true + predicted)], support the number of true
    instances. *)
Definition class_scores (y_true y_pred : list string) (c : string) : scores :=
  let tp := tp_sum y_true y_pred c in
  {| precision := prf_divide tp (pred_sum y_pred c);
     recall := prf_divide tp (true_sum y_true c);
     f1 := prf_divide (2 * tp) (true_sum y_true c + pred_sum y_pred c);
     support := of_nat (true_sum y_true c) |}.

(** Modelled from the spec: the per-class rows, in the order of
    [labels]. *)
Definition per_class (y_true y_pred labels : list string) : list scores :=
  map (class_scores y_true y_pred) labels.

(** [np.sum] of an array of rationals. *)
Definition Qsum (l : list Q) : Q := fold_right Qplus 0 l.

(** [np.average(a, weights=w)].  The weights add up to 0 only when
    there is no sample at all; [0 / 0] is [0] here. *)
Definition average (a w : list Q) : Q :=
  Qsum (map (fun p => fst p * snd p) (combine a w)) / Qsum w.

(** Modelled from the spec: the [average="weighted"] reduction of
    scikit-learn, each per-class score weighted by the class support. *)
Definition weighted_avg (rows : list scores) : scores :=
  let w := map support rows in
  {| precision := average (map precision rows) w;
     recall := average (map recall rows) w;
     f1 := average (map f1 rows) w;
     support := Qsum w |}.

(** Modelled from the spec: the [average="macro"] reduction, the plain
    mean of the per-class scores. *)
Definition macro_avg (rows : list scores) : scores :=
  let n := of_nat (length rows) in
  {| precision := Qsum (map precision rows) / n;
     recall := Qsum (map recall rows) / n;
     f1 := Qsum (map f1 rows) / n;
     support := Qsum (map support rows) |}.

(** Modelled from the spec: the [average="micro"] reduction, the counts
    are added up over the classes before the ratios are taken. *)
Definition micro_avg (y_true y_pred labels : list string) : scores :=
  let tp := list_sum (map (tp_sum y_true y_pred) labels) in
  let ps := list_sum (map (pred_sum y_pred) labels) in
  let ts := list_sum (map (true_sum y_true) labels) in
  {| precision := prf_divide tp ps;
     recall := prf_divide tp ts;
     f1 := prf_divide (2 * tp) (ts + ps);
     support := of_nat ts |}.

(** Modelled from the spec:
    [precision_recall_fscore_support(y_true, y_pred, average="weighted")]
    of scikit-learn; the classes are the labels present in the data. *)
Definition precision_recall_fscore_support_weighted
    (y_true y_pred : list string) : Q * Q * Q :=
  let rows := per_class y_true y_pred (unique_labels y_true y_pred) in
  let avg := weighted_avg rows in
  (precision avg, recall avg, f1 avg).

(** Modelled from the spec: a value of the report dictionary of
    scikit-learn, a row of four numbers or the bare accuracy. *)
Inductive report_entry : Type :=
| Row (s : scores)
| Value (q : Q).

(** Modelled from the spec:
    [classification_report(y_true, y_pred, target_names=..., output_dict=True)]
    of scikit-learn.  No [labels] argument is passed, so the classes are
    the labels present in the data; a [target_names] of another length
    raises.  The rows are keyed by [target_names] in order, followed by
    the keys [accuracy], [macro avg] and [weighted avg] in the same
    dictionary. *)
Definition classification_report
    (y_true y_pred target_names : list string) : option (Dict.t report_entry) :=
  let labels := unique_labels y_true y_pred in
  if negb (Nat.eqb (length labels) (length target_names)) then None
  else
    let rows := per_class y_true y_pred labels in
    let d0 := Dict.of_list
                (map (fun kv => (fst kv, Row (snd kv))) (combine target_names rows)) in
    let d1 := Dict.set d0 "accuracy"%string (Row (micro_avg y_true y_pred labels)) in
    let d2 := Dict.set d1 "macro avg"%string (Row (macro_avg rows)) in
    let d3 := Dict.set d2 "weighted avg"%string (Row (weighted_avg rows)) in
    Some match Dict.get d3 "accuracy"%string with
         | Some (Row s) => Dict.set d3 "accuracy"%string (Value (precision s))
         | _ => d3
         end.

End Sklearn.

(** ** [CLIPClassifier] *)

Section CLIPClassifier.

(** A decoded image, and the two encoders of the pretrained model:
    [processor] followed by [model.get_image_features] for one image,
    and [processor] followed by [model.get_text_features] for one text. *)
Variable Image : Type.
Variable image_features : Image -> Np.vec.
Variable text_features : string -> Np.vec.

(** A dataset record with its two columns. *)
Record sample : Type := Sample { image : Image; text : string }.

(** The instance state set by [prepare_dataset]. *)
Record classifier : Type := Classifier
  { dataset : list sample;
    labels : list string;
    label_embeddings : Np.matrix }.

Definition clip_label (label : string) : string :=
  ("a photo of a " ++ label)%string.

Definition prepare_dataset (ds : list sample) : classifier :=
  let labels := sorted_set (map text ds) in
  let clip_labels := map clip_label labels in
  let label_embeddings := map text_features clip_labels in
  {| dataset := ds;
     labels := labels;
     label_embeddings :=
       Np.div_rows label_embeddings (Np.norm_axis0 label_embeddings) |}.

(** One entry of the list returned by [inference_on_samples]. *)
Record prediction : Type := Prediction
  { index : nat;
    true_label : string;
    predicted_label : string;
    confidence : R;
    all_scores : Dict.t R }.

(** The body of the loop of [inference_on_samples]. *)
Definition infer_sample (c : classifier) (idx : nat) : option prediction :=
  sample <- nth_error (dataset c) idx ;;
  let image_embeddings := [image_features (image sample)] in
  scores2 <- Np.dot_T image_embeddings (label_embeddings c) ;;
  scores <- nth_error scores2 0 ;;
  pred_idx <- Np.argmax scores ;;
  confidence_scores <- softmax scores ;;
  predicted <- nth_error (labels c) pred_idx ;;
  conf <- nth_error confidence_scores pred_idx ;;
  Some {| index := idx;
          true_label := text sample;
          predicted_label := predicted;
          confidence := conf;
          all_scores := Dict.of_list (combine (labels c) confidence_scores) |}.

Definition inference_on_samples (c : classifier) (sample_indices : list nat)
  : option (list prediction) :=
  mapM (infer_sample c) sample_indices.

(** The accumulators [all_predictions], [all_labels], [all_scores]. *)
Definition accumulators : Type := (list string * list string * Np.matrix)%type.

(** The body of the batch loop of [evaluate] for the start index [i]. *)
Definition evaluate_batch (c : classifier) (batch_size : nat)
    (acc : accumulators) (i : nat) : option accumulators :=
  let '(all_predictions, all_labels, all_scores) := acc in
  let i_end := Nat.min (i + batch_size) (length (dataset c)) in
  let batch := slice (dataset c) i i_end in
  let image_embeddings := map image_features (map image batch) in
  scores <- Np.dot_T image_embeddings (label_embeddings c) ;;
  predictions <- mapM Np.argmax scores ;;
  predicted <- mapM (nth_error (labels c)) predictions ;;
  Some (all_predictions ++ predicted,
        all_labels ++ map text batch,
        all_scores ++ scores).

(** A [for] loop whose body may raise. *)
Fixpoint for_each {S : Type} (body : S -> nat -> option S)
    (indices : list nat) (s : S) : option S :=
  match indices with
  | [] => Some s
  | i :: rest => s' <- body s i ;; for_each body rest s'
  end.

Record metrics : Type := Metrics
  { accuracy : Q; precision : Q; recall : Q; f1_score : Q }.

Record evaluation : Type := Evaluation
  { eval_metrics : metrics;
    detailed_report : Dict.t Sklearn.report_entry;
    predictions : list string;
    true_labels : list string;
    raw_scores : Np.matrix }.

(** The reduction at the end of [evaluate]; the two plots are side
    effects and are left out. *)
Definition compute_metrics (c : classifier) (acc : accumulators)
  : option evaluation :=
  let '(all_predictions, all_labels, all_scores) := acc in
  let '(p, r, f) :=
    Sklearn.precision_recall_fscore_support_weighted all_labels all_predictions in
  report <- Sklearn.classification_report all_labels all_predictions (labels c) ;;
  let acc := mean_bool (equal_elementwise all_predictions all_labels) in
  Some {| eval_metrics :=
            {| accuracy := acc; precision := p; recall := r; f1_score := f |};
          detailed_report := report;
          predictions := all_predictions;
          true_labels := all_labels;
          raw_scores := all_scores |}.

(** [evaluate(batch_size)]; [range] raises on a zero step. *)
Definition evaluate (c : classifier) (batch_size : nat) : option evaluation :=
  if Nat.eqb batch_size 0 then None
  else
    acc <- for_each (evaluate_batch c batch_size)
             (range 0 (length (dataset c)) batch_size) ([], [], []) ;;
    compute_metrics c acc.

End CLIPClassifier.

(** ** Reference formulations used in the statements below *)

(** Per-row L2 normalisation, each row divided by its own Euclidean
    norm: the alternative that the specification contrasts with the
    normalisation of [prepare_dataset]. *)
Definition per_row_l2_normalize (M : Np.matrix) : Np.matrix :=
  map (fun row =>
         map (fun x => x / sqrt (Np.sum (map (fun y => y * y) row))) row) M.

(** Column [j] of a matrix, and the Euclidean norm of that column taken
    over all the rows. *)
Definition column (M : Np.matrix) (j : nat) : Np.vec :=
  map (fun row => nth j row 0) M.

Definition column_norm (M : Np.matrix) (j : nat) : R :=
  sqrt (Np.sum (map (fun x => x * x) (column M j))).

(** Every row of the matrix has [D] entries, as every numpy 2-D array
    of shape [(n, D)] has. *)
Definition rectangular (D : nat) (M : Np.matrix) : Prop :=
  forall row, In row M -> length row = D.

(** A list of strings in strictly ascending order: what [sorted] returns
    on distinct values. *)
Definition ascending (l : list string) : Prop :=
  StronglySorted String_as_OT.lt l.

(** The prediction for one image, read off one row of the score matrix:
    the row of scores against every label embedding, and the label at
    the row's arg-max. *)
Definition predict (Image : Type) (image_features : Image -> Np.vec)
    (c : classifier Image) (smp : sample Image) : option (string * Np.vec) :=
  scores <- mapM (Np.dot (image_features (image smp))) (label_embeddings c) ;;
  idx <- Np.argmax scores ;;
  label <- nth_error (labels c) idx ;;
  Some (label, scores).

(** The keys under which [classification_report] stores its summary
    lines, in the same dictionary as the per-class rows. *)
Definition reserved_keys : list string :=
  ["accuracy"; "macro avg"; "weighted avg"]%string.

(** The fraction of positions at which the predicted label is exactly
    the true label. *)
Definition matching_positions (preds trues : list string) : nat :=
  length (filter (fun i => String.eqb (nth i preds EmptyString)
                                      (nth i trues EmptyString))
                 (seq 0 (length preds))).

Definition fraction_of_matches (preds trues : list string) : Q :=
  (of_nat (matching_positions preds trues) / of_nat (length preds))%Q.

(** The textbook support-weighted scores.  For a class [c], with [TP],
    [FP] and [FN] the numbers of true positives, false positives and
    false negatives: precision [TP / (TP + FP)], recall [TP / (TP + FN)],
    F1 [2 P R / (P + R)], each 0 where its denominator is 0; the weighted
    average adds them up over the classes with weights
    [support / number of samples], the support being [TP + FN]. *)
Module Standard.

Local Open Scope Q_scope.

Definition pairs_where (f : string * string -> bool)
    (trues preds : list string) : nat :=
  length (filter f (combine trues preds)).

Definition TP (trues preds : list string) (c : string) : nat :=
  pairs_where (fun p => String.eqb (fst p) c && String.eqb (snd p) c) trues preds.
Definition FP (trues preds : list string) (c : string) : nat :=
  pairs_where (fun p => negb (String.eqb (fst p) c) && String.eqb (snd p) c)
    trues preds.
Definition FN (trues preds : list string) (c : string) : nat :=
  pairs_where (fun p => String.eqb (fst p) c && negb (String.eqb (snd p) c))
    trues preds.

Definition ratio (num den : Q) : Q :=
  if Qeq_bool den 0 then 0 else num / den.

Definition precision (trues preds : list string) (c : string) : Q :=
  ratio (of_nat (TP trues preds c))
        (of_nat (TP trues preds c) + of_nat (FP trues preds c)).

Definition recall (trues preds : list string) (c : string) : Q :=
  ratio (of_nat (TP trues preds c))
        (of_nat (TP trues preds c) + of_nat (FN trues preds c)).

Definition f1 (trues preds : list string) (c : string) : Q :=
  let p := precision trues preds c in
  let r := recall trues preds c in
  ratio (2 * p * r) (p + r).

Definition support (trues preds : list string) (c : string) : Q :=
  of_nat (TP trues preds c) + of_nat (FN trues preds c).

Definition weighted (score : list string -> list string -> string -> Q)
    (trues preds classes : list string) : Q :=
  fold_right Qplus 0
    (map (fun c => support trues preds c / of_nat (length trues)
                   * score trues preds c) classes).

End Standard.

(** ** Concrete scenarios *)

(** The end-to-end scoring scenario: vocabulary [cat], [dog], label
    embeddings [[1, 0], [0, 1]] and one image whose embedding is
    [[0.9, 0.1]]; the image encoder is the identity on embeddings. *)
Definition cat_dog_classifier : classifier Np.vec :=
  {| dataset := [ {| image := [0.9; 0.1]; text := "cat"%string |} ];
     labels := ["cat"; "dog"]%string;
     label_embeddings := [[1; 0]; [0; 1]] |}.

(** A text encoder that separates the two prompts, and a dataset of two
    images that both embed next to the [cat] prompt, one of them
    labelled [dog]. *)
Definition cat_dog_features (prompt : string) : Np.vec :=
  if String.eqb prompt "a photo of a cat" then [1; 0] else [0; 1].

Definition two_cat_like_images : list (sample Np.vec) :=
  [ {| image := [1; 0]; text := "cat"%string |};
    {| image := [1; 0]; text := "dog"%string |} ].

(** A dataset of two images, one next to each prompt and each with its
    own label, whose embeddings are not unit vectors. *)
Definition cat_and_dog_images : list (sample Np.vec) :=
  [ {| image := [2; 0]; text := "cat"%string |};
    {| image := [0; 3]; text := "dog"%string |} ].

(** ** Plotting and reporting

    The calls to matplotlib and seaborn, and [print], act on the outside
    world only.  A function that plots is a computation that logs the
    calls it issues, in order, and either finishes or raises; the calls
    issued before an exception stay in the log.  Calls that set the
    appearance only are logged by name; calls that carry data keep it.
    A formatted number ([f'{value:.3f}']) is logged as the number. *)

(** Modelled from the spec: the format that [plt.savefig] of matplotlib,
    not under src/, derives from a file name,
    [os.path.splitext(path)[1][1:]]: what follows the last dot of the
    last path component, unless that component has nothing but dots
    before it. *)
Fixpoint ext_scan (rev_path ext : list ascii)
  : option (list ascii * list ascii) :=
  match rev_path with
  | [] => None
  | c :: rest =>
      if Ascii.eqb c "." then Some (ext, rest)
      else if Ascii.eqb c "/" then None
      else ext_scan rest (c :: ext)
  end.

Fixpoint has_name (rev_stem : list ascii) : bool :=
  match rev_stem with
  | [] => false
  | c :: rest =>
      if Ascii.eqb c "/" then false
      else if Ascii.eqb c "." then has_name rest
      else true
  end.

Definition extension (path : string) : string :=
  match ext_scan (rev (list_ascii_of_string path)) [] with
  | Some (ext, stem) =>
      if has_name stem then string_of_list_ascii ext else EmptyString
  | None => EmptyString
  end.

(** [str.lower] on the letters A to Z. *)
Definition lower_ascii (c : ascii) : ascii :=
  let n := nat_of_ascii c in
  if (65 <=? n)%nat && (n <=? 90)%nat then ascii_of_nat (n + 32) else c.

Definition lower (s : string) : string :=
  string_of_list_ascii (map lower_ascii (list_ascii_of_string s)).

(** Modelled from the spec: the formats that matplotlib's default
    backend writes. *)
Definition supported_formats : list string :=
  ["eps"; "jpeg"; "jpg"; "pdf"; "pgf"; "png"; "ps"; "raw"; "rgba"; "svg";
   "svgz"; "tif"; "tiff"; "webp"]%string.

(** Modelled from the spec: whether [plt.savefig(path)] writes the
    file.  A name without extension gets the default format; an
    extension that names no supported format raises [ValueError].  The
    location is taken to be writable. *)
Definition savefig_ok (path : string) : bool :=
  let format := lower (extension path) in
  String.eqb format EmptyString || existsb (String.eqb format) supported_formats.

(** Whether the saving step of a plot function gets through:
    [if output_path: plt.savefig(output_path)] skips [None] and the
    empty string. *)
Definition saves (output_path : option string) : bool :=
  match output_path with
  | None | Some EmptyString => true
  | Some path => savefig_ok path
  end.

Module Plt.

Section Calls.

Variable V : Type.

Inductive call : Type :=
| Setup (what : string)
| Plot (xs : list string) (ys : list V) (marker label : string)
| Bar (names : list string) (heights : list V)
| Heatmap (cm : list (list nat)) (xticklabels yticklabels : list string)
| Text (height : V)
| Annotate (x : string) (y : V)
| Savefig (path : string)
| Print (text : string)
| Close.

(** A call that only draws: it neither writes a file, nor prints, nor
    closes the figure. *)
Definition drawing (c : call) : Prop :=
  match c with
  | Savefig _ | Print _ | Close => False
  | _ => True
  end.

(** The log, and the result unless an exception was raised. *)
Definition run (A : Type) : Type := (list call * option A)%type.

Definition ret {A : Type} (a : A) : run A := ([], Some a).

Definition emit (c : call) : run unit := ([c], Some tt).

(** An expression that may raise, issuing no call. *)
Definition eval {A : Type} (o : option A) : run A := ([], o).

Definition seq_run {A B : Type} (m : run A) (k : A -> run B) : run B :=
  match m with
  | (log, Some a) => let (log', r) := k a in (log ++ log', r)
  | (log, None) => (log, None)
  end.

(** A [for] loop over a list. *)
Fixpoint each {A : Type} (body : A -> run unit) (l : list A) : run unit :=
  match l with
  | [] => ret tt
  | a :: rest => seq_run (body a) (fun _ => each body rest)
  end.

(** [plt.savefig(path)]: the file is written, or the call raises and
    nothing is written. *)
Definition savefig (path : string) : run unit :=
  if savefig_ok path then emit (Savefig path) else ([], None).

(** [if output_path: plt.savefig(output_path)]: [None] and the empty
    string are falsy. *)
Definition savefig_if (output_path : option string) : run unit :=
  match output_path with
  | None | Some EmptyString => ret tt
  | Some path => savefig path
  end.

End Calls.

End Plt.

Notation "x <~ m ;; k" := (Plt.seq_run m (fun x => k))
  (at level 61, m at next level, right associativity).
Notation "m ;;; k" := (Plt.seq_run m (fun _ => k))
  (at level 61, right associativity).

(** [enumerate(l)]. *)
Definition enumerate {A : Type} (l : list A) : list (nat * A) :=
  combine (seq 0 (length l)) l.

(** The display names and the dictionary keys of the four metrics, as
    both comparison functions spell them. *)
Definition metric_names : list string :=
  ["Accuracy"; "Precision"; "Recall"; "F1 Score"]%string.
Definition metric_keys : list string :=
  ["accuracy"; "precision"; "recall"; "f1_score"]%string.

(** [markers] of [plot_implementations_comparison]. *)
Definition markers : list string := ["o"; "s"; "D"; "^"; "v"]%string.

Section Comparison.

(** The type of a metric value. *)
Variable V : Type.

(** [[results[key] for key in metric_keys]]; a missing key raises. *)
Definition metric_values (results : Dict.t V) : option (list V) :=
  mapM (Dict.get results) metric_keys.

(** The first loop of [plot_implementations_comparison]: one line per
    implementation, with the marker at the implementation's position. *)
Definition plot_lines (implementations_results : Dict.t (Dict.t V))
  : Plt.run V unit :=
  Plt.each
    (fun item : nat * (string * Dict.t V) =>
       let '(idx, (impl_name, results)) := item in
       values <~ Plt.eval V (metric_values results) ;;
       marker <~ Plt.eval V (nth_error markers idx) ;;
       Plt.emit (Plt.Plot metric_names values marker impl_name))
    (enumerate implementations_results).

(** The second loop: one annotation per implementation and metric. *)
Definition annotate_values (implementations_results : Dict.t (Dict.t V))
  : Plt.run V unit :=
  Plt.each
    (fun item : string * Dict.t V =>
       let '(impl_name, results) := item in
       values <~ Plt.eval V (metric_values results) ;;
       Plt.each
         (fun iv : nat * V =>
            x <~ Plt.eval V (nth_error metric_names (fst iv)) ;;
            Plt.emit (Plt.Annotate x (snd iv)))
         (enumerate values))
    implementations_results.

Definition plot_implementations_comparison
    (implementations_results : Dict.t (Dict.t V)) (output_path : option string)
  : Plt.run V unit :=
  Plt.emit (Plt.Setup V "style.use") ;;;
  Plt.emit (Plt.Setup V "figure") ;;;
  plot_lines implementations_results ;;;
  Plt.each (fun what => Plt.emit (Plt.Setup V what))
    ["xlabel"; "ylabel"; "title"; "grid"; "spines.top"; "spines.right";
     "legend"; "xticks"; "yticks"; "ylim"]%string ;;;
  annotate_values implementations_results ;;;
  Plt.emit (Plt.Setup V "tight_layout") ;;;
  match output_path with
  | None | Some EmptyString => Plt.ret V tt
  | Some path =>
      Plt.savefig V path ;;;
      Plt.emit (Plt.Print V ("Plot saved to " ++ path))
  end ;;;
  Plt.emit (Plt.Close V).

(** A value of a row of [compare_implementations]: the display name of
    the metric, or an implementation's value. *)
Inductive cell : Type :=
| Name (metric : string)
| Score (value : V).

(** The inner loop of [compare_implementations]:
    [data_point[impl_name] = results[key]] for every implementation. *)
Fixpoint add_scores (key : string) (items : list (string * Dict.t V))
    (data_point : Dict.t cell) : option (Dict.t cell) :=
  match items with
  | [] => Some data_point
  | (impl_name, results) :: rest =>
      value <- Dict.get results key ;;
      add_scores key rest (Dict.set data_point impl_name (Score value))
  end.

Definition compare_implementations
    (implementations_results : Dict.t (Dict.t V)) : option (list (Dict.t cell)) :=
  mapM (fun mk : string * string =>
          let '(metric, key) := mk in
          add_scores key implementations_results
            [("metric"%string, Name metric)])
       (combine metric_names metric_keys).

(** [plot_metrics_comparison]: one bar per entry of [metrics_dict] and
    one text label on top of each bar. *)
Definition plot_metrics_comparison
    (metrics_dict : Dict.t V) (output_path : option string) : Plt.run V unit :=
  Plt.emit (Plt.Setup V "figure") ;;;
  Plt.emit (Plt.Bar (map fst metrics_dict) (map snd metrics_dict)) ;;;
  Plt.emit (Plt.Setup V "title") ;;;
  Plt.emit (Plt.Setup V "ylabel") ;;;
  Plt.each (fun height => Plt.emit (Plt.Text height)) (map snd metrics_dict) ;;;
  Plt.emit (Plt.Setup V "ylim") ;;;
  Plt.savefig_if V output_path ;;;
  Plt.emit (Plt.Close V).

End Comparison.

(** Modelled from the spec: the dictionary [label_to_ind] that
    [confusion_matrix] of scikit-learn, not under src/, builds as
    [{y: x for x, y in enumerate(labels)}]: for a label listed twice the
    later position wins. *)
Definition label_to_ind (labels : list string) : Dict.t nat :=
  Dict.of_list (combine labels (seq 0 (length labels))).

(** Modelled from the spec: entry [(i, j)] of the confusion matrix: the
    number of samples whose true label has index [i] and whose predicted
    label has index [j]; a sample with a label outside [labels] is
    dropped. *)
Definition cell_count (ind : Dict.t nat) (pairs : list (string * string))
    (i j : nat) : nat :=
  length (filter (fun q =>
                    match Dict.get ind (fst q), Dict.get ind (snd q) with
                    | Some a, Some b => Nat.eqb a i && Nat.eqb b j
                    | _, _ => false
                    end)
                 pairs).

(** Modelled from the spec: [confusion_matrix(y_true, y_pred, labels=...)]
    of scikit-learn, not under src/.  It raises on inputs of different
    lengths, on an empty [labels], and when no label of [labels] occurs
    in a non-empty [y_true]; on an empty [y_true] it returns zeros. *)
Definition confusion_matrix (y_true y_pred labels : list string)
  : option (list (list nat)) :=
  if negb (Nat.eqb (length y_true) (length y_pred)) then None
  else
    match labels, y_true with
    | [], _ => None
    | _, [] => Some (map (fun _ => map (fun _ => 0%nat) labels) labels)
    | _, _ =>
        if existsb (fun l => existsb (String.eqb l) y_true) labels then
          let ind := label_to_ind labels in
          let n := length labels in
          Some (map (fun i =>
                       map (fun j => cell_count ind (combine y_true y_pred) i j)
                           (seq 0 n))
                    (seq 0 n))
        else None
    end.

(** [np.trace]: the sum of the diagonal of a matrix. *)
Definition trace (cm : list (list nat)) : nat :=
  list_sum (map (fun i => nth i (nth i cm []) 0%nat) (seq 0 (length cm))).

Section Reporting.

Variable Image : Type.
Variable image_features : Image -> Np.vec.
Variable text_features : string -> Np.vec.

(** [plot_confusion_matrix(true_labels, pred_labels, output_path)]. *)
Definition plot_confusion_matrix (c : classifier Image)
    (true_labels pred_labels : list string) (output_path : option string)
  : Plt.run Q unit :=
  cm <~ Plt.eval Q (confusion_matrix true_labels pred_labels (labels c)) ;;
  Plt.emit (Plt.Setup Q "figure") ;;;
  Plt.emit (Plt.Heatmap Q cm (labels c) (labels c)) ;;;
  Plt.each (fun what => Plt.emit (Plt.Setup Q what))
    ["title"; "ylabel"; "xlabel"; "xticks"; "tight_layout"]%string ;;;
  Plt.savefig_if Q output_path ;;;
  Plt.emit (Plt.Close Q).

(** The dictionary [metrics] that [evaluate] compiles. *)
Definition metrics_dict (m : metrics) : Dict.t Q :=
  [("accuracy"%string, accuracy m); ("precision"%string, precision m);
   ("recall"%string, recall m); ("f1_score"%string, f1_score m)].

(** The two plots that [evaluate] generates from its accumulators and
    metrics before it returns. *)
Definition generate_plots (c : classifier Image) (ev : evaluation)
  : Plt.run Q unit :=
  plot_confusion_matrix c (true_labels ev) (predictions ev)
    (Some "confusion_matrix.png"%string) ;;;
  plot_metrics_comparison (metrics_dict (eval_metrics ev))
    (Some "metrics_comparison.png"%string).

(** [main()], given the dataset that [load_dataset] returns: the
    evaluation results and the five sample predictions that it prints. *)
Definition main (ds : list (sample Image))
  : option (evaluation * list prediction) :=
  let classifier := prepare_dataset text_features ds in
  eval_results <- evaluate image_features classifier 32 ;;
  let sample_indices := [0; 10; 20; 30; 40]%nat in
  sample_results <- inference_on_samples image_features classifier sample_indices ;;
  Some (eval_results, sample_results).

End Reporting.

(** The results compared in the last cell of the notebook. *)
Definition notebook_results : Dict.t (Dict.t Q) :=
  [("Vision Transformer"%string,
    [("accuracy"%string, 86 # 100); ("precision"%string, 86 # 100);
     ("recall"%string, 86 # 100); ("f1_score"%string, 86 # 100)]);
   ("VGG 16"%string,
    [("accuracy"%string, 76 # 100); ("precision"%string, 75 # 100);
     ("recall"%string, 72 # 100); ("f1_score"%string, 74 # 100)]);
   ("CLIP"%string,
    [("accuracy"%string, 38 # 100); ("precision"%string, 36 # 100);
     ("recall"%string, 38 # 100); ("f1_score"%string, 36 # 100)])].

(* ================================================================== *)
(** * Properties *)

(** ** Reductions over real arrays *)

Lemma sum_map_div (l : Np.vec) (s : R) :
  Np.sum (map (fun e => e / s) l) = Np.sum l / s.
Proof.
  induction l as [|a l IH]; simpl.
  - unfold Rdiv. now rewrite Rmult_0_l.
  - rewrite IH. unfold Rdiv. ring.
Qed.

Lemma sum_exp_pos (l : Np.vec) (m : R) :
  l <> [] -> 0 < Np.sum (map (fun v => exp (v - m)) l).
Proof.
  destruct l as [|a l]; [congruence|intros _].
  assert (H : forall t, 0 <= Np.sum (map (fun v => exp (v - m)) t)).
  { induction t as [|b t IH]; simpl; [lra|].
    pose proof (exp_pos (b - m)). lra. }
  simpl. pose proof (exp_pos (a - m)). specialize (H l). lra.
Qed.

Lemma Rmax_shift (a b c : R) : Rmax (a + c) (b + c) = Rmax a b + c.
Proof.
  unfold Rmax. destruct (Rle_dec (a + c) (b + c)), (Rle_dec a b); lra.
Qed.

Lemma fold_max_shift (t : Np.vec) (a c : R) :
  fold_left Rmax (map (fun v => v + c) t) (a + c) = fold_left Rmax t a + c.
Proof.
  revert a. induction t as [|b t IH]; intros a; simpl; [reflexivity|].
  rewrite <- IH. f_equal. now rewrite Rmax_shift.
Qed.

Lemma fold_max_ge_init (t : Np.vec) (a : R) : a <= fold_left Rmax t a.
Proof.
  revert a. induction t as [|b t IH]; intros a; simpl; [lra|].
  eapply Rle_trans; [apply (Rmax_l a b)|apply IH].
Qed.

Lemma fold_max_upper (t : Np.vec) (a v : R) :
  In v t -> v <= fold_left Rmax t a.
Proof.
  revert a. induction t as [|b t IH]; intros a; simpl; [tauto|].
  intros [-> | Hin].
  - eapply Rle_trans; [apply (Rmax_r a v)|apply fold_max_ge_init].
  - now apply IH.
Qed.

Lemma fold_max_in (t : Np.vec) (a : R) :
  fold_left Rmax t a = a \/ In (fold_left Rmax t a) t.
Proof.
  revert a. induction t as [|b t IH]; intros a; simpl; [now left|].
  destruct (IH (Rmax a b)) as [H|H]; [|now right; right].
  rewrite H. destruct (Rmax_case a b (fun r => r = a \/ r = b)) as [E|E]; auto.
Qed.

Lemma max_spec (x : Np.vec) :
  x <> [] ->
  exists m, Np.max x = Some m /\ In m x /\ forall v, In v x -> v <= m.
Proof.
  destruct x as [|a t]; [congruence|intros _].
  exists (fold_left Rmax t a). split; [reflexivity|split].
  - destruct (fold_max_in t a) as [H|H]; [left; now rewrite H|now right].
  - intros v [-> | Hin]; [apply fold_max_ge_init|now apply fold_max_upper].
Qed.

Lemma max_shift (x : Np.vec) (c : R) :
  Np.max (map (fun v => v + c) x) = option_map (fun m => m + c) (Np.max x).
Proof.
  destruct x as [|a t]; simpl; [reflexivity|]. now rewrite fold_max_shift.
Qed.

Lemma softmax_unfold (x : Np.vec) (m : R) :
  Np.max x = Some m ->
  softmax x =
  Some (map (fun v => exp (v - m) / Np.sum (map (fun u => exp (u - m)) x)) x).
Proof.
  intros H. unfold softmax. rewrite H. simpl. now rewrite map_map.
Qed.

Lemma softmax_sum (x : Np.vec) (p : Np.vec) :
  x <> [] -> softmax x = Some p -> Np.sum p = 1.
Proof.
  intros Hne. unfold softmax.
  destruct (max_spec Hne) as (m & Hm & _). rewrite Hm. simpl.
  intros [= <-]. rewrite sum_map_div.
  pose proof (sum_exp_pos m Hne). field. lra.
Qed.

(** ** First maximal position *)

Lemma argmax_scan_spec (l pre : Np.vec) (bi : nat) (b : R) :
  (bi < length pre)%nat ->
  nth bi pre 0 = b ->
  (forall j, (j < length pre)%nat -> nth j pre 0 <= b) ->
  (forall j, (j < bi)%nat -> nth j pre 0 < b) ->
  let r := Np.argmax_scan l (length pre) bi b in
  (r < length (pre ++ l))%nat /\
  (forall j, (j < length (pre ++ l))%nat ->
             nth j (pre ++ l) 0 <= nth r (pre ++ l) 0) /\
  (forall j, (j < r)%nat -> nth j (pre ++ l) 0 < nth r (pre ++ l) 0).
Proof.
  revert pre bi b. induction l as [|x t IH]; intros pre bi b Hbi Hb Hle Hlt; simpl.
  - rewrite app_nil_r, Hb. auto.
  - assert (Hlen : length (pre ++ [x]) = S (length pre))
      by (rewrite length_app; simpl; lia).
    assert (Hx : nth (length pre) (pre ++ [x]) 0 = x)
      by (rewrite app_nth2, Nat.sub_diag; [reflexivity|lia]).
    replace (pre ++ x :: t) with ((pre ++ [x]) ++ t)
      by (rewrite <- app_assoc; reflexivity).
    rewrite <- Hlen.
    destruct (Rlt_dec b x) as [Hbx|Hbx].
    + apply IH.
      * lia.
      * exact Hx.
      * intros j Hj. rewrite Hlen in Hj.
        destruct (Nat.eq_dec j (length pre)) as [-> | Hne].
        -- rewrite Hx. lra.
        -- rewrite app_nth1 by lia. specialize (Hle j ltac:(lia)). lra.
      * intros j Hj. rewrite app_nth1 by lia. specialize (Hle j Hj). lra.
    + apply IH.
      * lia.
      * rewrite app_nth1 by lia. exact Hb.
      * intros j Hj. rewrite Hlen in Hj.
        destruct (Nat.eq_dec j (length pre)) as [-> | Hne].
        -- rewrite Hx. lra.
        -- rewrite app_nth1 by lia. apply Hle. lia.
      * intros j Hj. rewrite app_nth1 by lia. now apply Hlt.
Qed.

Lemma argmax_spec (s : Np.vec) :
  s <> [] ->
  exists i, Np.argmax s = Some i /\
    (i < length s)%nat /\
    (forall j, (j < length s)%nat -> nth j s 0 <= nth i s 0) /\
    (forall j, (j < i)%nat -> nth j s 0 < nth i s 0).
Proof.
  destruct s as [|a t]; [congruence|intros _].
  exists (Np.argmax_scan t 1 0 a). split; [reflexivity|].
  apply (@argmax_scan_spec t [a] 0%nat a); simpl.
  - lia.
  - reflexivity.
  - intros j Hj. assert (j = 0%nat) as -> by lia. lra.
  - intros j Hj. lia.
Qed.

Lemma argmax_scan_monotone (f : R -> R) (l : Np.vec) (i bi : nat) (b : R) :
  (forall u v, u < v -> f u < f v) ->
  Np.argmax_scan (map f l) i bi (f b) = Np.argmax_scan l i bi b.
Proof.
  intros Hf.
  assert (Hinv : forall u v, f u < f v -> u < v).
  { intros u v H. destruct (Rlt_le_dec u v) as [|Hvu]; [assumption|].
    destruct Hvu as [Hvu | ->]; [apply Hf in Hvu|]; lra. }
  revert i bi b. induction l as [|x t IH]; intros i bi b; simpl; [reflexivity|].
  destruct (Rlt_dec (f b) (f x)) as [H|H], (Rlt_dec b x) as [H'|H'].
  - apply IH.
  - exfalso. auto.
  - exfalso. auto.
  - apply IH.
Qed.

Lemma argmax_monotone (f : R -> R) (s : Np.vec) :
  (forall u v, u < v -> f u < f v) ->
  Np.argmax (map f s) = Np.argmax s.
Proof.
  intros Hf. destruct s as [|a t]; simpl; [reflexivity|].
  now rewrite argmax_scan_monotone.
Qed.

Lemma softmax_monotone_form (s : Np.vec) (m : R) :
  s <> [] ->
  forall u v, u < v ->
    exp (u - m) / Np.sum (map (fun w => exp (w - m)) s) <
    exp (v - m) / Np.sum (map (fun w => exp (w - m)) s).
Proof.
  intros Hne u v Huv. pose proof (sum_exp_pos m Hne) as Hpos.
  unfold Rdiv. apply Rmult_lt_compat_r.
  - now apply Rinv_0_lt_compat.
  - apply exp_increasing. lra.
Qed.

Lemma argmax_softmax (s : Np.vec) :
  s <> [] ->
  exists p i, softmax s = Some p /\ Np.argmax p = Some i /\ Np.argmax s = Some i.
Proof.
  intros Hne. destruct (max_spec Hne) as (m & Hm & _).
  destruct (argmax_spec Hne) as (i & Hi & _).
  eexists _, i. split; [apply (softmax_unfold _ Hm)|]. split; [|exact Hi].
  rewrite <- Hi.
  apply (argmax_monotone
           (fun v => exp (v - m) / Np.sum (map (fun w => exp (w - m)) s))).
  now apply softmax_monotone_form.
Qed.

(** ** Softmax: claims C3 and C4 *)

(** C4: for a score vector [s] (non-empty, as every vector of scores
    against a vocabulary is), [softmax s] returns probabilities that sum
    to 1, and adding a constant [c] to every element of [s] leaves
    [softmax] unchanged. *)
Theorem softmax_sum_one_shift_invariant (s : Np.vec) :
  s <> [] ->
  (exists p, softmax s = Some p /\ Np.sum p = 1) /\
  (forall c, softmax (map (fun v => v + c) s) = softmax s).
Proof.
  intros Hne. destruct (max_spec Hne) as (m & Hm & _). split.
  - eexists. split; [apply (softmax_unfold _ Hm)|].
    apply (softmax_sum Hne (softmax_unfold _ Hm)).
  - intros c. unfold softmax. rewrite max_shift, Hm. simpl.
    assert (E : map (fun v => exp (v - (m + c))) (map (fun v => v + c) s)
                = map (fun v => exp (v - m)) s).
    { rewrite map_map. apply map_ext. intros a. f_equal. lra. }
    now rewrite E.
Qed.

Lemma softmax_sum_one_shift_invariant_witness :
  (exists p, softmax [1; 2] = Some p /\ Np.sum p = 1) /\
  (forall c, softmax (map (fun v => v + c) [1; 2]) = softmax [1; 2]).
Proof.
  apply (@softmax_sum_one_shift_invariant [1; 2]). discriminate.
Defined.

(** On a batch of several rows the body of [softmax] reduces over the
    whole array: on the 2-by-2 batch of zero scores every entry is 1/4
    and each row sums to 1/2.  The program never passes it such a
    batch. *)
Lemma softmax_2d_rows_not_normalised :
  ~ (forall x p : Np.matrix,
        x <> [] -> (forall row, In row x -> row <> []) ->
        softmax_2d x = Some p ->
        forall row, In row p -> Np.sum row = 1).
Proof.
  intros H.
  assert (Hmax : Rmax (Rmax (Rmax 0 0) 0) 0 = 0).
  { unfold Rmax. repeat (destruct (Rle_dec _ _); try lra). }
  specialize (H [[0; 0]; [0; 0]]
                [[1 / 4; 1 / 4]; [1 / 4; 1 / 4]]).
  assert (Hrow : Np.sum [1 / 4; 1 / 4] = 1).
  { apply H.
    - discriminate.
    - intros row [<- | [<- | []]]; discriminate.
    - unfold softmax_2d. simpl. rewrite Hmax.
      replace (0 - 0) with 0 by lra. rewrite exp_0.
      replace (1 / (1 + (1 + (1 + (1 + 0))))) with (1 / 4) by lra.
      reflexivity.
    - now left. }
  simpl in Hrow. lra.
Qed.

(** C3, amended: for the single row of scores of one image (the vector
    [np.dot(...)[0]] that [inference_on_samples] passes, or a 2-D batch
    of exactly one row), [softmax] subtracts the row's maximum [m] from
    every element before exponentiating and divides every exponential by
    the sum of the row's exponentials, so the row of probabilities sums
    to 1. *)
Theorem softmax_single_row (s : Np.vec) :
  s <> [] ->
  exists m p,
    Np.max s = Some m /\ In m s /\ (forall v, In v s -> v <= m) /\
    softmax s = Some p /\
    p = map (fun v => exp (v - m) / Np.sum (map (fun u => exp (u - m)) s)) s /\
    Np.sum p = 1 /\
    softmax_2d [s] = Some [p].
Proof.
  intros Hne. destruct (max_spec Hne) as (m & Hm & Hin & Hub).
  exists m. eexists. split; [exact Hm|]. split; [exact Hin|]. split; [exact Hub|].
  split; [apply (softmax_unfold _ Hm)|]. split; [reflexivity|].
  split; [apply (softmax_sum Hne (softmax_unfold _ Hm))|].
  unfold softmax_2d. simpl. rewrite !app_nil_r, Hm. simpl.
  now rewrite app_nil_r, map_map.
Qed.

Lemma softmax_single_row_witness :
  exists m p,
    Np.max [0; 1] = Some m /\ In m [0; 1] /\ (forall v, In v [0; 1] -> v <= m) /\
    softmax [0; 1] = Some p /\
    p = map (fun v => exp (v - m) / Np.sum (map (fun u => exp (u - m)) [0; 1]))
          [0; 1] /\
    Np.sum p = 1 /\
    softmax_2d [[0; 1]] = Some [p].
Proof.
  apply (@softmax_single_row [0; 1]). discriminate.
Defined.

(** ** Arg-max tie-break: claim C5 *)

(** C5: on a non-empty score vector [np.argmax] returns a position of
    the maximum such that every earlier position holds a strictly
    smaller score, so among tied maxima the lowest index is selected; on
    [[1.0, 1.0]] it returns index 0. *)
Theorem argmax_lowest_index :
  Np.argmax [1; 1] = Some 0%nat /\
  forall s : Np.vec, s <> [] ->
    exists i, Np.argmax s = Some i /\
      (i < length s)%nat /\
      (forall j, (j < length s)%nat -> nth j s 0 <= nth i s 0) /\
      (forall j, (j < i)%nat -> nth j s 0 < nth i s 0).
Proof.
  split.
  - unfold Np.argmax. simpl. destruct (Rlt_dec 1 1); [lra|reflexivity].
  - intros s Hne. now apply argmax_spec.
Qed.

Lemma argmax_lowest_index_witness :
  exists i, Np.argmax [2; 5; 5] = Some i /\
    (i < length [2; 5; 5])%nat /\
    (forall j, (j < length [2; 5; 5])%nat -> nth j [2; 5; 5] 0 <= nth i [2; 5; 5] 0) /\
    (forall j, (j < i)%nat -> nth j [2; 5; 5] 0 < nth i [2; 5; 5] 0).
Proof.
  apply (proj2 argmax_lowest_index [2; 5; 5]). discriminate.
Defined.

(** ** Normalisation of the label embeddings: claim C2 *)

Lemma length_zip_with (f : R -> R -> R) (a b : Np.vec) :
  length (Np.zip_with f a b) = Nat.min (length a) (length b).
Proof.
  revert b. induction a as [|x a IH]; intros [|y b]; simpl; auto.
Qed.

Lemma nth_zip_with (f : R -> R -> R) (a b : Np.vec) (j : nat) :
  (j < length a)%nat -> (j < length b)%nat ->
  nth j (Np.zip_with f a b) 0 = f (nth j a 0) (nth j b 0).
Proof.
  revert b j. induction a as [|x a IH]; intros [|y b] [|j]; simpl; intros; try lia.
  - reflexivity.
  - apply IH; lia.
Qed.

Lemma fold_zip_plus (D : nat) (rs : Np.matrix) (r : Np.vec) :
  length r = D -> rectangular D rs ->
  length (fold_left (Np.zip_with Rplus) rs r) = D /\
  forall j, (j < D)%nat ->
    nth j (fold_left (Np.zip_with Rplus) rs r) 0 = nth j r 0 + Np.sum (column rs j).
Proof.
  revert r. induction rs as [|r' rs IH]; intros r Hr Hrect; simpl.
  - split; [assumption|]. intros. lra.
  - assert (Hr' : length r' = D) by (apply Hrect; now left).
    destruct (IH (Np.zip_with Rplus r r')) as [Hlen Hnth].
    + rewrite length_zip_with. lia.
    + intros row Hin. apply Hrect. now right.
    + split; [assumption|]. intros j Hj. rewrite Hnth by assumption.
      rewrite nth_zip_with by lia. lra.
Qed.

Lemma sum_axis0_spec (D : nat) (M : Np.matrix) :
  M <> [] -> rectangular D M ->
  length (Np.sum_axis0 M) = D /\
  forall j, (j < D)%nat -> nth j (Np.sum_axis0 M) 0 = Np.sum (column M j).
Proof.
  destruct M as [|r rs]; [congruence|]. intros _ Hrect. simpl.
  apply fold_zip_plus.
  - apply Hrect. now left.
  - intros row Hin. apply Hrect. now right.
Qed.

Lemma nth_map_zero (f : R -> R) (l : Np.vec) (j : nat) :
  f 0 = 0 -> nth j (map f l) 0 = f (nth j l 0).
Proof.
  intros Hf. revert j. induction l as [|x l IH]; intros [|j]; simpl; auto.
Qed.

Lemma column_map_square (M : Np.matrix) (j : nat) :
  column (map (map (fun x => x * x)) M) j = map (fun x => x * x) (column M j).
Proof.
  unfold column. rewrite !map_map. apply map_ext. intros row.
  apply (nth_map_zero (fun x => x * x)). lra.
Qed.

Lemma norm_axis0_spec (D : nat) (M : Np.matrix) :
  M <> [] -> rectangular D M ->
  length (Np.norm_axis0 M) = D /\
  forall j, (j < D)%nat -> nth j (Np.norm_axis0 M) 0 = column_norm M j.
Proof.
  intros Hne Hrect. unfold Np.norm_axis0, column_norm.
  destruct (@sum_axis0_spec D (map (map (fun x => x * x)) M)) as [Hlen Hnth].
  - destruct M; [congruence|discriminate].
  - intros row Hin. apply in_map_iff in Hin as (r & <- & Hr).
    rewrite length_map. now apply Hrect.
  - split; [now rewrite length_map|]. intros j Hj.
    rewrite (nth_map_zero sqrt _ j sqrt_0), Hnth by assumption.
    now rewrite column_map_square.
Qed.

Lemma div_rows_entry (D : nat) (M : Np.matrix) (i j : nat) :
  rectangular D M -> (i < length M)%nat -> (j < D)%nat ->
  nth j (nth i (Np.div_rows M (Np.norm_axis0 M)) []) 0 =
  nth j (nth i M []) 0 / column_norm M j.
Proof.
  intros Hrect Hi Hj.
  assert (Hne : M <> []) by (destruct M; [simpl in Hi; lia|discriminate]).
  destruct (norm_axis0_spec Hne Hrect) as [Hlen Hnth].
  unfold Np.div_rows.
  change (@nil R) with ((fun row => Np.zip_with Rdiv row (Np.norm_axis0 M)) []) at 1.
  rewrite map_nth. 
  assert (Hrow : length (nth i M []) = D) by (apply Hrect, nth_In, Hi).
  rewrite nth_zip_with by lia. now rewrite Hnth.
Qed.

(** ** The label vocabulary: [sorted(set(...))] *)

Lemma compare_lt_iff (x y : string) :
  String.compare x y = Lt <-> String_as_OT.lt x y.
Proof. apply String_as_OT.cmp_lt. Qed.

Lemma compare_gt_iff (x y : string) :
  String.compare x y = Gt <-> String_as_OT.lt y x.
Proof.
  rewrite <- compare_lt_iff, (String.compare_antisym y x).
  destruct (String.compare x y); simpl; split; congruence.
Qed.

Lemma lt_irrefl (x : string) : ~ String_as_OT.lt x x.
Proof. intros H. apply String_as_OT.lt_not_eq in H. now apply H. Qed.

Lemma lt_asym (x y : string) : String_as_OT.lt x y -> ~ String_as_OT.lt y x.
Proof.
  intros H1 H2. apply (@lt_irrefl x). eapply String_as_OT.lt_trans; eassumption.
Qed.

Lemma in_insert_sorted (x y : string) (l : list string) :
  In y (insert_sorted x l) <-> y = x \/ In y l.
Proof.
  induction l as [|z l IH]; simpl.
  - intuition.
  - destruct (String.compare x z) eqn:E; simpl.
    + apply String.compare_eq_iff in E. subst z. intuition.
    + intuition.
    + rewrite IH. intuition.
Qed.

Lemma in_sorted_set (y : string) (xs : list string) :
  In y (sorted_set xs) <-> In y xs.
Proof.
  induction xs as [|x xs IH]; simpl; [tauto|].
  rewrite in_insert_sorted, IH. intuition.
Qed.

Lemma insert_sorted_ascending (x : string) (l : list string) :
  ascending l -> ascending (insert_sorted x l).
Proof.
  unfold ascending. induction l as [|z l IH]; intros Hs; simpl.
  - constructor; constructor.
  - destruct (String.compare x z) eqn:E.
    + assumption.
    + apply compare_lt_iff in E. constructor; [assumption|].
      apply StronglySorted_inv in Hs as [_ Hall].
      constructor; [assumption|].
      eapply Forall_impl; [|exact Hall].
      intros a Ha. eapply String_as_OT.lt_trans; eassumption.
    + apply compare_gt_iff in E.
      apply StronglySorted_inv in Hs as [Hs Hall].
      constructor; [now apply IH|].
      apply Forall_forall. intros a Ha.
      apply in_insert_sorted in Ha as [-> | Ha]; [assumption|].
      rewrite Forall_forall in Hall. now apply Hall.
Qed.

Lemma sorted_set_ascending (xs : list string) : ascending (sorted_set xs).
Proof.
  induction xs as [|x xs IH]; simpl.
  - constructor.
  - now apply insert_sorted_ascending.
Qed.

Lemma ascending_unique (l1 l2 : list string) :
  ascending l1 -> ascending l2 ->
  (forall y, In y l1 <-> In y l2) -> l1 = l2.
Proof.
  unfold ascending. revert l2.
  induction l1 as [|x l1 IH]; intros [|z l2] H1 H2 Heq.
  - reflexivity.
  - exfalso. apply (proj2 (Heq z)). now left.
  - exfalso. apply (proj1 (Heq x)). now left.
  - apply StronglySorted_inv in H1 as [H1 A1].
    apply StronglySorted_inv in H2 as [H2 A2].
    rewrite Forall_forall in A1, A2.
    assert (Hxz : x = z).
    { destruct (proj1 (Heq x) (or_introl eq_refl)) as [E|Hx]; [now symmetry|].
      destruct (proj2 (Heq z) (or_introl eq_refl)) as [E|Hz]; [assumption|].
      exfalso. apply (@lt_asym x z); auto. }
    subst z. f_equal. apply IH; try assumption.
    intros y. split; intros Hy.
    + destruct (proj1 (Heq y) (or_intror Hy)) as [E|Hy']; [|assumption].
      subst y. exfalso. apply (@lt_irrefl x). auto.
    + destruct (proj2 (Heq y) (or_intror Hy)) as [E|Hy']; [|assumption].
      subst y. exfalso. apply (@lt_irrefl x). auto.
Qed.

Lemma ascending_NoDup (l : list string) : ascending l -> NoDup l.
Proof.
  unfold ascending. induction l as [|x l IH]; intros Hs; constructor.
  - apply StronglySorted_inv in Hs as [_ Hall]. rewrite Forall_forall in Hall.
    intros Hin. apply (@lt_irrefl x). auto.
  - apply IH. now apply StronglySorted_inv in Hs as [Hs _].
Qed.

Lemma sorted_set_absorb (a b : list string) :
  incl b a -> sorted_set (a ++ b) = sorted_set a.
Proof.
  intros Hincl. apply ascending_unique; try apply sorted_set_ascending.
  intros y. rewrite !in_sorted_set, in_app_iff. split; [|tauto].
  intros [H|H]; [assumption|now apply Hincl].
Qed.

Lemma sorted_set_nonempty (xs : list string) : xs <> [] -> sorted_set xs <> [].
Proof.
  destruct xs as [|x xs]; [congruence|]. intros _ H.
  assert (Hin : In x (sorted_set (x :: xs))) by (apply in_sorted_set; now left).
  rewrite H in Hin. contradiction.
Qed.

(** ** Computations that may raise *)

Lemma mapM_app (A B : Type) (f : A -> option B) (l1 l2 : list A) :
  mapM f (l1 ++ l2) =
  (x <- mapM f l1 ;; y <- mapM f l2 ;; Some (x ++ y)).
Proof.
  induction l1 as [|a l1 IH]; simpl.
  - destruct (mapM f l2); reflexivity.
  - destruct (f a); simpl; [|reflexivity]. rewrite IH.
    destruct (mapM f l1); simpl; [|reflexivity].
    destruct (mapM f l2); reflexivity.
Qed.

Lemma mapM_total (A B : Type) (f : A -> option B) (l : list A) :
  (forall a, In a l -> exists b, f a = Some b) ->
  exists bs, mapM f l = Some bs.
Proof.
  induction l as [|a l IH]; intros H; simpl.
  - now exists [].
  - destruct (H a (or_introl eq_refl)) as [b ->].
    destruct IH as [bs ->]; [intros; apply H; now right|].
    simpl. now exists (b :: bs).
Qed.

Lemma mapM_spec (A B : Type) (f : A -> option B) (l : list A) (bs : list B) :
  mapM f l = Some bs ->
  length bs = length l /\
  forall j da db, (j < length l)%nat -> f (nth j l da) = Some (nth j bs db).
Proof.
  revert bs. induction l as [|a l IH]; intros bs; simpl.
  - intros [= <-]. split; [reflexivity|]. intros; lia.
  - destruct (f a) as [b|] eqn:Ea; simpl; [|discriminate].
    destruct (mapM f l) as [bs'|]; simpl; [|discriminate].
    intros [= <-]. destruct (IH bs' eq_refl) as [Hlen Hnth].
    split; [simpl; congruence|].
    intros [|j] da db Hj; simpl; [assumption|]. apply Hnth. lia.
Qed.

Lemma mapM_in (A B : Type) (f : A -> option B) (l : list A) (bs : list B) :
  mapM f l = Some bs ->
  forall b, In b bs -> exists a, In a l /\ f a = Some b.
Proof.
  revert bs. induction l as [|a l IH]; intros bs; simpl.
  - intros [= <-] b [].
  - destruct (f a) as [b0|] eqn:Ea; simpl; [|discriminate].
    destruct (mapM f l) as [bs'|]; simpl; [|discriminate].
    intros [= <-] b [<- | Hin].
    + exists a. auto.
    + destruct (IH bs' eq_refl b Hin) as (a' & Ha' & Hf). exists a'. auto.
Qed.

Lemma nth_map_in (A B : Type) (f : A -> B) (l : list A) (db : B) (da : A) (i : nat) :
  (i < length l)%nat -> nth i (map f l) db = f (nth i l da).
Proof.
  revert i. induction l as [|a l IH]; intros [|i] Hi; simpl in *; try lia.
  - reflexivity.
  - apply IH. lia.
Qed.

Lemma dot_total (a b : Np.vec) :
  length a = length b -> exists r, Np.dot a b = Some r.
Proof.
  revert b. induction a as [|x a IH]; intros [|y b] H; simpl in *; try discriminate.
  - now exists 0.
  - destruct (IH b) as [r ->]; [congruence|]. simpl. eauto.
Qed.

(** ** The loop over batches *)

Lemma mapM_app_inv (A B : Type) (f : A -> option B) (l1 l2 : list A) (bs : list B) :
  mapM f (l1 ++ l2) = Some bs ->
  exists b1 b2, mapM f l1 = Some b1 /\ mapM f l2 = Some b2 /\ bs = b1 ++ b2.
Proof.
  rewrite mapM_app.
  destruct (mapM f l1) as [b1|]; simpl; [|discriminate].
  destruct (mapM f l2) as [b2|]; simpl; [|discriminate].
  intros [= <-]. eauto.
Qed.

Lemma slice_batch (A : Type) (xs : list A) (i step : nat) :
  slice xs i (Nat.min (i + step) (length xs)) = firstn step (skipn i xs).
Proof.
  unfold slice.
  destruct (Nat.le_gt_cases (length xs) (i + step)) as [Hend|Hend].
  - rewrite Nat.min_r by lia.
    rewrite !firstn_all2; try reflexivity; rewrite length_skipn; lia.
  - rewrite Nat.min_l by lia. f_equal. lia.
Qed.

Section Pipeline.

Variable Image : Type.
Variable image_features : Image -> Np.vec.
Variable c : classifier Image.

Lemma batch_pipeline (batch : list (sample Image)) (prs : list (string * Np.vec)) :
  mapM (predict image_features c) batch = Some prs ->
  exists idxs,
    Np.dot_T (map image_features (map (@image Image) batch)) (label_embeddings c)
      = Some (map snd prs) /\
    mapM Np.argmax (map snd prs) = Some idxs /\
    mapM (nth_error (labels c)) idxs = Some (map fst prs).
Proof.
  revert prs. induction batch as [|smp batch IH]; intros prs; simpl.
  - intros [= <-]. now exists [].
  - unfold predict at 1.
    destruct (mapM (Np.dot (image_features (image smp))) (label_embeddings c))
      as [sc|] eqn:Esc; simpl; [|discriminate].
    destruct (Np.argmax sc) as [idx|] eqn:Eidx; simpl; [|discriminate].
    destruct (nth_error (labels c) idx) as [l|] eqn:El; simpl; [|discriminate].
    destruct (mapM (predict image_features c) batch) as [prs'|]; simpl; [|discriminate].
    intros [= <-]. destruct (IH prs' eq_refl) as (idxs & H1 & H2 & H3).
    exists (idx :: idxs). unfold Np.dot_T in *. simpl.
    rewrite Esc, H1, Eidx, H2, El, H3. simpl. auto.
Qed.

Lemma evaluate_batch_spec (batch_size i : nat)
    (P L : list string) (S : Np.matrix) (prs : list (string * Np.vec)) :
  mapM (predict image_features c) (firstn batch_size (skipn i (dataset c)))
    = Some prs ->
  evaluate_batch image_features c batch_size (P, L, S) i =
  Some (P ++ map fst prs,
        L ++ map (@text Image) (firstn batch_size (skipn i (dataset c))),
        S ++ map snd prs).
Proof.
  intros H. unfold evaluate_batch. rewrite slice_batch.
  destruct (batch_pipeline _ H) as (idxs & H1 & H2 & H3).
  rewrite H1. simpl. rewrite H2. simpl. rewrite H3. reflexivity.
Qed.

Lemma for_each_batches (batch_size : nat) :
  (0 < batch_size)%nat ->
  forall fuel i P L S prs,
    (length (dataset c) - i <= fuel)%nat ->
    mapM (predict image_features c) (skipn i (dataset c)) = Some prs ->
    for_each (evaluate_batch image_features c batch_size)
      (range_from fuel i (length (dataset c)) batch_size) (P, L, S) =
    Some (P ++ map fst prs,
          L ++ map (@text Image) (skipn i (dataset c)),
          S ++ map snd prs).
Proof.
  intros Hbs. induction fuel as [|fuel IH]; intros i P L S prs Hfuel Hprs.
  - rewrite skipn_all2 in * by lia. simpl in Hprs. injection Hprs as <-.
    simpl. now rewrite !app_nil_r.
  - simpl. destruct (Nat.ltb_spec i (length (dataset c))) as [Hlt|Hge].
    + rewrite <- (firstn_skipn batch_size (skipn i (dataset c))) in Hprs.
      apply mapM_app_inv in Hprs as (p1 & p2 & Hp1 & Hp2 & ->).
      rewrite skipn_skipn in Hp2.
      cbn [for_each]. rewrite (evaluate_batch_spec _ _ P L S Hp1).
      cbn [bind].
      replace (batch_size + i)%nat with (i + batch_size)%nat in Hp2 by lia.
      rewrite (IH (i + batch_size)%nat _ _ _ p2); [|lia|exact Hp2].
      rewrite !map_app, <- !app_assoc. do 3 f_equal.
      rewrite <- map_app. f_equal.
      replace (i + batch_size)%nat with (batch_size + i)%nat by lia.
      rewrite <- skipn_skipn. now rewrite firstn_skipn.
    + rewrite skipn_all2 in * by lia. simpl in Hprs. injection Hprs as <-.
      simpl. now rewrite !app_nil_r.
Qed.

(** With a positive batch size the batch loop of [evaluate] visits the
    samples in dataset order, whatever the batch size. *)
Lemma evaluate_accumulates (batch_size : nat) (prs : list (string * Np.vec)) :
  (0 < batch_size)%nat ->
  mapM (predict image_features c) (dataset c) = Some prs ->
  evaluate image_features c batch_size =
  compute_metrics c (map fst prs, map (@text Image) (dataset c), map snd prs).
Proof.
  intros Hbs Hprs. unfold evaluate.
  destruct (Nat.eqb_spec batch_size 0) as [E|_]; [lia|].
  unfold range.
  rewrite (@for_each_batches batch_size Hbs _ 0%nat [] [] [] prs); auto.
  simpl. lia.
Qed.

End Pipeline.

(** ** Shapes after [prepare_dataset] *)

Section Shapes.

Variable Image : Type.
Variable image_features : Image -> Np.vec.
Variable text_features : string -> Np.vec.

Lemma predict_spec (D : nat) (c : classifier Image) (smp : sample Image) :
  rectangular D (label_embeddings c) ->
  length (image_features (image smp)) = D ->
  labels c <> [] ->
  length (label_embeddings c) = length (labels c) ->
  exists scores idx label,
    predict image_features c smp = Some (label, scores) /\
    mapM (Np.dot (image_features (image smp))) (label_embeddings c) = Some scores /\
    Np.argmax scores = Some idx /\
    nth_error (labels c) idx = Some label /\
    length scores = length (labels c) /\
    (idx < length scores)%nat /\
    (forall j, (j < length scores)%nat -> nth j scores 0 <= nth idx scores 0) /\
    (forall j, (j < idx)%nat -> nth j scores 0 < nth idx scores 0).
Proof.
  intros Hrect Himg Hne Hlen.
  destruct (@mapM_total _ _ (Np.dot (image_features (image smp)))
              (label_embeddings c)) as [scores Hsc].
  { intros row Hin. apply dot_total. rewrite Himg. symmetry. now apply Hrect. }
  destruct (mapM_spec _ _ Hsc) as [Hls _].
  assert (Hsne : scores <> []).
  { intros ->. simpl in Hls. rewrite Hlen in Hls.
    destruct (labels c); [congruence|discriminate]. }
  destruct (argmax_spec Hsne) as (idx & Hidx & Hlt & Hmax & Hfirst).
  destruct (nth_error (labels c) idx) as [label|] eqn:El.
  - exists scores, idx, label. unfold predict. rewrite Hsc. simpl.
    rewrite Hidx. simpl. rewrite El. simpl.
    repeat split; auto. congruence.
  - apply nth_error_None in El. lia.
Qed.

Lemma div_rows_rectangular (D : nat) (M : Np.matrix) :
  rectangular D M -> rectangular D (Np.div_rows M (Np.norm_axis0 M)).
Proof.
  intros Hrect row Hin. unfold Np.div_rows in Hin.
  apply in_map_iff in Hin as (r & <- & Hr).
  assert (Hne : M <> []) by (intros ->; contradiction).
  destruct (norm_axis0_spec Hne Hrect) as [Hlen _].
  rewrite length_zip_with, Hlen, (Hrect r Hr). lia.
Qed.

Lemma prepare_dataset_shapes (D : nat) (ds : list (sample Image)) :
  (forall s, length (text_features s) = D) ->
  let c := prepare_dataset text_features ds in
  dataset c = ds /\
  labels c = sorted_set (map (@text Image) ds) /\
  rectangular D (label_embeddings c) /\
  length (label_embeddings c) = length (labels c).
Proof.
  intros Hdim. simpl. repeat split.
  - apply div_rows_rectangular. intros row Hin.
    apply in_map_iff in Hin as (s & <- & _). apply Hdim.
  - unfold Np.div_rows. now rewrite !length_map.
Qed.

End Shapes.

(** ** Dictionaries *)

Lemma get_set_same (V : Type) (d : Dict.t V) (k : string) (v : V) :
  Dict.get (Dict.set d k v) k = Some v.
Proof.
  induction d as [|[k' v'] d IH]; simpl.
  - now rewrite String.eqb_refl.
  - destruct (String.eqb k k') eqn:E; simpl.
    + now rewrite String.eqb_refl.
    + now rewrite E.
Qed.

Lemma get_set_other (V : Type) (d : Dict.t V) (k k' : string) (v : V) :
  k <> k' -> Dict.get (Dict.set d k' v) k = Dict.get d k.
Proof.
  intros Hne. induction d as [|[k0 v0] d IH]; simpl.
  - apply String.eqb_neq in Hne. now rewrite Hne.
  - destruct (String.eqb k' k0) eqn:E; simpl.
    + apply String.eqb_eq in E. subst k0.
      apply String.eqb_neq in Hne. now rewrite Hne.
    + destruct (String.eqb k k0); [reflexivity|exact IH].
Qed.

Lemma get_fold_set_absent (V : Type) (ps : list (string * V)) (d : Dict.t V)
    (k : string) :
  ~ In k (map fst ps) ->
  Dict.get (fold_left (fun d kv => Dict.set d (fst kv) (snd kv)) ps d) k
  = Dict.get d k.
Proof.
  revert d. induction ps as [|[k0 v0] ps IH]; intros d Hnin; simpl; [reflexivity|].
  rewrite IH by (intros H; apply Hnin; now right).
  apply get_set_other. intros ->. apply Hnin. now left.
Qed.

Lemma get_of_list (V : Type) (ps : list (string * V)) (k : string) (v : V) :
  NoDup (map fst ps) -> In (k, v) ps -> Dict.get (Dict.of_list ps) k = Some v.
Proof.
  unfold Dict.of_list. generalize (@nil (string * V)) as d.
  induction ps as [|[k0 v0] ps IH]; intros d Hnd Hin; simpl in *; [contradiction|].
  inversion Hnd as [|? ? Hnin Hnd']; subst.
  destruct Hin as [[= -> ->]|Hin].
  - rewrite get_fold_set_absent by assumption. apply get_set_same.
  - now apply IH.
Qed.

Lemma combine_map_r (A B : Type) (f : A -> B) (l : list A) :
  combine l (map f l) = map (fun x => (x, f x)) l.
Proof. induction l as [|a l IH]; simpl; congruence. Qed.

(** ** The classification report *)

Lemma agreeing_in (y_true y_pred : list string) (x : string) :
  In x (Sklearn.agreeing y_true y_pred) -> In x y_true /\ In x y_pred.
Proof.
  unfold Sklearn.agreeing. intros H.
  apply in_map_iff in H as ([a b] & <- & H).
  apply filter_In in H as [H E]. simpl in *.
  apply String.eqb_eq in E. subst b.
  split; [eapply in_combine_l|eapply in_combine_r]; eassumption.
Qed.

Lemma tp_sum_never_predicted (y_true y_pred : list string) (l : string) :
  ~ In l y_pred -> Sklearn.tp_sum y_true y_pred l = 0%nat.
Proof.
  intros Hnin. unfold Sklearn.tp_sum, Sklearn.count.
  apply count_occ_not_In. intros H. apply agreeing_in in H. tauto.
Qed.

Lemma prf_divide_zero (den : nat) : (Sklearn.prf_divide 0 den == 0)%Q.
Proof.
  unfold Sklearn.prf_divide. destruct (Nat.eqb den 0); [reflexivity|].
  unfold of_nat. simpl. unfold Qdiv. apply Qmult_0_l.
Qed.

Lemma class_scores_never_predicted (y_true y_pred : list string) (l : string) :
  ~ In l y_pred ->
  let row := Sklearn.class_scores y_true y_pred l in
  (Sklearn.precision row == 0 /\ Sklearn.recall row == 0 /\
   Sklearn.f1 row == 0)%Q.
Proof.
  intros Hnin. simpl. rewrite (@tp_sum_never_predicted y_true _ _ Hnin).
  repeat split; apply prf_divide_zero.
Qed.

Lemma classification_report_rows (y_true y_pred names : list string) :
  Sklearn.unique_labels y_true y_pred = names ->
  exists report,
    Sklearn.classification_report y_true y_pred names = Some report /\
    forall l, In l names -> ~ In l reserved_keys ->
      Dict.get report l = Some (Sklearn.Row (Sklearn.class_scores y_true y_pred l)).
Proof.
  intros Hul. unfold Sklearn.classification_report. rewrite Hul.
  rewrite Nat.eqb_refl. simpl negb. cbv iota.
  unfold Sklearn.per_class. rewrite combine_map_r, map_map. simpl.
  set (d0 := Dict.of_list _).
  assert (Hd0 : forall l, In l names ->
            Dict.get d0 l = Some (Sklearn.Row (Sklearn.class_scores y_true y_pred l))).
  { intros l Hl. apply get_of_list.
    - rewrite map_map. simpl. rewrite map_id. rewrite <- Hul.
      apply ascending_NoDup, sorted_set_ascending.
    - apply in_map_iff. now exists l. }
  set (r1 := Sklearn.Row (Sklearn.micro_avg _ _ _)).
  set (r2 := Sklearn.Row (Sklearn.macro_avg _)).
  set (r3 := Sklearn.Row (Sklearn.weighted_avg _)).
  assert (Hacc : Dict.get
                   (Dict.set (Dict.set (Dict.set d0 "accuracy" r1) "macro avg" r2)
                      "weighted avg" r3) "accuracy"%string = Some r1).
  { rewrite !get_set_other by discriminate. apply get_set_same. }
  rewrite Hacc. subst r1. cbv iota beta.
  eexists. split; [reflexivity|].
  intros l Hl Hres. unfold reserved_keys in Hres. simpl in Hres.
  rewrite !get_set_other; [now apply Hd0| | | |]; intros ->; tauto.
Qed.

(** ** A full evaluation run *)

Lemma argmax_bound (s : Np.vec) (i : nat) :
  Np.argmax s = Some i ->
  (i < length s)%nat /\
  (forall j, (j < length s)%nat -> nth j s 0 <= nth i s 0) /\
  (forall j, (j < i)%nat -> nth j s 0 < nth i s 0).
Proof.
  intros H. assert (Hne : s <> []) by (intros ->; discriminate).
  destruct (argmax_spec Hne) as (i' & Hi' & Hprops).
  rewrite H in Hi'. injection Hi' as <-. exact Hprops.
Qed.

Section Evaluation.

Variable Image : Type.
Variable image_features : Image -> Np.vec.
Variable text_features : string -> Np.vec.
Variable D : nat.
Variable ds : list (sample Image).
Hypothesis text_dim : forall s, length (text_features s) = D.
Hypothesis image_dim :
  forall smp, In smp ds -> length (image_features (image smp)) = D.
Hypothesis nonempty : ds <> [].

Let c := prepare_dataset text_features ds.

Lemma predict_prepared (smp : sample Image) :
  In smp ds ->
  exists scores idx label,
    predict image_features c smp = Some (label, scores) /\
    mapM (Np.dot (image_features (image smp))) (label_embeddings c) = Some scores /\
    Np.argmax scores = Some idx /\
    nth_error (labels c) idx = Some label /\
    length scores = length (labels c) /\
    (idx < length scores)%nat /\
    (forall j, (j < length scores)%nat -> nth j scores 0 <= nth idx scores 0) /\
    (forall j, (j < idx)%nat -> nth j scores 0 < nth idx scores 0).
Proof.
  intros Hin.
  destruct (@prepare_dataset_shapes Image text_features D ds text_dim)
    as (_ & Hlab & Hrect & Hlen).
  apply (@predict_spec Image image_features D c smp); auto.
  fold c in Hlab. rewrite Hlab. apply sorted_set_nonempty.
  destruct ds; [congruence|discriminate].
Qed.

Lemma predictions_prepared :
  exists prs,
    mapM (predict image_features c) ds = Some prs /\
    length prs = length ds /\
    incl (map fst prs) (map (@text Image) ds).
Proof.
  destruct (@mapM_total _ _ (predict image_features c) ds) as [prs Hprs].
  { intros smp Hin. destruct (predict_prepared smp Hin)
      as (scores & idx & label & H & _). eauto. }
  exists prs. split; [assumption|].
  destruct (mapM_spec _ _ Hprs) as [Hlen Hnth]. split; [assumption|].
  intros l Hl. apply in_map_iff in Hl as ([l' sc] & <- & Hin). simpl.
  destruct (mapM_in _ _ Hprs _ Hin) as (smp & Hsmp_in & Hsmp).
  destruct (predict_prepared smp Hsmp_in)
    as (scores & idx & label & H & _ & _ & El & _).
  rewrite H in Hsmp. injection Hsmp as -> _.
  apply nth_error_In in El. unfold c in El. simpl labels in El.
  exact (proj1 (in_sorted_set _ _) El).
Qed.

Lemma prediction_at (prs : list (string * Np.vec)) (k : nat) (smp : sample Image) :
  mapM (predict image_features c) ds = Some prs ->
  nth_error ds k = Some smp ->
  exists label scores,
    nth_error prs k = Some (label, scores) /\
    predict image_features c smp = Some (label, scores).
Proof.
  intros Hprs Hk. destruct (mapM_spec _ _ Hprs) as [Hlen Hnth].
  assert (Hlt : (k < length ds)%nat) by (apply nth_error_Some; congruence).
  specialize (Hnth k smp (EmptyString, []) Hlt).
  rewrite (nth_error_nth _ _ smp Hk) in Hnth.
  destruct (nth k prs (EmptyString, [])) as [label scores] eqn:E.
  exists label, scores. split; [|assumption].
  rewrite <- E. apply nth_error_nth'. lia.
Qed.

Lemma evaluate_prepared (batch_size : nat) :
  (0 < batch_size)%nat ->
  exists prs report,
    mapM (predict image_features c) ds = Some prs /\
    incl (map fst prs) (map (@text Image) ds) /\
    Sklearn.classification_report (map (@text Image) ds) (map fst prs) (labels c)
      = Some report /\
    (forall l, In l (labels c) -> ~ In l reserved_keys ->
       Dict.get report l =
       Some (Sklearn.Row
               (Sklearn.class_scores (map (@text Image) ds) (map fst prs) l))) /\
    evaluate image_features c batch_size =
    Some {| eval_metrics :=
              let prf := Sklearn.precision_recall_fscore_support_weighted
                           (map (@text Image) ds) (map fst prs) in
              {| accuracy := mean_bool
                               (equal_elementwise (map fst prs) (map (@text Image) ds));
                 precision := fst (fst prf);
                 recall := snd (fst prf);
                 f1_score := snd prf |};
            detailed_report := report;
            predictions := map fst prs;
            true_labels := map (@text Image) ds;
            raw_scores := map snd prs |}.
Proof.
  intros Hbs.
  destruct predictions_prepared as (prs & Hprs & _ & Hincl).
  destruct (@classification_report_rows (map (@text Image) ds) (map fst prs) (labels c))
    as (report & Hrep & Hrows).
  { unfold Sklearn.unique_labels. now rewrite sorted_set_absorb. }
  exists prs, report. repeat split; try assumption.
  rewrite (@evaluate_accumulates Image image_features c batch_size prs Hbs Hprs).
  unfold compute_metrics. simpl dataset.
  destruct (Sklearn.precision_recall_fscore_support_weighted _ _) as [[p r] f].
  rewrite Hrep. reflexivity.
Qed.

End Evaluation.

Lemma infer_sample_spec (Image : Type) (image_features : Image -> Np.vec)
    (c : classifier Image) (k : nat) (smp : sample Image)
    (scores : Np.vec) (label : string) :
  nth_error (dataset c) k = Some smp ->
  predict image_features c smp = Some (label, scores) ->
  exists p i,
    mapM (Np.dot (image_features (image smp))) (label_embeddings c) = Some scores /\
    softmax scores = Some p /\
    Np.argmax scores = Some i /\
    Np.argmax p = Some i /\
    nth_error (labels c) i = Some label /\
    infer_sample image_features c k =
    Some {| index := k;
            true_label := text smp;
            predicted_label := label;
            confidence := nth i p 0;
            all_scores := Dict.of_list (combine (labels c) p) |}.
Proof.
  intros Hk Hp. unfold predict in Hp.
  destruct (mapM _ (label_embeddings c)) as [sc|] eqn:Esc; simpl in Hp; [|discriminate].
  destruct (Np.argmax sc) as [i|] eqn:Ei; simpl in Hp; [|discriminate].
  destruct (nth_error (labels c) i) as [l|] eqn:El; simpl in Hp; [|discriminate].
  injection Hp as -> ->.
  assert (Hne : scores <> []) by (intros ->; discriminate).
  destruct (argmax_softmax Hne) as (p & i' & Hsm & Hap & Has).
  rewrite Ei in Has. injection Has as <-.
  exists p, i. repeat split; try assumption.
  unfold infer_sample, Np.dot_T. rewrite Hk. cbn [bind mapM].
  rewrite Esc. cbn [bind nth_error]. rewrite Ei. cbn [bind].
  rewrite Hsm. cbn [bind]. rewrite El. cbn [bind].
  destruct (argmax_bound _ Hap) as [Hlt _].
  rewrite (nth_error_nth' p 0 Hlt). reflexivity.
Qed.

(** ** The two-image scenario *)

Lemma argmax_pair (a b : R) :
  Np.argmax [a; b] = Some (if Rlt_dec a b then 1%nat else 0%nat).
Proof. unfold Np.argmax. simpl. now destruct (Rlt_dec a b). Qed.

Lemma two_cat_like_labels :
  labels (prepare_dataset cat_dog_features two_cat_like_images)
  = ["cat"; "dog"]%string.
Proof. reflexivity. Qed.

Lemma two_cat_like_embeddings :
  label_embeddings (prepare_dataset cat_dog_features two_cat_like_images)
  = [[1; 0]; [0; 1]].
Proof.
  change (label_embeddings (prepare_dataset cat_dog_features two_cat_like_images))
    with (Np.div_rows [[1; 0]; [0; 1]] (Np.norm_axis0 [[1; 0]; [0; 1]])).
  unfold Np.div_rows, Np.norm_axis0. simpl.
  replace (1 * 1 + 0 * 0) with 1 by lra.
  replace (0 * 0 + 1 * 1) with 1 by lra.
  rewrite sqrt_1.
  replace (1 / 1) with 1 by lra. replace (0 / 1) with 0 by lra.
  reflexivity.
Qed.

Lemma two_cat_like_predictions :
  mapM (predict (fun v => v)
          (prepare_dataset cat_dog_features two_cat_like_images))
       two_cat_like_images
  = Some [("cat"%string, [1 * 1 + (0 * 0 + 0); 1 * 0 + (0 * 1 + 0)]);
          ("cat"%string, [1 * 1 + (0 * 0 + 0); 1 * 0 + (0 * 1 + 0)])].
Proof.
  assert (H : forall l,
             predict (fun v => v)
               (prepare_dataset cat_dog_features two_cat_like_images)
               {| image := [1; 0]; text := l |}
             = Some ("cat"%string, [1 * 1 + (0 * 0 + 0); 1 * 0 + (0 * 1 + 0)])).
  { intros l. unfold predict.
    rewrite two_cat_like_embeddings, two_cat_like_labels. simpl image.
    cbn [mapM Np.dot bind]. rewrite argmax_pair.
    destruct (Rlt_dec _ _) as [Hlt|_]; [exfalso; lra|reflexivity]. }
  unfold two_cat_like_images. cbn [mapM]. rewrite !H. reflexivity.
Qed.

Lemma cat_dog_features_dim (s : string) : length (cat_dog_features s) = 2%nat.
Proof. unfold cat_dog_features. now destruct (String.eqb s _). Qed.

Lemma two_cat_like_images_dim (smp : sample Np.vec) :
  In smp two_cat_like_images -> length (image smp) = 2%nat.
Proof. intros [<- | [<- | []]]; reflexivity. Qed.

Lemma cat_and_dog_labels :
  labels (prepare_dataset cat_dog_features cat_and_dog_images)
  = ["cat"; "dog"]%string.
Proof. reflexivity. Qed.

Lemma cat_and_dog_embeddings :
  label_embeddings (prepare_dataset cat_dog_features cat_and_dog_images)
  = [[1; 0]; [0; 1]].
Proof. exact two_cat_like_embeddings. Qed.

Lemma cat_and_dog_predictions :
  mapM (predict (fun v => v)
          (prepare_dataset cat_dog_features cat_and_dog_images))
       cat_and_dog_images
  = Some [("cat"%string, [2 * 1 + (0 * 0 + 0); 2 * 0 + (0 * 1 + 0)]);
          ("dog"%string, [0 * 1 + (3 * 0 + 0); 0 * 0 + (3 * 1 + 0)])].
Proof.
  assert (Hcat : forall l,
             predict (fun v => v)
               (prepare_dataset cat_dog_features cat_and_dog_images)
               {| image := [2; 0]; text := l |}
             = Some ("cat"%string, [2 * 1 + (0 * 0 + 0); 2 * 0 + (0 * 1 + 0)])).
  { intros l. unfold predict.
    rewrite cat_and_dog_embeddings, cat_and_dog_labels. simpl image.
    cbn [mapM Np.dot bind]. rewrite argmax_pair.
    destruct (Rlt_dec _ _) as [Hlt|_]; [exfalso; lra|reflexivity]. }
  assert (Hdog : forall l,
             predict (fun v => v)
               (prepare_dataset cat_dog_features cat_and_dog_images)
               {| image := [0; 3]; text := l |}
             = Some ("dog"%string, [0 * 1 + (3 * 0 + 0); 0 * 0 + (3 * 1 + 0)])).
  { intros l. unfold predict.
    rewrite cat_and_dog_embeddings, cat_and_dog_labels. simpl image.
    cbn [mapM Np.dot bind]. rewrite argmax_pair.
    destruct (Rlt_dec _ _) as [_|Hge]; [reflexivity|exfalso; lra]. }
  unfold cat_and_dog_images. cbn [mapM]. rewrite Hcat, Hdog. reflexivity.
Qed.

Lemma cat_and_dog_images_dim (smp : sample Np.vec) :
  In smp cat_and_dog_images -> length (image smp) = 2%nat.
Proof. intros [<- | [<- | []]]; reflexivity. Qed.

(** ** Softmax and the batches of [evaluate]: claim C3 *)

(** C3, as stated, fails: [evaluate] applies no softmax to the scores
    of a batch.  In the run over a cat image and a dog image in one
    batch, the rows that it keeps for the two images are the raw inner
    products [2, 0] and [0, 3], which add up to 2 and to 3, not to 1. *)
Lemma evaluate_batches_are_not_softmaxed :
  ~ (forall (Image : Type) (image_features : Image -> Np.vec)
            (text_features : string -> Np.vec) (ds : list (sample Image))
            (batch_size : nat) (ev : evaluation),
        evaluate image_features (prepare_dataset text_features ds) batch_size
          = Some ev ->
        forall row, In row (raw_scores ev) -> Np.sum row = 1).
Proof.
  intros H.
  destruct (@evaluate_prepared Np.vec (fun v => v) cat_dog_features 2
              cat_and_dog_images cat_dog_features_dim cat_and_dog_images_dim
              ltac:(discriminate) 32 ltac:(lia))
    as (prs & report & Hprs & _ & _ & _ & Hev).
  rewrite cat_and_dog_predictions in Hprs. injection Hprs as <-.
  specialize (H _ _ _ _ _ _ Hev [2 * 1 + (0 * 0 + 0); 2 * 0 + (0 * 1 + 0)]).
  cbn [raw_scores map snd] in H.
  assert (E : Np.sum [2 * 1 + (0 * 0 + 0); 2 * 0 + (0 * 1 + 0)] = 1)
    by (apply H; now left).
  cbn [Np.sum fold_right] in E. lra.
Qed.

(** ** The per-class report: claim C1 *)

(** C1, as stated, fails: in the run over two images that are both
    predicted [cat], one of them labelled [dog], the vocabulary label
    [dog] never occurs among the predictions, yet its row of the report
    has support 1, not 0. *)
Lemma unpredicted_label_keeps_support :
  ~ (forall (Image : Type) (image_features : Image -> Np.vec)
            (text_features : string -> Np.vec) (ds : list (sample Image))
            (batch_size : nat) (ev : evaluation) (l : string),
        evaluate image_features (prepare_dataset text_features ds) batch_size
          = Some ev ->
        In l (labels (prepare_dataset text_features ds)) ->
        ~ In l (true_labels ev) \/ ~ In l (predictions ev) ->
        exists row,
          Dict.get (detailed_report ev) l = Some (Sklearn.Row row) /\
          (Sklearn.support row == 0 /\ Sklearn.precision row == 0 /\
           Sklearn.recall row == 0 /\ Sklearn.f1 row == 0)%Q).
Proof.
  intros H.
  destruct (@evaluate_prepared Np.vec (fun v => v) cat_dog_features 2
              two_cat_like_images cat_dog_features_dim two_cat_like_images_dim
              ltac:(discriminate) 32 ltac:(lia))
    as (prs & report & Hprs & _ & _ & Hrows & Hev).
  rewrite two_cat_like_predictions in Hprs. injection Hprs as <-.
  destruct (H _ _ _ _ _ _ "dog"%string Hev) as (row & Hget & Hsup & _).
  - rewrite two_cat_like_labels. right. now left.
  - right. simpl. intros [E | [E | []]]; discriminate.
  - simpl detailed_report in Hget. rewrite Hrows in Hget.
    + injection Hget as <-. vm_compute in Hsup. discriminate.
    + rewrite two_cat_like_labels. right. now left.
    + unfold reserved_keys. simpl. intros [E | [E | [E | []]]]; discriminate.
Qed.

(** C1, amended: an evaluation run over a non-empty dataset with a
    positive batch size returns, and its report holds a row for every
    vocabulary label (other than the three summary keys of the report).
    Every vocabulary label occurs among the accumulated true labels, so
    the support of its row is its positive number of true instances.  A
    label that never occurs among the accumulated predictions has
    precision, recall and F1 equal to 0 and so adds nothing to the
    support-weighted sums. *)
Theorem report_row_for_every_label
    (Image : Type) (image_features : Image -> Np.vec)
    (text_features : string -> Np.vec) (D : nat)
    (ds : list (sample Image)) (batch_size : nat) :
  (forall s, length (text_features s) = D) ->
  (forall smp, In smp ds -> length (image_features (image smp)) = D) ->
  ds <> [] ->
  (0 < batch_size)%nat ->
  exists ev,
    evaluate image_features (prepare_dataset text_features ds) batch_size = Some ev /\
    true_labels ev = map (@text Image) ds /\
    forall l,
      In l (labels (prepare_dataset text_features ds)) ->
      ~ In l reserved_keys ->
      exists row,
        Dict.get (detailed_report ev) l = Some (Sklearn.Row row) /\
        Sklearn.support row = of_nat (Sklearn.count l (true_labels ev)) /\
        (1 <= Sklearn.count l (true_labels ev))%nat /\
        (~ In l (predictions ev) ->
         (Sklearn.precision row == 0 /\ Sklearn.recall row == 0 /\
          Sklearn.f1 row == 0 /\
          Sklearn.support row * Sklearn.precision row == 0 /\
          Sklearn.support row * Sklearn.recall row == 0 /\
          Sklearn.support row * Sklearn.f1 row == 0)%Q).
Proof.
  intros Htext Himg Hne Hbs.
  destruct (@evaluate_prepared Image image_features text_features D ds
              Htext Himg Hne batch_size Hbs)
    as (prs & report & Hprs & Hincl & _ & Hrows & Hev).
  eexists. split; [exact Hev|]. split; [reflexivity|].
  intros l Hl Hres. eexists. split; [apply (Hrows l Hl Hres)|].
  simpl true_labels. simpl predictions. split; [reflexivity|]. split.
  - unfold Sklearn.count. apply count_occ_In.
    simpl labels in Hl. exact (proj1 (in_sorted_set _ _) Hl).
  - intros Hnp.
    destruct (@class_scores_never_predicted (map (@text Image) ds) _ _ Hnp)
      as (Hp & Hr & Hf).
    repeat split; try assumption.
    + rewrite Hp. apply Qmult_0_r.
    + rewrite Hr. apply Qmult_0_r.
    + rewrite Hf. apply Qmult_0_r.
Qed.

Lemma report_row_for_every_label_witness :
  exists ev,
    evaluate (fun v => v) (prepare_dataset cat_dog_features two_cat_like_images) 32
      = Some ev /\
    true_labels ev = map (@text Np.vec) two_cat_like_images /\
    forall l,
      In l (labels (prepare_dataset cat_dog_features two_cat_like_images)) ->
      ~ In l reserved_keys ->
      exists row,
        Dict.get (detailed_report ev) l = Some (Sklearn.Row row) /\
        Sklearn.support row = of_nat (Sklearn.count l (true_labels ev)) /\
        (1 <= Sklearn.count l (true_labels ev))%nat /\
        (~ In l (predictions ev) ->
         (Sklearn.precision row == 0 /\ Sklearn.recall row == 0 /\
          Sklearn.f1 row == 0 /\
          Sklearn.support row * Sklearn.precision row == 0 /\
          Sklearn.support row * Sklearn.recall row == 0 /\
          Sklearn.support row * Sklearn.f1 row == 0)%Q).
Proof.
  apply (@report_row_for_every_label Np.vec (fun v => v) cat_dog_features 2
           two_cat_like_images 32).
  - exact cat_dog_features_dim.
  - exact two_cat_like_images_dim.
  - discriminate.
  - lia.
Defined.

(** ** Normalisation axis: claim C2 *)

(** C2: after [prepare_dataset], entry [(i, j)] of the label embedding
    matrix is the raw text-encoder entry [(i, j)] divided by the norm of
    column [j] taken across all the labels; this is not the per-row L2
    normalisation, as the matrix [[3, 0], [4, 1]] shows. *)
Theorem label_embeddings_divided_by_column_norm :
  Np.div_rows [[3; 0]; [4; 1]] (Np.norm_axis0 [[3; 0]; [4; 1]])
    <> per_row_l2_normalize [[3; 0]; [4; 1]] /\
  forall (Image : Type) (text_features : string -> Np.vec)
         (ds : list (sample Image)) (D i j : nat),
    (forall s, length (text_features s) = D) ->
    let c := prepare_dataset text_features ds in
    let raw := map text_features (map clip_label (labels c)) in
    (i < length (labels c))%nat -> (j < D)%nat ->
    nth j (nth i (label_embeddings c) []) 0
    = nth j (nth i raw []) 0 / column_norm raw j.
Proof.
  split.
  - intros H.
    apply (f_equal (fun M => nth 0 (nth 0 M []) 0)) in H.
    unfold Np.div_rows, Np.norm_axis0, per_row_l2_normalize in H. simpl in H.
    replace (3 * 3 + 4 * 4) with (5 * 5) in H by lra.
    replace (3 * 3 + (0 * 0 + 0)) with (3 * 3) in H by lra.
    rewrite !sqrt_square in H by lra. lra.
  - intros Image text_features ds D i j Hdim c raw Hi Hj.
    apply (@div_rows_entry D raw i j).
    + intros row Hin. apply in_map_iff in Hin as (s & <- & _). apply Hdim.
    + unfold raw. now rewrite !length_map.
    + assumption.
Qed.

Lemma label_embeddings_divided_by_column_norm_witness :
  let c := prepare_dataset cat_dog_features two_cat_like_images in
  let raw := map cat_dog_features (map clip_label (labels c)) in
  nth 1 (nth 1 (label_embeddings c) []) 0
  = nth 1 (nth 1 raw []) 0 / column_norm raw 1.
Proof.
  apply (proj2 label_embeddings_divided_by_column_norm
           Np.vec cat_dog_features two_cat_like_images 2%nat 1%nat 1%nat).
  - intros s. unfold cat_dog_features. now destruct (String.eqb s _).
  - vm_compute. lia.
  - lia.
Defined.

(** ** Row order of the label embeddings: claim C6 *)

(** C6: when no coordinate of the raw label embeddings is zero for all
    the labels at once, after [prepare_dataset] the label embedding
    matrix has one row per vocabulary entry, and row [i] is the text
    embedding of the prompt ["a photo of a "] followed by the [i]-th
    vocabulary entry, divided by the column norms.
    [inference_on_samples] and [evaluate] only read the vocabulary and
    the matrix: for every sample, both index the vocabulary with the
    arg-max [i] of the sample's score vector, whose [j]-th entry is the
    inner product of the image embedding with row [j], so the predicted
    label is the one whose embedding has the highest similarity. *)
Theorem label_rows_aligned_with_vocabulary
    (Image : Type) (image_features : Image -> Np.vec)
    (text_features : string -> Np.vec) (D : nat)
    (ds : list (sample Image)) (batch_size : nat) :
  (forall s, length (text_features s) = D) ->
  (forall smp, In smp ds -> length (image_features (image smp)) = D) ->
  ds <> [] ->
  (0 < batch_size)%nat ->
  let c := prepare_dataset text_features ds in
  let raw :=
    map (fun l => text_features ("a photo of a " ++ l)%string) (labels c) in
  (forall j, (j < D)%nat -> column_norm raw j <> 0) ->
  length (label_embeddings c) = length (labels c) /\
  (forall i, (i < length (labels c))%nat ->
     nth i (label_embeddings c) [] =
     Np.zip_with Rdiv
       (text_features ("a photo of a " ++ nth i (labels c) EmptyString)%string)
       (Np.norm_axis0 raw)) /\
  exists ev,
    evaluate image_features c batch_size = Some ev /\
    forall k smp, nth_error ds k = Some smp ->
      exists scores i label r,
        mapM (Np.dot (image_features (image smp))) (label_embeddings c)
          = Some scores /\
        (forall j, (j < length (labels c))%nat ->
           Np.dot (image_features (image smp)) (nth j (label_embeddings c) [])
             = Some (nth j scores 0) /\
           nth j scores 0 <= nth i scores 0) /\
        Np.argmax scores = Some i /\
        nth_error (labels c) i = Some label /\
        nth_error (predictions ev) k = Some label /\
        nth_error (raw_scores ev) k = Some scores /\
        infer_sample image_features c k = Some r /\
        predicted_label r = label.
Proof.
  intros Htext Himg Hne Hbs c raw _.
  destruct (@prepare_dataset_shapes Image text_features D ds Htext)
    as (_ & _ & Hrect & Hlen).
  fold c in Hrect, Hlen.
  split; [exact Hlen|]. split.
  - intros i Hi.
    assert (E : label_embeddings c = Np.div_rows raw (Np.norm_axis0 raw)).
    { unfold raw, c, prepare_dataset. simpl label_embeddings. simpl labels.
      now rewrite map_map. }
    rewrite E. unfold Np.div_rows.
    rewrite (@nth_map_in _ _ (fun row => Np.zip_with Rdiv row (Np.norm_axis0 raw))
               raw [] [] i)
      by (unfold raw; rewrite length_map; exact Hi).
    f_equal.
    apply (@nth_map_in _ _ (fun l => text_features ("a photo of a " ++ l)%string)
             _ [] EmptyString i Hi).
  - destruct (@evaluate_prepared Image image_features text_features D ds
                Htext Himg Hne batch_size Hbs)
      as (prs & report & Hprs & _ & _ & _ & Hev).
    fold c in Hprs, Hev.
    eexists. split; [exact Hev|].
    intros k smp Hk.
    destruct (@prediction_at Image image_features text_features ds prs k smp
                Hprs Hk) as (label & scores & Hnth & Hpred).
    fold c in Hpred.
    destruct (@infer_sample_spec Image image_features c k smp scores label Hk Hpred)
      as (p & i & Hsc & _ & Hi & _ & Hl & Hinf).
    destruct (argmax_bound _ Hi) as (Hlt & Hmax & _).
    destruct (mapM_spec _ _ Hsc) as [Hls Hrow].
    exists scores, i, label. eexists.
    split; [exact Hsc|]. split.
    { intros j Hj. split.
      - apply Hrow. lia.
      - apply Hmax. lia. }
    split; [exact Hi|]. split; [exact Hl|].
    simpl predictions. simpl raw_scores. split.
    { rewrite nth_error_map, Hnth. reflexivity. } split.
    { rewrite nth_error_map, Hnth. reflexivity. }
    split; [exact Hinf|reflexivity].
Qed.

Lemma cat_dog_columns_nonzero (j : nat) :
  (j < 2)%nat -> column_norm [[1; 0]; [0; 1]] j <> 0.
Proof.
  intros Hj. unfold column_norm, column.
  destruct j as [|[|j]]; [| |lia]; cbn [map nth Np.sum fold_right].
  - replace (1 * 1 + (0 * 0 + 0)) with 1 by lra. rewrite sqrt_1. lra.
  - replace (0 * 0 + (1 * 1 + 0)) with 1 by lra. rewrite sqrt_1. lra.
Qed.

Lemma label_rows_aligned_with_vocabulary_witness :
  let c := prepare_dataset cat_dog_features two_cat_like_images in
  let raw :=
    map (fun l => cat_dog_features ("a photo of a " ++ l)%string) (labels c) in
  length (label_embeddings c) = length (labels c) /\
  (forall i, (i < length (labels c))%nat ->
     nth i (label_embeddings c) [] =
     Np.zip_with Rdiv
       (cat_dog_features ("a photo of a " ++ nth i (labels c) EmptyString)%string)
       (Np.norm_axis0 raw)) /\
  exists ev,
    evaluate (fun v => v) c 32 = Some ev /\
    forall k smp, nth_error two_cat_like_images k = Some smp ->
      exists scores i label r,
        mapM (Np.dot (image smp)) (label_embeddings c) = Some scores /\
        (forall j, (j < length (labels c))%nat ->
           Np.dot (image smp) (nth j (label_embeddings c) [])
             = Some (nth j scores 0) /\
           nth j scores 0 <= nth i scores 0) /\
        Np.argmax scores = Some i /\
        nth_error (labels c) i = Some label /\
        nth_error (predictions ev) k = Some label /\
        nth_error (raw_scores ev) k = Some scores /\
        infer_sample (fun v => v) c k = Some r /\
        predicted_label r = label.
Proof.
  apply (@label_rows_aligned_with_vocabulary Np.vec (fun v => v) cat_dog_features
           2 two_cat_like_images 32).
  - intros s. unfold cat_dog_features. now destruct (String.eqb s _).
  - intros smp [<- | [<- | []]]; reflexivity.
  - discriminate.
  - lia.
  - exact cat_dog_columns_nonzero.
Defined.

(** ** The end-to-end scoring scenario: claim C9 *)

Lemma exp_minus_08_bounds : 0.4401 <= exp (-0.8) <= 0.45823.
Proof.
  pose proof (exp_ineq1_le (-0.05)) as L1.
  pose proof (exp_ineq1_le 0.05) as U1.
  assert (E1 : exp (-0.05) * exp 0.05 = 1).
  { rewrite <- exp_plus. replace (-0.05 + 0.05) with 0 by lra. apply exp_0. }
  pose proof (exp_pos (-0.05)) as P1.
  assert (B1 : 0.95 <= exp (-0.05) <= 0.95239) by nra.
  assert (E2 : exp (-0.1) = exp (-0.05) * exp (-0.05)).
  { rewrite <- exp_plus. f_equal. lra. }
  assert (B2 : 0.9025 <= exp (-0.1) <= 0.90705) by nra.
  assert (E4 : exp (-0.2) = exp (-0.1) * exp (-0.1)).
  { rewrite <- exp_plus. f_equal. lra. }
  assert (B4 : 0.8145 <= exp (-0.2) <= 0.82275) by nra.
  assert (E8 : exp (-0.4) = exp (-0.2) * exp (-0.2)).
  { rewrite <- exp_plus. f_equal. lra. }
  assert (B8 : 0.6634 <= exp (-0.4) <= 0.67692) by nra.
  assert (E16 : exp (-0.8) = exp (-0.4) * exp (-0.4)).
  { rewrite <- exp_plus. f_equal. lra. }
  nra.
Qed.

Lemma cat_dog_scores :
  mapM (Np.dot [0.9; 0.1]) [[1; 0]; [0; 1]] = Some [0.9; 0.1].
Proof.
  cbn [mapM Np.dot bind].
  replace (0.9 * 1 + (0.1 * 0 + 0)) with 0.9 by lra.
  replace (0.9 * 0 + (0.1 * 1 + 0)) with 0.1 by lra.
  reflexivity.
Qed.

Lemma cat_dog_softmax :
  softmax [0.9; 0.1] =
  Some [1 / (1 + (exp (-0.8) + 0)); exp (-0.8) / (1 + (exp (-0.8) + 0))].
Proof.
  unfold softmax. cbn [Np.max fold_left bind map Np.sum fold_right].
  rewrite Rmax_left by lra.
  replace (0.9 - 0.9) with 0 by lra. replace (0.1 - 0.9) with (-0.8) by lra.
  rewrite exp_0. reflexivity.
Qed.

(** C9: with vocabulary [cat], [dog], label embeddings [[1, 0], [0, 1]]
    and image embedding [[0.9, 0.1]], the raw scores are [[0.9, 0.1]],
    the softmax probabilities are [[0.69, 0.31]] to two decimals, the
    predicted label is [cat] and its confidence is the first
    probability. *)
Theorem cat_dog_end_to_end :
  Np.dot_T [[0.9; 0.1]] (label_embeddings cat_dog_classifier)
    = Some [[0.9; 0.1]] /\
  exists p0 p1 r,
    softmax [0.9; 0.1] = Some [p0; p1] /\
    Rabs (p0 - 0.69) < 0.005 /\
    Rabs (p1 - 0.31) < 0.005 /\
    inference_on_samples (fun v => v) cat_dog_classifier [0%nat] = Some [r] /\
    predicted_label r = "cat"%string /\
    confidence r = p0 /\
    all_scores r = [("cat"%string, p0); ("dog"%string, p1)].
Proof.
  pose proof exp_minus_08_bounds as Hx.
  set (x := exp (-0.8)) in *.
  assert (Hpred : predict (fun v => v) cat_dog_classifier
                    {| image := [0.9; 0.1]; text := "cat"%string |}
                  = Some ("cat"%string, [0.9; 0.1])).
  { unfold predict. simpl image. simpl label_embeddings.
    rewrite cat_dog_scores. cbn [bind]. rewrite argmax_pair.
    destruct (Rlt_dec 0.9 0.1) as [Hlt|_]; [exfalso; lra|reflexivity]. }
  destruct (@infer_sample_spec Np.vec (fun v => v) cat_dog_classifier 0
              {| image := [0.9; 0.1]; text := "cat"%string |}
              [0.9; 0.1] "cat"%string eq_refl Hpred)
    as (p & i & _ & Hsm & Hi & _ & _ & Hinf).
  rewrite cat_dog_softmax in Hsm. injection Hsm as <-. fold x in Hinf.
  rewrite argmax_pair in Hi.
  destruct (Rlt_dec 0.9 0.1) as [Hlt|_]; [exfalso; lra|]. injection Hi as <-.
  split.
  - unfold Np.dot_T. cbn [mapM]. simpl label_embeddings.
    rewrite cat_dog_scores. reflexivity.
  - exists (1 / (1 + (x + 0))), (x / (1 + (x + 0))). eexists.
    split; [apply cat_dog_softmax|].
    assert (Hp0 : 1 / (1 + (x + 0)) * (1 + x) = 1) by (field; lra).
    assert (Hp1 : x / (1 + (x + 0)) * (1 + x) = x) by (field; lra).
    assert (H0 : 0 < 1 / (1 + (x + 0))).
    { apply Rdiv_lt_0_compat; lra. }
    assert (H1 : 0 < x / (1 + (x + 0))).
    { apply Rdiv_lt_0_compat; lra. }
    split; [apply Rabs_def1; nra|]. split; [apply Rabs_def1; nra|].
    unfold inference_on_samples. cbn [mapM]. rewrite Hinf. cbn [bind].
    split; [reflexivity|]. split; [reflexivity|]. split; reflexivity.
Qed.

(** ** Arg-max before and after softmax: claim C10 *)

(** C10, amended: on every non-empty score vector the first maximal
    position of the raw scores holds the largest of the softmax
    probabilities.  In an evaluation run in which no coordinate of the
    raw label embeddings is zero for all the labels at once, the label
    that [evaluate] selects for a sample from the raw scores is the
    label that [inference_on_samples] reports for it, both taken at the
    arg-max of the raw scores, and the confidence reported is the
    largest of the probabilities. *)
Theorem raw_argmax_holds_largest_probability :
  (forall s : Np.vec, s <> [] ->
     exists p i,
       softmax s = Some p /\ Np.argmax s = Some i /\
       (i < length p)%nat /\
       forall j, (j < length p)%nat -> nth j p 0 <= nth i p 0) /\
  (forall (Image : Type) (image_features : Image -> Np.vec)
          (text_features : string -> Np.vec) (D : nat)
          (ds : list (sample Image)) (batch_size : nat),
      (forall s, length (text_features s) = D) ->
      (forall smp, In smp ds -> length (image_features (image smp)) = D) ->
      ds <> [] ->
      (0 < batch_size)%nat ->
      let c := prepare_dataset text_features ds in
      let raw :=
        map (fun l => text_features ("a photo of a " ++ l)%string) (labels c) in
      (forall j, (j < D)%nat -> column_norm raw j <> 0) ->
      exists ev,
        evaluate image_features c batch_size = Some ev /\
        forall k smp, nth_error ds k = Some smp ->
          exists scores p i r,
            nth_error (raw_scores ev) k = Some scores /\
            softmax scores = Some p /\
            Np.argmax scores = Some i /\
            infer_sample image_features c k = Some r /\
            nth_error (predictions ev) k = Some (predicted_label r) /\
            nth_error (labels c) i = Some (predicted_label r) /\
            confidence r = nth i p 0 /\
            (forall j, (j < length p)%nat -> nth j p 0 <= confidence r)).
Proof.
  split.
  - intros s Hne. destruct (argmax_softmax Hne) as (p & i & Hp & Hip & Hi).
    destruct (argmax_bound _ Hip) as (Hlt & Hmax & _).
    exists p, i. repeat split; assumption.
  - intros Image image_features text_features D ds batch_size
           Htext Himg Hne Hbs c raw _.
    destruct (@evaluate_prepared Image image_features text_features D ds
                Htext Himg Hne batch_size Hbs)
      as (prs & report & Hprs & _ & _ & _ & Hev).
    fold c in Hprs, Hev.
    eexists. split; [exact Hev|].
    intros k smp Hk.
    destruct (@prediction_at Image image_features text_features ds prs k smp
                Hprs Hk) as (label & scores & Hnth & Hpred).
    fold c in Hpred.
    destruct (@infer_sample_spec Image image_features c k smp scores label Hk Hpred)
      as (p & i & _ & Hsm & Hi & Hip & Hl & Hinf).
    destruct (argmax_bound _ Hip) as (_ & Hmax & _).
    exists scores, p, i. eexists.
    simpl predictions. simpl raw_scores.
    split; [rewrite nth_error_map, Hnth; reflexivity|].
    split; [exact Hsm|]. split; [exact Hi|].
    split; [exact Hinf|]. simpl predicted_label. simpl confidence.
    split; [rewrite nth_error_map, Hnth; reflexivity|].
    split; [exact Hl|]. split; [reflexivity|exact Hmax].
Qed.

Lemma raw_argmax_holds_largest_probability_witness :
  (exists p i,
     softmax [0.9; 0.1] = Some p /\ Np.argmax [0.9; 0.1] = Some i /\
     (i < length p)%nat /\
     forall j, (j < length p)%nat -> nth j p 0 <= nth i p 0) /\
  (let c := prepare_dataset cat_dog_features two_cat_like_images in
   exists ev,
     evaluate (fun v => v) c 32 = Some ev /\
     forall k smp, nth_error two_cat_like_images k = Some smp ->
       exists scores p i r,
         nth_error (raw_scores ev) k = Some scores /\
         softmax scores = Some p /\
         Np.argmax scores = Some i /\
         infer_sample (fun v => v) c k = Some r /\
         nth_error (predictions ev) k = Some (predicted_label r) /\
         nth_error (labels c) i = Some (predicted_label r) /\
         confidence r = nth i p 0 /\
         (forall j, (j < length p)%nat -> nth j p 0 <= confidence r)).
Proof.
  split.
  - apply (proj1 raw_argmax_holds_largest_probability [0.9; 0.1]). discriminate.
  - apply (proj2 raw_argmax_holds_largest_probability Np.vec (fun v => v)
             cat_dog_features 2%nat two_cat_like_images 32%nat).
    + intros s. unfold cat_dog_features. now destruct (String.eqb s _).
    + intros smp [<- | [<- | []]]; reflexivity.
    + discriminate.
    + lia.
    + exact cat_dog_columns_nonzero.
Defined.

Section Binary64.

Import PrimFloat.
Local Open Scope float_scope.
Local Set Warnings "-inexact-float".

(** C10, as stated, fails in binary64: for the scores [0.0, 1e-20] the
    arg-max of the raw scores is position 1, both exponentials round to
    1.0, [softmax] returns [0.5, 0.5], and the lowest index attaining
    the maximum of the probabilities is position 0. *)
Lemma softmax_merges_close_scores :
  F64.argmax [0; 1e-20] = Some 1%nat /\
  F64.softmax [0; 1e-20] = Some [0.5; 0.5] /\
  F64.argmax [0.5; 0.5] = Some 0%nat /\
  ~ (forall s p : F64.vec,
        F64.softmax s = Some p -> F64.argmax p = F64.argmax s).
Proof.
  assert (Hs : F64.softmax [0; 1e-20] = Some [0.5; 0.5])
    by (vm_compute; reflexivity).
  assert (Hraw : F64.argmax [0; 1e-20] = Some 1%nat)
    by (vm_compute; reflexivity).
  assert (Hp : F64.argmax [0.5; 0.5] = Some 0%nat)
    by (vm_compute; reflexivity).
  repeat split; try assumption.
  intros H. specialize (H _ _ Hs). rewrite Hraw, Hp in H. discriminate.
Qed.

(** In binary64 a probability can be exactly 0: the exponential of
    -1000 underflows. *)
Lemma softmax_underflows_to_zero :
  F64.softmax [1000; 0] = Some [1; 0].
Proof. vm_compute. reflexivity. Qed.

End Binary64.

(** ** Accuracy and weighted scores: claims C7 and C8 *)

Local Open Scope Q_scope.

Lemma of_nat_pos (n : nat) : (0 < n)%nat -> 0 < of_nat n.
Proof.
  intros H. unfold of_nat, Qlt. simpl. lia.
Qed.

Lemma of_nat_nonneg (n : nat) : 0 <= of_nat n.
Proof. unfold of_nat, Qle. simpl. lia. Qed.

Lemma of_nat_div_same (n : nat) : (0 < n)%nat -> of_nat n / of_nat n == 1.
Proof.
  intros H. apply Qmult_inv_r. intros E.
  pose proof (of_nat_pos H) as Hp. rewrite E in Hp. now apply Qlt_irrefl in Hp.
Qed.

Lemma filter_seq_shift (f : nat -> bool) (s n : nat) :
  length (filter f (seq (S s) n))
  = length (filter (fun i => f (S i)) (seq s n)).
Proof.
  revert s. induction n as [|n IH]; intros s; simpl; [reflexivity|].
  destruct (f (S s)); simpl; now rewrite IH.
Qed.

Lemma count_equal_elementwise (preds trues : list string) :
  length preds = length trues ->
  count_occ bool_dec (equal_elementwise preds trues) true
  = matching_positions preds trues /\
  length (equal_elementwise preds trues) = length preds.
Proof.
  unfold matching_positions, equal_elementwise.
  revert trues. induction preds as [|a preds IH]; intros [|b trues] Hlen;
    simpl in Hlen; try discriminate; [now split|].
  injection Hlen as Hlen. destruct (IH trues Hlen) as [Hc Hl].
  cbn [combine map length seq filter nth fst snd].
  destruct (String.eqb a b); cbn [count_occ length].
  - destruct (bool_dec true true) as [_|N]; [|congruence].
    rewrite filter_seq_shift. cbn [nth].
    split; [now rewrite Hc|now rewrite Hl].
  - destruct (bool_dec false true) as [E|_]; [discriminate|].
    rewrite filter_seq_shift. cbn [nth].
    split; [now rewrite Hc|now rewrite Hl].
Qed.

Lemma accuracy_fraction (preds trues : list string) :
  length preds = length trues ->
  mean_bool (equal_elementwise preds trues) == fraction_of_matches preds trues.
Proof.
  intros Hlen. destruct (count_equal_elementwise _ _ Hlen) as [Hc Hl].
  unfold mean_bool, fraction_of_matches. now rewrite Hc, Hl.
Qed.

Lemma compute_metrics_returns (Image : Type) (c : classifier Image)
    (preds trues : list string) (scores : Np.matrix) :
  labels c = Sklearn.unique_labels trues preds ->
  exists report,
    Sklearn.classification_report trues preds (labels c) = Some report /\
    compute_metrics c (preds, trues, scores) =
    Some {| eval_metrics :=
              let prf := Sklearn.precision_recall_fscore_support_weighted
                           trues preds in
              {| accuracy := mean_bool (equal_elementwise preds trues);
                 precision := fst (fst prf);
                 recall := snd (fst prf);
                 f1_score := snd prf |};
            detailed_report := report;
            predictions := preds;
            true_labels := trues;
            raw_scores := scores |}.
Proof.
  intros Hlab.
  destruct (@classification_report_rows trues preds (labels c) (eq_sym Hlab))
    as (report & Hrep & _).
  exists report. split; [assumption|].
  unfold compute_metrics.
  destruct (Sklearn.precision_recall_fscore_support_weighted _ _) as [[p r] f].
  rewrite Hrep. reflexivity.
Qed.

Lemma agreeing_same (ys : list string) : Sklearn.agreeing ys ys = ys.
Proof.
  unfold Sklearn.agreeing. induction ys as [|y ys IH]; simpl; [reflexivity|].
  rewrite String.eqb_refl. simpl. now rewrite IH.
Qed.

Lemma class_scores_same (ys : list string) (c : string) :
  In c ys ->
  let row := Sklearn.class_scores ys ys c in
  Sklearn.precision row == 1 /\ Sklearn.recall row == 1 /\
  Sklearn.f1 row == 1 /\ 0 < Sklearn.support row.
Proof.
  intros Hin. simpl.
  unfold Sklearn.tp_sum, Sklearn.pred_sum, Sklearn.true_sum. rewrite agreeing_same.
  assert (Hn : (0 < Sklearn.count c ys)%nat) by (now apply count_occ_In).
  set (n := Sklearn.count c ys) in *.
  unfold Sklearn.prf_divide.
  destruct (Nat.eqb_spec n 0) as [E|_]; [lia|].
  destruct (Nat.eqb_spec (n + n) 0) as [E|_]; [lia|].
  rewrite Nat.add_0_r.
  repeat split; try (apply of_nat_div_same; lia). now apply of_nat_pos.
Qed.

Lemma average_all_ones (f : Sklearn.scores -> Q) (rows : list Sklearn.scores) :
  (forall row, In row rows -> f row == 1 /\ 0 < Sklearn.support row) ->
  rows <> [] ->
  Sklearn.average (map f rows) (map Sklearn.support rows) == 1.
Proof.
  intros Hrows Hne.
  assert (Hsum : Sklearn.Qsum
                   (map (fun p => fst p * snd p)
                        (combine (map f rows) (map Sklearn.support rows)))
                 == Sklearn.Qsum (map Sklearn.support rows)).
  { clear Hne. induction rows as [|row rows IH]; simpl; [reflexivity|].
    destruct (Hrows row (or_introl eq_refl)) as [Hf _].
    rewrite IH by (intros r Hr; apply Hrows; now right).
    rewrite Hf. ring. }
  assert (Hpos : 0 < Sklearn.Qsum (map Sklearn.support rows)).
  { destruct rows as [|row rows]; [congruence|]. simpl.
    destruct (Hrows row (or_introl eq_refl)) as [_ Hs].
    assert (Hnn : 0 <= Sklearn.Qsum (map Sklearn.support rows)).
    { clear Hsum Hne. induction rows as [|r rows IH]; simpl; [apply Qle_refl|].
      destruct (Hrows r (or_intror (or_introl eq_refl))) as [_ Hr].
      assert (0 <= Sklearn.Qsum (map Sklearn.support rows)).
      { apply IH. intros r' [<- | Hr']; apply Hrows; [now left|right; now right]. }
      apply Qlt_le_weak in Hr.
      replace 0 with (0 + 0) by reflexivity. now apply Qplus_le_compat. }
    apply Qlt_le_trans with (Sklearn.support row + 0).
    - now rewrite Qplus_0_r.
    - apply Qplus_le_compat; [apply Qle_refl|assumption]. }
  unfold Sklearn.average. rewrite Hsum. apply Qmult_inv_r.
  intros E. rewrite E in Hpos. now apply Qlt_irrefl in Hpos.
Qed.

Lemma weighted_scores_same (ys : list string) :
  ys <> [] ->
  let prf := Sklearn.precision_recall_fscore_support_weighted ys ys in
  fst (fst prf) == 1 /\ snd (fst prf) == 1 /\ snd prf == 1.
Proof.
  intros Hne. unfold Sklearn.precision_recall_fscore_support_weighted. simpl.
  set (rows := Sklearn.per_class ys ys (Sklearn.unique_labels ys ys)).
  assert (Hrows : forall row, In row rows ->
            Sklearn.precision row == 1 /\ Sklearn.recall row == 1 /\
            Sklearn.f1 row == 1 /\ 0 < Sklearn.support row).
  { intros row Hin. unfold rows, Sklearn.per_class in Hin.
    apply in_map_iff in Hin as (c & <- & Hc).
    apply class_scores_same.
    unfold Sklearn.unique_labels in Hc.
    apply (proj1 (in_sorted_set _ _)) in Hc.
    apply in_app_or in Hc. tauto. }
  assert (Hrne : rows <> []).
  { unfold rows, Sklearn.per_class, Sklearn.unique_labels.
    intros E. apply map_eq_nil in E. revert E. apply sorted_set_nonempty.
    destruct ys; [congruence|discriminate]. }
  repeat split; apply average_all_ones; try assumption;
    intros row Hin; destruct (Hrows row Hin) as (Hp & Hr & Hf & Hs); auto.
Qed.

Lemma accuracy_same (ys : list string) :
  ys <> [] -> mean_bool (equal_elementwise ys ys) == 1.
Proof.
  intros Hne. rewrite accuracy_fraction by reflexivity.
  unfold fraction_of_matches, matching_positions.
  assert (E : filter (fun i => String.eqb (nth i ys EmptyString) (nth i ys EmptyString))
                (seq 0 (length ys)) = seq 0 (length ys)).
  { apply forallb_filter_id. apply forallb_forall. intros i _.
    apply String.eqb_refl. }
  rewrite E, length_seq. apply of_nat_div_same.
  destruct ys; [congruence|simpl; lia].
Qed.

(** *** The library's weighted scores against the textbook formula *)

Lemma of_nat_plus (a b : nat) : of_nat (a + b) == of_nat a + of_nat b.
Proof. unfold of_nat. now rewrite Nat2Z.inj_add, inject_Z_plus. Qed.

Lemma of_nat_zero_iff (n : nat) : of_nat n == 0 <-> n = 0%nat.
Proof.
  unfold of_nat, Qeq. simpl. lia.
Qed.

Lemma map_fst_combine (A B : Type) (l : list A) (l' : list B) :
  length l = length l' -> map fst (combine l l') = l.
Proof.
  revert l'. induction l as [|a l IH]; intros [|b l'] H; simpl in *;
    try discriminate; [reflexivity|]. f_equal. apply IH. congruence.
Qed.

Lemma map_snd_combine (A B : Type) (l : list A) (l' : list B) :
  length l = length l' -> map snd (combine l l') = l'.
Proof.
  revert l'. induction l as [|a l IH]; intros [|b l'] H; simpl in *;
    try discriminate; [reflexivity|]. f_equal. apply IH. congruence.
Qed.

Lemma count_cons (c y : string) (l : list string) :
  Sklearn.count c (y :: l)
  = ((if String.eqb y c then 1 else 0) + Sklearn.count c l)%nat.
Proof.
  unfold Sklearn.count. simpl.
  destruct (string_dec y c) as [->|Hne].
  - now rewrite String.eqb_refl.
  - apply String.eqb_neq in Hne. now rewrite Hne.
Qed.

Section Confusion.

Variable c : string.
Variable l : list (string * string).

Lemma count_agreeing :
  Sklearn.count c (map fst (filter (fun q => String.eqb (fst q) (snd q)) l))
  = length (filter (fun q => String.eqb (fst q) c && String.eqb (snd q) c) l).
Proof.
  induction l as [|[a b] l' IH]; [reflexivity|]. cbn [filter fst snd].
  destruct (String.eqb_spec a b) as [<-|Hab].
  - cbn [map fst]. rewrite count_cons, IH. rewrite andb_diag.
    destruct (String.eqb a c); reflexivity.
  - rewrite IH.
    destruct (String.eqb_spec a c) as [->|Hac];
      destruct (String.eqb_spec b c) as [->|Hbc]; try reflexivity.
    congruence.
Qed.

Lemma count_predicted :
  Sklearn.count c (map snd l)
  = (length (filter (fun q => String.eqb (fst q) c && String.eqb (snd q) c) l)
     + length (filter (fun q => negb (String.eqb (fst q) c)
                                && String.eqb (snd q) c) l))%nat.
Proof.
  induction l as [|[a b] l' IH]; [reflexivity|]. cbn [map filter fst snd].
  rewrite count_cons, IH.
  destruct (String.eqb a c), (String.eqb b c); cbn [andb negb length]; lia.
Qed.

Lemma count_true :
  Sklearn.count c (map fst l)
  = (length (filter (fun q => String.eqb (fst q) c && String.eqb (snd q) c) l)
     + length (filter (fun q => String.eqb (fst q) c
                                && negb (String.eqb (snd q) c)) l))%nat.
Proof.
  induction l as [|[a b] l' IH]; [reflexivity|]. cbn [map filter fst snd].
  rewrite count_cons, IH.
  destruct (String.eqb a c), (String.eqb b c); cbn [andb negb length]; lia.
Qed.

End Confusion.

Lemma confusion_counts (trues preds : list string) (c : string) :
  length preds = length trues ->
  Sklearn.tp_sum trues preds c = Standard.TP trues preds c /\
  Sklearn.pred_sum preds c
    = (Standard.TP trues preds c + Standard.FP trues preds c)%nat /\
  Sklearn.true_sum trues c
    = (Standard.TP trues preds c + Standard.FN trues preds c)%nat.
Proof.
  intros Hlen. unfold Sklearn.tp_sum, Sklearn.agreeing, Sklearn.pred_sum,
    Sklearn.true_sum, Standard.TP, Standard.FP, Standard.FN, Standard.pairs_where.
  repeat split.
  - apply count_agreeing.
  - rewrite <- (count_predicted c (combine trues preds)).
    now rewrite map_snd_combine.
  - rewrite <- (count_true c (combine trues preds)).
    now rewrite map_fst_combine.
Qed.

Lemma ratio_of_nat (a b : nat) :
  Sklearn.prf_divide a (a + b) == Standard.ratio (of_nat a) (of_nat a + of_nat b).
Proof.
  unfold Sklearn.prf_divide, Standard.ratio.
  destruct (Nat.eqb_spec (a + b) 0) as [E|Hne].
  - assert (a = 0%nat) as -> by lia. assert (b = 0%nat) as -> by lia.
    reflexivity.
  - destruct (Qeq_bool (of_nat a + of_nat b) 0) eqn:Eq.
    + apply Qeq_bool_iff in Eq. rewrite <- of_nat_plus in Eq.
      apply of_nat_zero_iff in Eq. contradiction.
    + now rewrite of_nat_plus.
Qed.

Lemma ratio_zero (den : Q) : Standard.ratio 0 den == 0.
Proof.
  unfold Standard.ratio. destruct (Qeq_bool den 0); [reflexivity|].
  unfold Qdiv. apply Qmult_0_l.
Qed.

Lemma f1_of_nat (a b d : nat) :
  Sklearn.prf_divide (2 * a) ((a + d) + (a + b))
  == Standard.ratio
       (2 * Standard.ratio (of_nat a) (of_nat a + of_nat b)
          * Standard.ratio (of_nat a) (of_nat a + of_nat d))
       (Standard.ratio (of_nat a) (of_nat a + of_nat b)
        + Standard.ratio (of_nat a) (of_nat a + of_nat d)).
Proof.
  destruct (Nat.eq_dec a 0) as [->|Ha].
  - cbn [Nat.mul Nat.add]. rewrite prf_divide_zero.
    change (of_nat 0) with 0.
    assert (E : Standard.ratio 0 (0 + of_nat b) + Standard.ratio 0 (0 + of_nat d)
                == 0) by (rewrite !ratio_zero; reflexivity).
    unfold Standard.ratio at 1. apply Qeq_bool_iff in E. now rewrite E.
  - pose proof (@of_nat_pos a ltac:(lia)) as HA.
    pose proof (of_nat_nonneg b) as HB. pose proof (of_nat_nonneg d) as HD.
    assert (RB : Standard.ratio (of_nat a) (of_nat a + of_nat b)
                 == of_nat a / (of_nat a + of_nat b)).
    { unfold Standard.ratio.
      destruct (Qeq_bool (of_nat a + of_nat b) 0) eqn:Eq; [|reflexivity].
      apply Qeq_bool_iff in Eq. lra. }
    assert (RD : Standard.ratio (of_nat a) (of_nat a + of_nat d)
                 == of_nat a / (of_nat a + of_nat d)).
    { unfold Standard.ratio.
      destruct (Qeq_bool (of_nat a + of_nat d) 0) eqn:Eq; [|reflexivity].
      apply Qeq_bool_iff in Eq. lra. }
    set (P := Standard.ratio (of_nat a) (of_nat a + of_nat b)) in *.
    set (R := Standard.ratio (of_nat a) (of_nat a + of_nat d)) in *.
    assert (HP : 0 < P).
    { rewrite RB. apply Qlt_shift_div_l; lra. }
    assert (HR : 0 < R).
    { rewrite RD. apply Qlt_shift_div_l; lra. }
    unfold Standard.ratio.
    destruct (Qeq_bool (P + R) 0) eqn:Eq.
    { apply Qeq_bool_iff in Eq. lra. }
    rewrite RB, RD. unfold Sklearn.prf_divide.
    destruct (Nat.eqb_spec (a + d + (a + b)) 0) as [E|_]; [lia|].
    replace (2 * a)%nat with (a + a)%nat by lia.
    rewrite !of_nat_plus.
    set (A := of_nat a) in *. set (B := of_nat b) in *. set (D' := of_nat d) in *.
    field. repeat split; try lra. nra.
Qed.

Lemma class_scores_standard (trues preds : list string) (c : string) :
  length preds = length trues ->
  let row := Sklearn.class_scores trues preds c in
  Sklearn.precision row == Standard.precision trues preds c /\
  Sklearn.recall row == Standard.recall trues preds c /\
  Sklearn.f1 row == Standard.f1 trues preds c /\
  Sklearn.support row == Standard.support trues preds c.
Proof.
  intros Hlen. destruct (confusion_counts trues preds c Hlen) as (Htp & Hp & Ht).
  unfold Sklearn.class_scores. cbn [Sklearn.precision Sklearn.recall Sklearn.f1
    Sklearn.support]. rewrite Htp, Hp, Ht.
  unfold Standard.precision, Standard.recall, Standard.f1, Standard.support.
  repeat split.
  - apply ratio_of_nat.
  - apply ratio_of_nat.
  - apply f1_of_nat.
  - apply of_nat_plus.
Qed.

Lemma Qsum_ext (A : Type) (f g : A -> Q) (l : list A) :
  (forall a, In a l -> f a == g a) ->
  Sklearn.Qsum (map f l) == Sklearn.Qsum (map g l).
Proof.
  induction l as [|a l IH]; intros H; simpl; [reflexivity|].
  rewrite (H a (or_introl eq_refl)), IH; [reflexivity|].
  intros a' Ha'. apply H. now right.
Qed.

Lemma Qsum_of_nat (A : Type) (f : A -> nat) (l : list A) :
  Sklearn.Qsum (map (fun a => of_nat (f a)) l) == of_nat (list_sum (map f l)).
Proof.
  induction l as [|a l IH]; simpl; [reflexivity|].
  now rewrite of_nat_plus, IH.
Qed.

Lemma Qsum_scale (A : Type) (w x : A -> Q) (n : Q) (l : list A) :
  Sklearn.Qsum (map (fun a => w a / n * x a) l)
  == Sklearn.Qsum (map (fun a => x a * w a) l) / n.
Proof.
  induction l as [|a l IH]; simpl.
  - unfold Qdiv. now rewrite Qmult_0_l.
  - rewrite IH. unfold Qdiv. ring.
Qed.

Lemma list_sum_cons (a : nat) (l : list nat) :
  list_sum (a :: l) = (a + list_sum l)%nat.
Proof. reflexivity. Qed.

Lemma indicator_sum (y : string) (U : list string) :
  NoDup U -> In y U ->
  list_sum (map (fun c => if String.eqb y c then 1%nat else 0%nat) U) = 1%nat.
Proof.
  induction U as [|u U IH]; intros Hnd Hin; [contradiction|].
  inversion Hnd as [|? ? Hnin Hnd']; subst. cbn [map]. rewrite !list_sum_cons.
  destruct (String.eqb_spec y u) as [->|Hne].
  - assert (E : list_sum (map (fun c => if String.eqb u c then 1%nat else 0%nat) U)
                = 0%nat).
    { clear IH Hnd Hnd' Hin. induction U as [|v U IHU]; [reflexivity|].
      cbn [map]. rewrite !list_sum_cons. destruct (String.eqb_spec u v) as [->|_].
      - exfalso. apply Hnin. now left.
      - rewrite IHU; [reflexivity|]. intros H. apply Hnin. now right. }
    now rewrite E.
  - destruct Hin as [->|Hin]; [congruence|]. now rewrite IH.
Qed.

Lemma counts_add_up (ys U : list string) :
  NoDup U -> incl ys U ->
  list_sum (map (fun c => Sklearn.count c ys) U) = length ys.
Proof.
  intros Hnd. induction ys as [|y ys IH]; intros Hincl.
  - clear. induction U as [|u U IHU]; [reflexivity|].
    cbn [map]. rewrite list_sum_cons, IHU. reflexivity.
  - assert (E : map (fun c => Sklearn.count c (y :: ys)) U
                = map (fun c => ((if String.eqb y c then 1 else 0)
                                 + Sklearn.count c ys)%nat) U).
    { apply map_ext. intros c. apply count_cons. }
    rewrite E. clear E.
    assert (Hsplit : forall (f g : string -> nat) V,
               list_sum (map (fun c => (f c + g c)%nat) V)
               = (list_sum (map f V) + list_sum (map g V))%nat).
    { intros f g V. induction V as [|v V IHV]; [reflexivity|].
      cbn [map]. rewrite !list_sum_cons. rewrite IHV. lia. }
    rewrite Hsplit, indicator_sum, IH; auto.
    + intros a Ha. apply Hincl. now right.
    + apply Hincl. now left.
Qed.

Lemma weighted_average_standard
    (sk : Sklearn.scores -> Q)
    (std : list string -> list string -> string -> Q)
    (trues preds : list string) :
  length preds = length trues ->
  (forall c, sk (Sklearn.class_scores trues preds c) == std trues preds c) ->
  let U := Sklearn.unique_labels trues preds in
  let rows := Sklearn.per_class trues preds U in
  Sklearn.average (map sk rows) (map Sklearn.support rows)
  == Standard.weighted std trues preds U.
Proof.
  intros Hlen Hsk U rows. unfold Sklearn.average, Standard.weighted.
  fold (Sklearn.Qsum
          (map (fun c => Standard.support trues preds c / of_nat (length trues)
                         * std trues preds c) U)).
  rewrite Qsum_scale.
  unfold rows, Sklearn.per_class. rewrite !map_map.
  assert (Hcomb : forall V,
            map (fun p => fst p * snd p)
              (combine (map (fun c => sk (Sklearn.class_scores trues preds c)) V)
                 (map (fun c => Sklearn.support (Sklearn.class_scores trues preds c)) V))
            = map (fun c => sk (Sklearn.class_scores trues preds c)
                            * Sklearn.support (Sklearn.class_scores trues preds c)) V).
  { induction V as [|v V IHV]; [reflexivity|].
    cbn [map combine]. rewrite IHV. reflexivity. }
  rewrite Hcomb.
  assert (Hw : Sklearn.Qsum
                 (map (fun c => Sklearn.support (Sklearn.class_scores trues preds c)) U)
               == of_nat (length trues)).
  { cbn [Sklearn.class_scores Sklearn.support].
    rewrite (Qsum_of_nat (Sklearn.true_sum trues) U).
    unfold Sklearn.true_sum. rewrite counts_add_up; [reflexivity| |].
    - apply ascending_NoDup, sorted_set_ascending.
    - intros y Hy. unfold U, Sklearn.unique_labels.
      apply in_sorted_set, in_or_app. now left. }
  rewrite Hw.
  assert (Hnum : Sklearn.Qsum
                   (map (fun c => sk (Sklearn.class_scores trues preds c)
                                  * Sklearn.support (Sklearn.class_scores trues preds c)) U)
                 == Sklearn.Qsum
                      (map (fun c => std trues preds c
                                     * Standard.support trues preds c) U)).
  { apply Qsum_ext. intros c _.
    destruct (class_scores_standard trues preds c Hlen) as (_ & _ & _ & Hs).
    cbn zeta in Hs. rewrite Hsk, Hs. reflexivity. }
  rewrite Hnum. reflexivity.
Qed.

Lemma weighted_scores_standard (trues preds : list string) :
  length preds = length trues ->
  let prf := Sklearn.precision_recall_fscore_support_weighted trues preds in
  let U := Sklearn.unique_labels trues preds in
  fst (fst prf) == Standard.weighted Standard.precision trues preds U /\
  snd (fst prf) == Standard.weighted Standard.recall trues preds U /\
  snd prf == Standard.weighted Standard.f1 trues preds U.
Proof.
  intros Hlen. unfold Sklearn.precision_recall_fscore_support_weighted.
  cbn [fst snd Sklearn.weighted_avg Sklearn.precision Sklearn.recall Sklearn.f1].
  repeat split; apply weighted_average_standard; try assumption; intros c;
    destruct (class_scores_standard trues preds c Hlen) as (Hp & Hr & Hf & _);
    assumption.
Qed.

(** C7: for equally long accumulated predictions and true labels on
    which the report does not raise, the accuracy returned is the
    fraction of positions where the two agree, and the weighted
    precision, recall and F1 returned are those of the textbook
    support-weighted per-class formula.  For the true labels
    [cat, dog, cat, dog] and the predictions [cat, dog, dog, dog] the
    accuracy is 3/4 and the weighted precision, recall and F1 are 5/6,
    3/4 and 11/15. *)
Theorem accuracy_and_weighted_scores :
  (forall (Image : Type) (c : classifier Image) (preds trues : list string)
          (scores : Np.matrix),
      length preds = length trues ->
      labels c = Sklearn.unique_labels trues preds ->
      exists ev,
        compute_metrics c (preds, trues, scores) = Some ev /\
        accuracy (eval_metrics ev) == fraction_of_matches preds trues /\
        precision (eval_metrics ev)
          == Standard.weighted Standard.precision trues preds (labels c) /\
        recall (eval_metrics ev)
          == Standard.weighted Standard.recall trues preds (labels c) /\
        f1_score (eval_metrics ev)
          == Standard.weighted Standard.f1 trues preds (labels c)) /\
  (let trues := ["cat"; "dog"; "cat"; "dog"]%string in
   let preds := ["cat"; "dog"; "dog"; "dog"]%string in
   exists ev,
     compute_metrics cat_dog_classifier (preds, trues, []) = Some ev /\
     accuracy (eval_metrics ev) == 3 # 4 /\
     precision (eval_metrics ev) == 5 # 6 /\
     recall (eval_metrics ev) == 3 # 4 /\
     f1_score (eval_metrics ev) == 11 # 15).
Proof.
  split.
  - intros Image c preds trues scores Hlen Hlab.
    destruct (@compute_metrics_returns Image c preds trues scores Hlab)
      as (report & _ & Hev).
    eexists. split; [exact Hev|].
    cbn [eval_metrics accuracy precision recall f1_score].
    destruct (weighted_scores_standard trues preds Hlen) as (Hp & Hr & Hf).
    rewrite Hlab. repeat split; try assumption. now apply accuracy_fraction.
  - intros trues preds.
    destruct (@compute_metrics_returns Np.vec cat_dog_classifier preds trues []
                eq_refl) as (report & _ & Hev).
    eexists. split; [exact Hev|].
    cbn [eval_metrics accuracy precision recall f1_score].
    repeat split; vm_compute; reflexivity.
Qed.

Lemma accuracy_and_weighted_scores_witness :
  let preds := ["dog"; "dog"; "cat"]%string in
  let trues := ["cat"; "dog"; "cat"]%string in
  exists ev,
    compute_metrics cat_dog_classifier (preds, trues, []) = Some ev /\
    accuracy (eval_metrics ev) == fraction_of_matches preds trues /\
    precision (eval_metrics ev)
      == Standard.weighted Standard.precision trues preds
           (labels cat_dog_classifier) /\
    recall (eval_metrics ev)
      == Standard.weighted Standard.recall trues preds
           (labels cat_dog_classifier) /\
    f1_score (eval_metrics ev)
      == Standard.weighted Standard.f1 trues preds
           (labels cat_dog_classifier).
Proof.
  apply (proj1 accuracy_and_weighted_scores Np.vec cat_dog_classifier
           ["dog"; "dog"; "cat"]%string ["cat"; "dog"; "cat"]%string []).
  - reflexivity.
  - reflexivity.
Defined.

(** C8: when the predicted labels accumulated over a non-empty pass are
    element-wise the true labels [ys], and the vocabulary has as many
    entries as [ys] has distinct labels, so that the report does not
    raise, the metrics computed at the end of [evaluate] are accuracy,
    weighted precision, weighted recall and weighted F1 all equal
    to 1. *)
Theorem perfect_predictions_score_one
    (Image : Type) (c : classifier Image) (ys : list string)
    (scores : Np.matrix) :
  ys <> [] ->
  length (labels c) = length (Sklearn.unique_labels ys ys) ->
  exists ev,
    compute_metrics c (ys, ys, scores) = Some ev /\
    predictions ev = ys /\
    true_labels ev = ys /\
    accuracy (eval_metrics ev) == 1 /\
    precision (eval_metrics ev) == 1 /\
    recall (eval_metrics ev) == 1 /\
    f1_score (eval_metrics ev) == 1.
Proof.
  intros Hne Hlen.
  destruct (weighted_scores_same Hne) as (Hp & Hr & Hf). cbv zeta in *.
  unfold compute_metrics.
  destruct (Sklearn.precision_recall_fscore_support_weighted ys ys)
    as [[p r] f].
  unfold Sklearn.classification_report.
  rewrite <- Hlen, Nat.eqb_refl. cbn [negb bind].
  eexists. split; [reflexivity|].
  cbn [predictions true_labels eval_metrics accuracy precision recall f1_score
       fst snd] in *.
  repeat split; try assumption. now apply accuracy_same.
Qed.

Lemma perfect_predictions_score_one_witness :
  exists ev,
    evaluate (fun v => v) (prepare_dataset cat_dog_features cat_and_dog_images) 32
      = Some ev /\
    predictions ev = ["cat"; "dog"]%string /\
    true_labels ev = ["cat"; "dog"]%string /\
    accuracy (eval_metrics ev) == 1 /\
    precision (eval_metrics ev) == 1 /\
    recall (eval_metrics ev) == 1 /\
    f1_score (eval_metrics ev) == 1.
Proof.
  destruct (@perfect_predictions_score_one Np.vec
              (prepare_dataset cat_dog_features cat_and_dog_images)
              ["cat"; "dog"]%string
              [[2 * 1 + (0 * 0 + 0); 2 * 0 + (0 * 1 + 0)];
               [0 * 1 + (3 * 0 + 0); 0 * 0 + (3 * 1 + 0)]]%R)
    as (ev & Hev & H); [discriminate|reflexivity|].
  exists ev. split; [|exact H].
  rewrite (@evaluate_accumulates Np.vec (fun v => v)
             (prepare_dataset cat_dog_features cat_and_dog_images) 32 _
             ltac:(lia) cat_and_dog_predictions).
  exact Hev.
Defined.

(* ================================================================== *)
(** * Further properties of the notebook's functions *)

Local Open Scope R_scope.

(** ** The batch loop of [evaluate], exceptions included *)

Section BatchLoop.

Variable Image : Type.
Variable image_features : Image -> Np.vec.
Variable c : classifier Image.

Lemma batch_stages_cons (smp : sample Image) (batch : list (sample Image)) :
  (scores <- Np.dot_T (map image_features (map (@image Image) (smp :: batch)))
               (label_embeddings c) ;;
   predictions <- mapM Np.argmax scores ;;
   predicted <- mapM (nth_error (labels c)) predictions ;;
   Some (predicted, scores)) =
  (p <- predict image_features c smp ;;
   r <- (scores <- Np.dot_T (map image_features (map (@image Image) batch))
                     (label_embeddings c) ;;
         predictions <- mapM Np.argmax scores ;;
         predicted <- mapM (nth_error (labels c)) predictions ;;
         Some (predicted, scores)) ;;
   Some (fst p :: fst r, snd p :: snd r)).
Proof.
  unfold Np.dot_T, predict. cbn [map mapM].
  repeat (cbn [bind mapM fst snd] in *; try reflexivity;
          match goal with
          | H : ?x = _ |- context [bind ?x _] => rewrite H
          | |- context [bind ?o _] =>
              lazymatch o with
              | bind _ _ => fail
              | Some _ => fail
              | None => fail
              | _ => destruct o eqn:?
              end
          end).
Qed.

Lemma batch_stages_eq (batch : list (sample Image)) :
  (scores <- Np.dot_T (map image_features (map (@image Image) batch))
               (label_embeddings c) ;;
   predictions <- mapM Np.argmax scores ;;
   predicted <- mapM (nth_error (labels c)) predictions ;;
   Some (predicted, scores)) =
  (prs <- mapM (predict image_features c) batch ;;
   Some (map fst prs, map snd prs)).
Proof.
  induction batch as [|smp batch IH]; [reflexivity|].
  rewrite batch_stages_cons, IH. cbn [mapM].
  destruct (predict image_features c smp) as [p|]; cbn [bind]; [|reflexivity].
  now destruct (mapM (predict image_features c) batch).
Qed.

Lemma batch_stages_raise (batch : list (sample Image)) :
  mapM (predict image_features c) batch = None ->
  (scores <- Np.dot_T (map image_features (map (@image Image) batch))
               (label_embeddings c) ;;
   predictions <- mapM Np.argmax scores ;;
   predicted <- mapM (nth_error (labels c)) predictions ;;
   Some (predicted, scores)) = None.
Proof. intros H. now rewrite batch_stages_eq, H. Qed.

Lemma evaluate_batch_eq (batch_size i : nat)
    (P L : list string) (S : Np.matrix) :
  evaluate_batch image_features c batch_size (P, L, S) i =
  (prs <- mapM (predict image_features c)
            (firstn batch_size (skipn i (dataset c))) ;;
   Some (P ++ map fst prs,
         L ++ map (@text Image) (firstn batch_size (skipn i (dataset c))),
         S ++ map snd prs)).
Proof.
  destruct (mapM (predict image_features c)
              (firstn batch_size (skipn i (dataset c)))) as [prs|] eqn:E.
  - now apply evaluate_batch_spec.
  - cbn [bind]. apply batch_stages_raise in E.
    unfold evaluate_batch. rewrite slice_batch.
    destruct (Np.dot_T _ _) as [sc|]; cbn [bind] in *; [|reflexivity].
    destruct (mapM Np.argmax sc) as [idxs|]; cbn [bind] in *; [|reflexivity].
    destruct (mapM (nth_error (labels c)) idxs); cbn [bind] in *;
      [discriminate|reflexivity].
Qed.

Lemma for_each_batches_eq (batch_size : nat) :
  (0 < batch_size)%nat ->
  forall fuel i P L S,
    (length (dataset c) - i <= fuel)%nat ->
    for_each (evaluate_batch image_features c batch_size)
      (range_from fuel i (length (dataset c)) batch_size) (P, L, S) =
    (prs <- mapM (predict image_features c) (skipn i (dataset c)) ;;
     Some (P ++ map fst prs,
           L ++ map (@text Image) (skipn i (dataset c)),
           S ++ map snd prs)).
Proof.
  intros Hbs. induction fuel as [|fuel IH]; intros i P L S Hfuel.
  - rewrite skipn_all2 by lia. cbn. now rewrite !app_nil_r.
  - cbn [range_from].
    destruct (Nat.ltb_spec i (length (dataset c))) as [Hlt|Hge].
    + cbn [for_each]. rewrite evaluate_batch_eq.
      assert (Hsplit : skipn i (dataset c)
                       = firstn batch_size (skipn i (dataset c))
                         ++ skipn (i + batch_size) (dataset c)).
      { replace (i + batch_size)%nat with (batch_size + i)%nat by lia.
        rewrite <- skipn_skipn. symmetry. apply firstn_skipn. }
      set (b1 := firstn batch_size (skipn i (dataset c))) in *.
      rewrite Hsplit, mapM_app.
      destruct (mapM (predict image_features c) b1) as [p1|];
        cbn [bind]; [|reflexivity].
      rewrite IH by lia.
      destruct (mapM (predict image_features c)
                  (skipn (i + batch_size) (dataset c))) as [p2|];
        cbn [bind]; [|reflexivity].
      now rewrite !map_app, <- !app_assoc.
    + rewrite skipn_all2 by lia. cbn. now rewrite !app_nil_r.
Qed.

Lemma evaluate_eq (batch_size : nat) :
  (0 < batch_size)%nat ->
  evaluate image_features c batch_size =
  (prs <- mapM (predict image_features c) (dataset c) ;;
   compute_metrics c (map fst prs, map (@text Image) (dataset c), map snd prs)).
Proof.
  intros Hbs. unfold evaluate.
  destruct (Nat.eqb_spec batch_size 0) as [E|_]; [lia|].
  unfold range.
  rewrite (@for_each_batches_eq batch_size Hbs _ 0%nat [] [] []) by lia.
  cbn [skipn app]. now destruct (mapM _ (dataset c)).
Qed.

End BatchLoop.

Lemma predict_inv (Image : Type) (image_features : Image -> Np.vec)
    (c : classifier Image) (smp : sample Image) (l : string) (sc : Np.vec) :
  predict image_features c smp = Some (l, sc) ->
  mapM (Np.dot (image_features (image smp))) (label_embeddings c) = Some sc /\
  exists idx, Np.argmax sc = Some idx /\ nth_error (labels c) idx = Some l.
Proof.
  unfold predict.
  destruct (mapM _ (label_embeddings c)) as [s|]; cbn [bind]; [|discriminate].
  destruct (Np.argmax s) as [idx|] eqn:Ei; cbn [bind]; [|discriminate].
  destruct (nth_error (labels c) idx) as [l0|] eqn:El; cbn [bind]; [|discriminate].
  intros [= -> ->]. eauto.
Qed.

Lemma evaluate_inv (Image : Type) (image_features : Image -> Np.vec)
    (c : classifier Image) (batch_size : nat) (ev : evaluation) :
  evaluate image_features c batch_size = Some ev ->
  (0 < batch_size)%nat /\
  exists prs report,
    mapM (predict image_features c) (dataset c) = Some prs /\
    Sklearn.classification_report (map (@text Image) (dataset c)) (map fst prs)
      (labels c) = Some report /\
    predictions ev = map fst prs /\
    true_labels ev = map (@text Image) (dataset c) /\
    raw_scores ev = map snd prs /\
    detailed_report ev = report /\
    accuracy (eval_metrics ev)
      = mean_bool (equal_elementwise (map fst prs) (map (@text Image) (dataset c))).
Proof.
  intros H.
  assert (Hbs : (0 < batch_size)%nat).
  { destruct batch_size; [discriminate|lia]. }
  split; [assumption|].
  rewrite (evaluate_eq image_features c Hbs) in H.
  destruct (mapM (predict image_features c) (dataset c)) as [prs|] eqn:Hprs;
    cbn [bind] in H; [|discriminate].
  unfold compute_metrics in H.
  destruct (Sklearn.precision_recall_fscore_support_weighted _ _) as [[p r] f].
  destruct (Sklearn.classification_report _ _ _) as [report|] eqn:Hrep;
    cbn [bind] in H; [|discriminate].
  injection H as <-. exists prs, report.
  split; [reflexivity|]. split; [exact Hrep|]. repeat split; reflexivity.
Qed.

(** ** [evaluate]: the batch size and the shape of the result *)

(** The result of [evaluate], exception or value, is the same for every
    positive batch size: batching only groups the encoder calls. *)
Theorem evaluate_batch_size_irrelevant
    (Image : Type) (image_features : Image -> Np.vec)
    (c : classifier Image) (b1 b2 : nat) :
  (0 < b1)%nat -> (0 < b2)%nat ->
  evaluate image_features c b1 = evaluate image_features c b2.
Proof.
  intros H1 H2. now rewrite !evaluate_eq.
Qed.

Lemma evaluate_batch_size_irrelevant_witness :
  evaluate (fun v => v) (prepare_dataset cat_dog_features two_cat_like_images) 1
  = evaluate (fun v => v) (prepare_dataset cat_dog_features two_cat_like_images) 32.
Proof.
  apply evaluate_batch_size_irrelevant; lia.
Defined.

(** Whenever [evaluate] returns, its true labels are the dataset's label
    column in order, it holds one prediction and one row of raw scores
    per sample, every prediction is a vocabulary entry, every row of
    scores has one entry per label embedding, and the vocabulary has as
    many entries as there are distinct labels among the true and the
    predicted ones. *)
Theorem evaluate_result_shape
    (Image : Type) (image_features : Image -> Np.vec)
    (c : classifier Image) (batch_size : nat) (ev : evaluation) :
  evaluate image_features c batch_size = Some ev ->
  true_labels ev = map (@text Image) (dataset c) /\
  length (predictions ev) = length (dataset c) /\
  length (raw_scores ev) = length (dataset c) /\
  (forall l, In l (predictions ev) -> In l (labels c)) /\
  (forall row, In row (raw_scores ev) ->
     length row = length (label_embeddings c)) /\
  length (labels c)
    = length (Sklearn.unique_labels (true_labels ev) (predictions ev)).
Proof.
  intros H. destruct (evaluate_inv _ _ _ H)
    as (_ & prs & report & Hprs & Hrep & -> & -> & -> & _).
  destruct (mapM_spec _ _ Hprs) as [Hlen _].
  split; [reflexivity|]. rewrite !length_map.
  split; [assumption|]. split; [assumption|]. split; [|split].
  - intros l Hl. apply in_map_iff in Hl as ([l' sc] & <- & Hin).
    destruct (mapM_in _ _ Hprs _ Hin) as (smp & _ & Hp).
    apply predict_inv in Hp as (_ & idx & _ & Hl).
    now apply nth_error_In in Hl.
  - intros row Hrow. apply in_map_iff in Hrow as ([l' sc] & <- & Hin).
    destruct (mapM_in _ _ Hprs _ Hin) as (smp & _ & Hp).
    apply predict_inv in Hp as (Hsc & _).
    now destruct (mapM_spec _ _ Hsc).
  - unfold Sklearn.classification_report in Hrep.
    destruct (Nat.eqb_spec
                (length (Sklearn.unique_labels (map (@text Image) (dataset c))
                           (map fst prs)))
                (length (labels c))) as [E|_]; [now symmetry|discriminate].
Qed.

Lemma two_cat_like_evaluation :
  exists ev,
    evaluate (fun v => v) (prepare_dataset cat_dog_features two_cat_like_images) 32
    = Some ev.
Proof.
  destruct (@evaluate_prepared Np.vec (fun v => v) cat_dog_features 2
              two_cat_like_images cat_dog_features_dim two_cat_like_images_dim
              ltac:(discriminate) 32 ltac:(lia))
    as (prs & report & _ & _ & _ & _ & Hev).
  eexists. exact Hev.
Qed.

Lemma evaluate_result_shape_witness :
  exists ev,
    let c := prepare_dataset cat_dog_features two_cat_like_images in
    evaluate (fun v => v) c 32 = Some ev /\
    true_labels ev = map (@text Np.vec) (dataset c) /\
    length (predictions ev) = length (dataset c) /\
    length (raw_scores ev) = length (dataset c) /\
    (forall l, In l (predictions ev) -> In l (labels c)) /\
    (forall row, In row (raw_scores ev) ->
       length row = length (label_embeddings c)) /\
    length (labels c)
      = length (Sklearn.unique_labels (true_labels ev) (predictions ev)).
Proof.
  destruct two_cat_like_evaluation as [ev Hev]. exists ev.
  split; [exact Hev|].
  apply (@evaluate_result_shape Np.vec (fun v => v)
           (prepare_dataset cat_dog_features two_cat_like_images) 32 ev Hev).
Defined.

(** ** [softmax] as a probability distribution *)

Lemma sum_nonneg (l : Np.vec) : (forall y, In y l -> 0 <= y) -> 0 <= Np.sum l.
Proof.
  induction l as [|a l IH]; intros H; simpl; [lra|].
  pose proof (H a (or_introl eq_refl)).
  assert (0 <= Np.sum l) by (apply IH; intros; apply H; now right). lra.
Qed.

Lemma sum_ge_member (l : Np.vec) (e : R) :
  (forall y, In y l -> 0 <= y) -> In e l -> e <= Np.sum l.
Proof.
  induction l as [|a l IH]; intros Hnn Hin; [contradiction|].
  destruct Hin as [<- | Hin]; simpl.
  - assert (0 <= Np.sum l) by (apply sum_nonneg; intros; apply Hnn; now right).
    lra.
  - pose proof (Hnn a (or_introl eq_refl)).
    assert (e <= Np.sum l) by (apply IH; [intros; apply Hnn; now right|assumption]).
    lra.
Qed.

Lemma sum_le_length_max (l : Np.vec) (M : R) :
  (forall y, In y l -> y <= M) -> Np.sum l <= INR (length l) * M.
Proof.
  induction l as [|a l IH]; intros H.
  - simpl. lra.
  - change (Np.sum (a :: l)) with (a + Np.sum l).
    change (length (a :: l)) with (S (length l)). rewrite S_INR.
    pose proof (H a (or_introl eq_refl)).
    assert (Np.sum l <= INR (length l) * M)
      by (apply IH; intros; apply H; now right).
    lra.
Qed.

Lemma softmax_range (x p : Np.vec) :
  softmax x = Some p ->
  length p = length x /\
  forall j, (j < length p)%nat -> 0 < nth j p 0 <= 1.
Proof.
  intros H. assert (Hne : x <> []) by (intros ->; discriminate).
  destruct (max_spec Hne) as (m & Hm & _).
  rewrite (softmax_unfold _ Hm) in H. injection H as <-.
  split; [apply length_map|]. intros j Hj. rewrite length_map in Hj.
  set (S := Np.sum (map (fun u => exp (u - m)) x)).
  rewrite (@nth_map_in _ _ (fun v => exp (v - m) / S) x 0 0 j Hj).
  pose proof (sum_exp_pos m Hne) as HS. fold S in HS.
  pose proof (exp_pos (nth j x 0 - m)) as He.
  assert (Hle : exp (nth j x 0 - m) <= S).
  { apply sum_ge_member.
    - intros y Hy. apply in_map_iff in Hy as (u & <- & _).
      apply Rlt_le, exp_pos.
    - apply in_map_iff. exists (nth j x 0). split; [reflexivity|].
      now apply nth_In. }
  split.
  - now apply Rdiv_lt_0_compat.
  - apply (Rmult_le_reg_r S); [assumption|].
    unfold Rdiv. rewrite Rmult_assoc, Rinv_l by lra. lra.
Qed.

Lemma softmax_order (x p : Np.vec) (i j : nat) :
  softmax x = Some p ->
  (i < length p)%nat -> (j < length p)%nat ->
  nth i x 0 <= nth j x 0 -> nth i p 0 <= nth j p 0.
Proof.
  intros H Hi Hj Hle. assert (Hne : x <> []) by (intros ->; discriminate).
  destruct (max_spec Hne) as (m & Hm & _).
  rewrite (softmax_unfold _ Hm) in H. injection H as <-.
  rewrite length_map in Hi, Hj.
  set (S := Np.sum (map (fun u => exp (u - m)) x)).
  rewrite (@nth_map_in _ _ (fun v => exp (v - m) / S) x 0 0 i Hi),
    (@nth_map_in _ _ (fun v => exp (v - m) / S) x 0 0 j Hj).
  pose proof (sum_exp_pos m Hne) as HS. fold S in HS.
  assert (He : exp (nth i x 0 - m) <= exp (nth j x 0 - m)).
  { destruct Hle as [Hlt|E].
    - apply Rlt_le, exp_increasing. lra.
    - rewrite E. lra. }
  unfold Rdiv. apply Rmult_le_compat_r; [|exact He].
  apply Rlt_le, Rinv_0_lt_compat, HS.
Qed.

(** The probabilities returned by [softmax] are as many as the scores,
    each lies between 0 and 1, and a score that is not smaller than
    another one never gets the smaller probability. *)
Theorem softmax_probabilities (x p : Np.vec) :
  softmax x = Some p ->
  length p = length x /\
  (forall j, (j < length p)%nat -> 0 <= nth j p 0 <= 1) /\
  (forall i j, (i < length p)%nat -> (j < length p)%nat ->
     nth i x 0 <= nth j x 0 -> nth i p 0 <= nth j p 0).
Proof.
  intros H. destruct (softmax_range _ H) as [Hlen Hrange].
  split; [exact Hlen|]. split.
  - intros j Hj. destruct (Hrange j Hj) as [H0 H1]. split; [lra|exact H1].
  - intros i j Hi Hj. now apply (@softmax_order x p i j).
Qed.

Lemma softmax_probabilities_witness :
  let p := [1 / (1 + (exp (-0.8) + 0)); exp (-0.8) / (1 + (exp (-0.8) + 0))] in
  length p = length [0.9; 0.1] /\
  (forall j, (j < length p)%nat -> 0 <= nth j p 0 <= 1) /\
  (forall i j, (i < length p)%nat -> (j < length p)%nat ->
     nth i [0.9; 0.1] 0 <= nth j [0.9; 0.1] 0 -> nth i p 0 <= nth j p 0).
Proof.
  apply (@softmax_probabilities [0.9; 0.1]). exact cat_dog_softmax.
Defined.

(** ** [inference_on_samples] *)

Lemma infer_sample_inv (Image : Type) (image_features : Image -> Np.vec)
    (c : classifier Image) (k : nat) (r : prediction) :
  infer_sample image_features c k = Some r ->
  exists smp scores p i,
    nth_error (dataset c) k = Some smp /\
    mapM (Np.dot (image_features (image smp))) (label_embeddings c) = Some scores /\
    Np.argmax scores = Some i /\
    softmax scores = Some p /\
    nth_error (labels c) i = Some (predicted_label r) /\
    nth_error p i = Some (confidence r) /\
    index r = k /\
    true_label r = text smp /\
    all_scores r = Dict.of_list (combine (labels c) p).
Proof.
  unfold infer_sample, Np.dot_T.
  destruct (nth_error (dataset c) k) as [smp|] eqn:Hk; cbn [bind mapM];
    [|discriminate].
  destruct (mapM _ (label_embeddings c)) as [scores|] eqn:Hsc;
    cbn [bind nth_error]; [|discriminate].
  destruct (Np.argmax scores) as [i|] eqn:Hi; cbn [bind]; [|discriminate].
  destruct (softmax scores) as [p|] eqn:Hp; cbn [bind]; [|discriminate].
  destruct (nth_error (labels c) i) as [l|] eqn:Hl; cbn [bind]; [|discriminate].
  destruct (nth_error p i) as [conf|] eqn:Hc; cbn [bind]; [|discriminate].
  intros [= <-]. exists smp, scores, p, i. cbn. repeat split; assumption.
Qed.

Lemma get_fold_set_in (V : Type) (ps : list (string * V)) (d : Dict.t V)
    (k : string) (v : V) :
  Dict.get (fold_left (fun d kv => Dict.set d (fst kv) (snd kv)) ps d) k = Some v ->
  In (k, v) ps \/ Dict.get d k = Some v.
Proof.
  revert d. induction ps as [|[k0 v0] ps IH]; intros d H; cbn [fold_left] in H.
  - now right.
  - destruct (IH _ H) as [Hin|Hget]; [left; now right|]. cbn [fst snd] in Hget.
    destruct (String.eqb_spec k k0) as [->|Hne].
    + rewrite get_set_same in Hget. injection Hget as ->. left. now left.
    + rewrite get_set_other in Hget by assumption. now right.
Qed.

Lemma get_of_list_in (V : Type) (ps : list (string * V)) (k : string) (v : V) :
  Dict.get (Dict.of_list ps) k = Some v -> In (k, v) ps.
Proof.
  intros H. destruct (get_fold_set_in _ _ _ H) as [Hin|Hget]; [assumption|].
  discriminate.
Qed.

(** The confidence reported for a sample is the largest of the
    probabilities in [all_scores], and lies between one over the number
    of label embeddings and 1. *)
Theorem confidence_bounds
    (Image : Type) (image_features : Image -> Np.vec)
    (c : classifier Image) (k : nat) (r : prediction) :
  infer_sample image_features c k = Some r ->
  1 / INR (length (label_embeddings c)) <= confidence r <= 1 /\
  forall l v, Dict.get (all_scores r) l = Some v -> v <= confidence r.
Proof.
  intros H. destruct (infer_sample_inv _ _ _ H)
    as (smp & scores & p & i & _ & Hsc & Hi & Hp & _ & Hc & _ & _ & Hall).
  assert (Hne : scores <> []) by (intros ->; discriminate).
  destruct (argmax_softmax Hne) as (p' & i' & Hp' & Hip & Hi').
  rewrite Hp in Hp'. injection Hp' as <-.
  rewrite Hi in Hi'. injection Hi' as <-.
  destruct (argmax_bound _ Hip) as (Hlt & Hmax & _).
  rewrite (nth_error_nth' p 0 Hlt) in Hc. injection Hc as Hc.
  destruct (softmax_range _ Hp) as [Hlen Hrange].
  destruct (mapM_spec _ _ Hsc) as [Hls _].
  assert (Hin_le : forall y, In y p -> y <= confidence r).
  { intros y Hy. apply (In_nth _ _ 0) in Hy as (j & Hj & <-).
    rewrite <- Hc. now apply Hmax. }
  split; [split|].
  - pose proof (softmax_sum Hne Hp) as Hsum.
    pose proof (sum_le_length_max p Hin_le) as Hbound.
    rewrite Hsum, Hlen, Hls in Hbound.
    assert (Hn : 0 < INR (length (label_embeddings c))).
    { apply lt_0_INR. rewrite <- Hls, <- Hlen. lia. }
    apply (Rmult_le_reg_l (INR (length (label_embeddings c)))); [assumption|].
    unfold Rdiv. rewrite Rmult_1_l, Rinv_r by lra. exact Hbound.
  - rewrite <- Hc. apply Hrange. exact Hlt.
  - intros l v Hget. rewrite Hall in Hget. apply get_of_list_in in Hget.
    apply in_combine_r in Hget. now apply Hin_le.
Qed.

Lemma cat_dog_inference :
  exists r, infer_sample (fun v => v) cat_dog_classifier 0 = Some r.
Proof.
  assert (Hpred : predict (fun v => v) cat_dog_classifier
                    {| image := [0.9; 0.1]; text := "cat"%string |}
                  = Some ("cat"%string, [0.9; 0.1])).
  { unfold predict. simpl image. simpl label_embeddings.
    rewrite cat_dog_scores. cbn [bind]. rewrite argmax_pair.
    destruct (Rlt_dec 0.9 0.1) as [Hlt|_]; [exfalso; lra|reflexivity]. }
  destruct (@infer_sample_spec Np.vec (fun v => v) cat_dog_classifier 0
              {| image := [0.9; 0.1]; text := "cat"%string |}
              [0.9; 0.1] "cat"%string eq_refl Hpred)
    as (p & i & _ & _ & _ & _ & _ & Hinf).
  eexists. exact Hinf.
Qed.

Lemma confidence_bounds_witness :
  exists r,
    infer_sample (fun v => v) cat_dog_classifier 0 = Some r /\
    1 / INR (length (label_embeddings cat_dog_classifier)) <= confidence r <= 1 /\
    forall l v, Dict.get (all_scores r) l = Some v -> v <= confidence r.
Proof.
  destruct cat_dog_inference as [r Hr]. exists r. split; [exact Hr|].
  apply (@confidence_bounds Np.vec (fun v => v) cat_dog_classifier 0 r Hr).
Defined.

Lemma mapM_map_inv (A B : Type) (f : A -> option B) (g : B -> A)
    (l : list A) (bs : list B) :
  (forall a b, f a = Some b -> g b = a) ->
  mapM f l = Some bs -> map g bs = l.
Proof.
  intros Hg. revert bs. induction l as [|a l IH]; intros bs; cbn [mapM].
  - now intros [= <-].
  - destruct (f a) as [b|] eqn:Ea; cbn [bind]; [|discriminate].
    destruct (mapM f l) as [bs'|]; cbn [bind]; [|discriminate].
    intros [= <-]. cbn [map]. now rewrite (Hg _ _ Ea), (IH bs' eq_refl).
Qed.

Lemma inference_on_samples_inv
    (Image : Type) (image_features : Image -> Np.vec)
    (c : classifier Image) (sample_indices : list nat) (rs : list prediction) :
  inference_on_samples image_features c sample_indices = Some rs ->
  map index rs = sample_indices /\
  (forall k, In k sample_indices -> (k < length (dataset c))%nat) /\
  forall r, In r rs ->
    exists smp,
      nth_error (dataset c) (index r) = Some smp /\
      true_label r = text smp /\
      In (predicted_label r) (labels c).
Proof.
  intros H. unfold inference_on_samples in H.
  assert (Hidx : map index rs = sample_indices).
  { apply (@mapM_map_inv _ _ (infer_sample image_features c) index
             sample_indices rs); [|exact H].
    intros k r Hr. now destruct (infer_sample_inv _ _ _ Hr)
      as (? & ? & ? & ? & _ & _ & _ & _ & _ & _ & Hi & _). }
  assert (Hres : forall r, In r rs ->
            exists smp,
              nth_error (dataset c) (index r) = Some smp /\
              true_label r = text smp /\
              In (predicted_label r) (labels c)).
  { intros r Hr. destruct (mapM_in _ _ H _ Hr) as (k & _ & Hk).
    destruct (infer_sample_inv _ _ _ Hk)
      as (smp & ? & ? & i & Hs & _ & _ & _ & Hl & _ & Hi & Ht & _).
    exists smp. rewrite Hi. repeat split; try assumption.
    now apply nth_error_In in Hl. }
  split; [assumption|]. split; [|assumption].
  intros k Hk. rewrite <- Hidx in Hk.
  apply in_map_iff in Hk as (r & <- & Hr).
  destruct (Hres r Hr) as (smp & Hs & _). apply nth_error_Some. congruence.
Qed.

(** Whenever [inference_on_samples] returns, it holds one result per
    requested index, in the order requested; every requested index lies
    inside the dataset, every result carries the true label of its
    sample, and every predicted label is a vocabulary entry. *)
Theorem inference_results_follow_indices
    (Image : Type) (image_features : Image -> Np.vec)
    (c : classifier Image) (sample_indices : list nat) (rs : list prediction) :
  inference_on_samples image_features c sample_indices = Some rs ->
  map index rs = sample_indices /\
  (forall k, In k sample_indices -> (k < length (dataset c))%nat) /\
  forall r, In r rs ->
    exists smp,
      nth_error (dataset c) (index r) = Some smp /\
      true_label r = text smp /\
      In (predicted_label r) (labels c).
Proof. apply inference_on_samples_inv. Qed.

Lemma inference_results_follow_indices_witness :
  exists rs,
    inference_on_samples (fun v => v) cat_dog_classifier [0%nat] = Some rs /\
    map index rs = [0%nat] /\
    (forall k, In k [0%nat] -> (k < length (dataset cat_dog_classifier))%nat) /\
    forall r, In r rs ->
      exists smp,
        nth_error (dataset cat_dog_classifier) (index r) = Some smp /\
        true_label r = text smp /\
        In (predicted_label r) (labels cat_dog_classifier).
Proof.
  destruct cat_dog_inference as [r Hr].
  assert (H : inference_on_samples (fun v => v) cat_dog_classifier [0%nat]
              = Some [r]).
  { unfold inference_on_samples. cbn [mapM]. rewrite Hr. reflexivity. }
  exists [r]. split; [exact H|].
  apply (@inference_results_follow_indices Np.vec (fun v => v)
           cat_dog_classifier [0%nat] [r] H).
Defined.

(** An index outside the dataset makes [inference_on_samples] raise,
    whatever the other indices are: no partial list is returned. *)
Theorem inference_index_out_of_range
    (Image : Type) (image_features : Image -> Np.vec)
    (c : classifier Image) (sample_indices : list nat) (k : nat) :
  In k sample_indices ->
  (length (dataset c) <= k)%nat ->
  inference_on_samples image_features c sample_indices = None.
Proof.
  intros Hin Hk.
  destruct (inference_on_samples image_features c sample_indices)
    as [rs|] eqn:E; [|reflexivity].
  destruct (inference_on_samples_inv _ _ _ E) as (_ & Hb & _).
  specialize (Hb k Hin). lia.
Qed.

Lemma inference_index_out_of_range_witness :
  inference_on_samples (fun v => v) cat_dog_classifier [0; 5]%nat = None.
Proof.
  apply (@inference_index_out_of_range Np.vec (fun v => v) cat_dog_classifier
           [0; 5]%nat 5%nat).
  - right. now left.
  - simpl. lia.
Defined.

Lemma set_absent (V : Type) (d : Dict.t V) (k : string) (v : V) :
  ~ In k (map fst d) -> Dict.set d k v = d ++ [(k, v)].
Proof.
  induction d as [|[k0 v0] d IH]; intros Hnin; cbn [Dict.set app]; [reflexivity|].
  destruct (String.eqb_spec k k0) as [->|Hne].
  - exfalso. apply Hnin. now left.
  - rewrite IH; [reflexivity|]. intros H. apply Hnin. now right.
Qed.

Lemma fold_set_fresh (V : Type) (ps : list (string * V)) (d : Dict.t V) :
  NoDup (map fst d ++ map fst ps) ->
  fold_left (fun d kv => Dict.set d (fst kv) (snd kv)) ps d = d ++ ps.
Proof.
  revert d. induction ps as [|[k v] ps IH]; intros d Hnd; cbn [fold_left].
  - now rewrite app_nil_r.
  - cbn [fst snd map] in *. rewrite set_absent.
    + rewrite IH; [now rewrite <- app_assoc|].
      rewrite map_app. cbn [map fst]. now rewrite <- app_assoc.
    + apply NoDup_remove_2 in Hnd. intros H. apply Hnd.
      apply in_or_app. now left.
Qed.

Lemma of_list_fresh (V : Type) (ps : list (string * V)) :
  NoDup (map fst ps) -> Dict.of_list ps = ps.
Proof. intros H. unfold Dict.of_list. now rewrite fold_set_fresh. Qed.

Lemma combine_nth_error_in (A B : Type) (l : list A) (l' : list B)
    (i : nat) (a : A) (b : B) :
  nth_error l i = Some a -> nth_error l' i = Some b -> In (a, b) (combine l l').
Proof.
  revert l' i. induction l as [|x l IH]; intros [|y l'] [|i] Ha Hb;
    cbn in *; try discriminate.
  - injection Ha as ->. injection Hb as ->. now left.
  - right. eapply IH; eassumption.
Qed.

(** For a vocabulary without duplicates, one entry per label embedding:
    [all_scores] lists the vocabulary in order, each label with its
    probability; the probabilities add up to 1 and the entry of the
    predicted label is the reported confidence. *)
Theorem all_scores_by_label
    (Image : Type) (image_features : Image -> Np.vec)
    (c : classifier Image) (k : nat) (r : prediction) :
  NoDup (labels c) ->
  length (labels c) = length (label_embeddings c) ->
  infer_sample image_features c k = Some r ->
  map fst (all_scores r) = labels c /\
  Np.sum (map snd (all_scores r)) = 1 /\
  Dict.get (all_scores r) (predicted_label r) = Some (confidence r).
Proof.
  intros Hnd Hlen H. destruct (infer_sample_inv _ _ _ H)
    as (smp & scores & p & i & _ & Hsc & Hi & Hp & Hl & Hc & _ & _ & Hall).
  assert (Hne : scores <> []) by (intros ->; discriminate).
  destruct (softmax_range _ Hp) as [Hlp _].
  destruct (mapM_spec _ _ Hsc) as [Hls _].
  assert (Hlens : length (labels c) = length p) by congruence.
  assert (Hfst : map fst (combine (labels c) p) = labels c)
    by (now apply map_fst_combine).
  assert (Hfresh : all_scores r = combine (labels c) p).
  { rewrite Hall. apply of_list_fresh. now rewrite Hfst. }
  split; [now rewrite Hfresh|]. split.
  - rewrite Hfresh, map_snd_combine by assumption. apply (softmax_sum Hne Hp).
  - rewrite Hall. apply get_of_list; [now rewrite Hfst|].
    eapply combine_nth_error_in; eassumption.
Qed.

Lemma all_scores_by_label_witness :
  exists r,
    infer_sample (fun v => v) cat_dog_classifier 0 = Some r /\
    map fst (all_scores r) = labels cat_dog_classifier /\
    Np.sum (map snd (all_scores r)) = 1 /\
    Dict.get (all_scores r) (predicted_label r) = Some (confidence r).
Proof.
  destruct cat_dog_inference as [r Hr]. exists r. split; [exact Hr|].
  apply (@all_scores_by_label Np.vec (fun v => v) cat_dog_classifier 0 r).
  - simpl. repeat constructor; simpl; intuition discriminate.
  - reflexivity.
  - exact Hr.
Defined.

(** ** [prepare_dataset]: the vocabulary and the embedding matrix *)

(** [prepare_dataset] keeps the dataset, and its vocabulary lists
    exactly the labels that occur in the dataset, each of them once,
    with one embedding row per entry. *)
Theorem vocabulary_distinct_exact
    (Image : Type) (text_features : string -> Np.vec) (ds : list (sample Image)) :
  let c := prepare_dataset text_features ds in
  dataset c = ds /\
  NoDup (labels c) /\
  (forall l, In l (labels c) <-> exists smp, In smp ds /\ text smp = l) /\
  length (label_embeddings c) = length (labels c).
Proof.
  cbn [prepare_dataset dataset labels label_embeddings].
  split; [reflexivity|].
  split; [apply ascending_NoDup, sorted_set_ascending|]. split.
  - intros l. rewrite in_sorted_set, in_map_iff. split.
    + intros (smp & E & Hin). now exists smp.
    + intros (smp & Hin & E). now exists smp.
  - unfold Np.div_rows. now rewrite !length_map.
Qed.

(** The vocabulary and the label embedding matrix depend only on the
    set of labels that occur in the dataset: neither the order of the
    samples, nor how often a label occurs, nor the images matter. *)
Theorem prepare_dataset_depends_on_label_set
    (Image : Type) (text_features : string -> Np.vec)
    (ds1 ds2 : list (sample Image)) :
  (forall l, In l (map (@text Image) ds1) <-> In l (map (@text Image) ds2)) ->
  labels (prepare_dataset text_features ds1)
    = labels (prepare_dataset text_features ds2) /\
  label_embeddings (prepare_dataset text_features ds1)
    = label_embeddings (prepare_dataset text_features ds2).
Proof.
  intros H. cbn [prepare_dataset labels label_embeddings].
  assert (E : sorted_set (map (@text Image) ds1)
              = sorted_set (map (@text Image) ds2)).
  { apply ascending_unique; try apply sorted_set_ascending.
    intros y. now rewrite !in_sorted_set. }
  now rewrite E.
Qed.

Lemma prepare_dataset_depends_on_label_set_witness :
  let ds2 := [ {| image := [0; 1]; text := "dog"%string |};
               {| image := [1; 0]; text := "cat"%string |};
               {| image := [0; 1]; text := "dog"%string |} ] in
  labels (prepare_dataset cat_dog_features two_cat_like_images)
    = labels (prepare_dataset cat_dog_features ds2) /\
  label_embeddings (prepare_dataset cat_dog_features two_cat_like_images)
    = label_embeddings (prepare_dataset cat_dog_features ds2).
Proof.
  apply (@prepare_dataset_depends_on_label_set Np.vec cat_dog_features).
  intros l. simpl. intuition.
Defined.

Lemma column_div_rows (D : nat) (M : Np.matrix) (v : Np.vec) (j : nat) :
  rectangular D M -> length v = D -> (j < D)%nat ->
  column (Np.div_rows M v) j = map (fun x => x / nth j v 0) (column M j).
Proof.
  intros Hrect Hv Hj. unfold column, Np.div_rows. rewrite !map_map.
  apply map_ext_in. intros row Hrow.
  apply nth_zip_with; [rewrite (Hrect row Hrow)|rewrite Hv]; exact Hj.
Qed.

Lemma sum_squares_nonneg (l : Np.vec) : 0 <= Np.sum (map (fun x => x * x) l).
Proof.
  apply sum_nonneg. intros y Hy. apply in_map_iff in Hy as (x & <- & _). nra.
Qed.

(** After [prepare_dataset], every column of the label embedding matrix
    whose raw entries are not all zero has Euclidean norm 1 across the
    labels: the normalisation makes the columns, not the rows, unit
    vectors. *)
Theorem label_embedding_columns_have_unit_norm
    (Image : Type) (text_features : string -> Np.vec)
    (ds : list (sample Image)) (D j : nat) :
  (forall s, length (text_features s) = D) ->
  (j < D)%nat ->
  let c := prepare_dataset text_features ds in
  let raw := map text_features (map clip_label (labels c)) in
  column_norm raw j <> 0 ->
  column_norm (label_embeddings c) j = 1.
Proof.
  intros Hdim Hj c raw Hnz.
  assert (Hrect : rectangular D raw).
  { intros row Hin. apply in_map_iff in Hin as (s & <- & _). apply Hdim. }
  assert (Hne : raw <> []).
  { intros E. apply Hnz. unfold column_norm. rewrite E. cbn. apply sqrt_0. }
  destruct (norm_axis0_spec Hne Hrect) as [Hlen Hnth].
  change (label_embeddings c) with (Np.div_rows raw (Np.norm_axis0 raw)).
  unfold column_norm at 1.
  rewrite (@column_div_rows D raw (Np.norm_axis0 raw) j Hrect Hlen Hj),
    (Hnth j Hj), map_map.
  set (n := column_norm raw j) in *.
  assert (E : map (fun x => x / n * (x / n)) (column raw j)
              = map (fun e => e / (n * n)) (map (fun x => x * x) (column raw j))).
  { rewrite map_map. apply map_ext. intros x. field. exact Hnz. }
  rewrite E, sum_map_div.
  assert (Hsq : n * n = Np.sum (map (fun x => x * x) (column raw j))).
  { unfold n, column_norm. apply sqrt_sqrt, sum_squares_nonneg. }
  rewrite <- Hsq.
  replace (n * n / (n * n)) with 1 by (field; exact Hnz).
  apply sqrt_1.
Qed.

Lemma label_embedding_columns_have_unit_norm_witness :
  let c := prepare_dataset cat_dog_features two_cat_like_images in
  column_norm (label_embeddings c) 0 = 1.
Proof.
  apply (@label_embedding_columns_have_unit_norm Np.vec cat_dog_features
           two_cat_like_images 2 0).
  - intros s. unfold cat_dog_features. now destruct (String.eqb s _).
  - lia.
  - change (column_norm [[1; 0]; [0; 1]] 0 <> 0).
    unfold column_norm, column. cbn [map nth Np.sum fold_right].
    replace (1 * 1 + (0 * 0 + 0)) with 1 by lra. rewrite sqrt_1. lra.
Defined.

(** ** Rescaled image embeddings *)

Lemma dot_scale (k : R) (a b : Np.vec) :
  Np.dot (map (Rmult k) a) b = option_map (Rmult k) (Np.dot a b).
Proof.
  revert b. induction a as [|x a IH]; intros [|y b]; cbn [map Np.dot]; try reflexivity.
  - cbn. f_equal. ring.
  - rewrite IH. destruct (Np.dot a b) as [r|]; cbn; [|reflexivity].
    f_equal. ring.
Qed.

Lemma mapM_ext (A B : Type) (f g : A -> option B) (l : list A) :
  (forall a, f a = g a) -> mapM f l = mapM g l.
Proof.
  intros H. induction l as [|a l IH]; cbn [mapM]; [reflexivity|].
  now rewrite H, IH.
Qed.

Lemma mapM_option_map (A B C : Type) (f : A -> option B) (h : B -> C)
    (l : list A) :
  mapM (fun a => option_map h (f a)) l = option_map (map h) (mapM f l).
Proof.
  induction l as [|a l IH]; cbn [mapM]; [reflexivity|].
  rewrite IH. destruct (f a); cbn; [|reflexivity].
  now destruct (mapM f l).
Qed.

Lemma predict_scale (Image : Type) (f g : Image -> Np.vec) (k : R)
    (c : classifier Image) (smp : sample Image) :
  0 < k ->
  (forall img, g img = map (Rmult k) (f img)) ->
  predict g c smp
  = option_map (fun p => (fst p, map (Rmult k) (snd p))) (predict f c smp).
Proof.
  intros Hk Hg. unfold predict. rewrite Hg.
  rewrite (mapM_ext _ (fun b => option_map (Rmult k) (Np.dot (f (image smp)) b))
             _ (dot_scale k (f (image smp)))).
  rewrite mapM_option_map.
  destruct (mapM (Np.dot (f (image smp))) (label_embeddings c)) as [sc|];
    cbn [option_map bind]; [|reflexivity].
  rewrite (argmax_monotone (Rmult k) sc)
    by (intros u v Huv; now apply Rmult_lt_compat_l).
  destruct (Np.argmax sc) as [idx|]; cbn [bind]; [|reflexivity].
  now destruct (nth_error (labels c) idx).
Qed.

(** Multiplying every image embedding by the same positive factor
    changes nothing in the result of [evaluate] but the raw scores,
    which are multiplied by that factor: the same exception or the same
    metrics, report, predictions and true labels. *)
Theorem evaluate_invariant_under_rescaling
    (Image : Type) (f g : Image -> Np.vec) (k : R)
    (c : classifier Image) (batch_size : nat) :
  0 < k ->
  (forall img, g img = map (Rmult k) (f img)) ->
  evaluate g c batch_size =
  option_map
    (fun ev => {| eval_metrics := eval_metrics ev;
                  detailed_report := detailed_report ev;
                  predictions := predictions ev;
                  true_labels := true_labels ev;
                  raw_scores := map (map (Rmult k)) (raw_scores ev) |})
    (evaluate f c batch_size).
Proof.
  intros Hk Hg. destruct batch_size as [|b]; [reflexivity|].
  rewrite !evaluate_eq by lia.
  assert (E : mapM (predict g c) (dataset c)
              = option_map
                  (map (fun p => (fst p, map (Rmult k) (snd p))))
                  (mapM (predict f c) (dataset c))).
  { rewrite (mapM_ext _ _ _ (fun smp => @predict_scale Image f g k c smp Hk Hg)).
    apply (mapM_option_map (predict f c)). }
  rewrite E.
  destruct (mapM (predict f c) (dataset c)) as [prs|]; cbn [option_map bind];
    [|reflexivity].
  rewrite !map_map. cbn [fst snd]. unfold compute_metrics.
  destruct (Sklearn.precision_recall_fscore_support_weighted _ _) as [[p r] q].
  destruct (Sklearn.classification_report _ _ _) as [report|];
    cbn [bind option_map]; [|reflexivity].
  cbn [eval_metrics detailed_report predictions true_labels raw_scores].
  now rewrite map_map.
Qed.

Lemma evaluate_invariant_under_rescaling_witness :
  evaluate (map (Rmult 2))
    (prepare_dataset cat_dog_features two_cat_like_images) 32 =
  option_map
    (fun ev => {| eval_metrics := eval_metrics ev;
                  detailed_report := detailed_report ev;
                  predictions := predictions ev;
                  true_labels := true_labels ev;
                  raw_scores := map (map (Rmult 2)) (raw_scores ev) |})
    (evaluate (fun v => v)
       (prepare_dataset cat_dog_features two_cat_like_images) 32).
Proof.
  apply (@evaluate_invariant_under_rescaling Np.vec (fun v => v)
           (map (Rmult 2)) 2).
  - lra.
  - reflexivity.
Defined.

(** ** [compare_implementations] *)

Lemma mapM_none_iff (A B : Type) (f : A -> option B) (l : list A) :
  mapM f l = None <-> exists a, In a l /\ f a = None.
Proof.
  induction l as [|a l IH]; cbn [mapM].
  - split; [discriminate|]. intros (a & [] & _).
  - destruct (f a) as [b|] eqn:Ea; cbn [bind].
    + destruct (mapM f l) as [bs|]; cbn [bind].
      * split; [discriminate|]. intros (a' & [<- | Hin] & Ha'); [congruence|].
        assert (H : Some bs = None) by (apply IH; now exists a').
        discriminate.
      * split; [|reflexivity]. intros _.
        destruct (proj1 IH eq_refl) as (a' & Hin & Ha'). exists a'.
        split; [now right|assumption].
    + split; [|reflexivity]. intros _. exists a. split; [now left|assumption].
Qed.

Lemma metric_values_none_iff (V : Type) (results : Dict.t V) :
  metric_values results = None <->
  exists key, In key metric_keys /\ Dict.get results key = None.
Proof. apply mapM_none_iff. Qed.

Lemma metric_values_length (V : Type) (results : Dict.t V) (values : list V) :
  metric_values results = Some values -> length values = 4%nat.
Proof. intros H. now destruct (mapM_spec _ _ H) as [-> _]. Qed.

Section ComparisonRows.

Variable V : Type.

Lemma add_scores_none_iff (key : string) (items : list (string * Dict.t V))
    (d : Dict.t (cell V)) :
  add_scores key items d = None <->
  exists name res, In (name, res) items /\ Dict.get res key = None.
Proof.
  revert d. induction items as [|[n res] items IH]; intros d; cbn [add_scores].
  - split; [discriminate|]. intros (? & ? & [] & _).
  - destruct (Dict.get res key) as [v|] eqn:Ev; cbn [bind].
    + rewrite IH. split.
      * intros (n' & r' & Hin & Hn). exists n', r'. split; [now right|assumption].
      * intros (n' & r' & [[= <- <-] | Hin] & Hn); [congruence|]. now exists n', r'.
    + split; [|reflexivity]. intros _. exists n, res. split; [now left|assumption].
Qed.

Lemma add_scores_get_other (key : string) (items : list (string * Dict.t V))
    (d d' : Dict.t (cell V)) (name : string) :
  add_scores key items d = Some d' ->
  ~ In name (map fst items) ->
  Dict.get d' name = Dict.get d name.
Proof.
  revert d. induction items as [|[n res] items IH]; intros d; cbn [add_scores].
  - now intros [= <-].
  - destruct (Dict.get res key) as [v|]; cbn [bind]; [|discriminate].
    intros H Hnin. rewrite (IH _ H) by (intros Hin; apply Hnin; now right).
    apply get_set_other. intros ->. apply Hnin. now left.
Qed.

Lemma add_scores_get (key : string) (items : list (string * Dict.t V))
    (d d' : Dict.t (cell V)) (name : string) (res : Dict.t V) :
  NoDup (map fst items) ->
  add_scores key items d = Some d' ->
  In (name, res) items ->
  exists v, Dict.get res key = Some v /\ Dict.get d' name = Some (Score v).
Proof.
  revert d. induction items as [|[n r] items IH]; intros d Hnd; cbn [add_scores];
    [intros _ []|].
  inversion Hnd as [|? ? Hnin Hnd']; subst.
  destruct (Dict.get r key) as [v|] eqn:Ev; cbn [bind]; [|discriminate].
  intros H [[= <- <-] | Hin].
  - exists v. split; [assumption|].
    rewrite (@add_scores_get_other key items _ d' _ H Hnin). apply get_set_same.
  - now apply (IH _ Hnd' H).
Qed.

Lemma add_scores_keys (key : string) (items : list (string * Dict.t V))
    (d d' : Dict.t (cell V)) :
  NoDup (map fst d ++ map fst items) ->
  add_scores key items d = Some d' ->
  map fst d' = map fst d ++ map fst items.
Proof.
  revert d. induction items as [|[n r] items IH]; intros d Hnd; cbn [add_scores].
  - intros [= <-]. now rewrite app_nil_r.
  - destruct (Dict.get r key) as [v|]; cbn [bind]; [|discriminate].
    intros H. cbn [map fst] in *.
    assert (Hfresh : ~ In n (map fst d)).
    { apply NoDup_remove_2 in Hnd. intros Hin. apply Hnd.
      apply in_or_app. now left. }
    assert (Hset : map fst (Dict.set d n (Score v)) = map fst d ++ [n]).
    { rewrite set_absent, map_app by assumption. reflexivity. }
    rewrite (IH (Dict.set d n (Score v))).
    + rewrite Hset. now rewrite <- app_assoc.
    + rewrite Hset, <- app_assoc. exact Hnd.
    + exact H.
Qed.

Lemma compare_implementations_none_iff
    (implementations_results : Dict.t (Dict.t V)) :
  compare_implementations implementations_results = None <->
  exists name res key,
    In (name, res) implementations_results /\
    In key metric_keys /\
    Dict.get res key = None.
Proof.
  unfold compare_implementations. rewrite mapM_none_iff. split.
  - intros ([metric key] & Hin & H). apply in_combine_r in Hin.
    apply add_scores_none_iff in H as (name & res & Hi & Hn).
    now exists name, res, key.
  - intros (name & res & key & Hi & Hk & Hn).
    assert (Hm : exists metric, In (metric, key) (combine metric_names metric_keys)).
    { cbn in Hk. destruct Hk as [<- | [<- | [<- | [<- | []]]]];
        eexists; cbn; eauto 6. }
    destruct Hm as [metric Hm]. exists (metric, key). split; [assumption|].
    apply add_scores_none_iff. now exists name, res.
Qed.

End ComparisonRows.

(** [compare_implementations] raises exactly when some implementation
    lacks one of the four metric keys; it returns even for an empty
    dictionary of implementations. *)
Theorem compare_implementations_raises_iff
    (V : Type) (implementations_results : Dict.t (Dict.t V)) :
  compare_implementations implementations_results = None <->
  exists name res key,
    In (name, res) implementations_results /\
    In key metric_keys /\
    Dict.get res key = None.
Proof. apply compare_implementations_none_iff. Qed.

(** When every implementation holds the four metric keys,
    [compare_implementations] returns four rows, one per metric in the
    order accuracy, precision, recall, F1.  Each row maps every
    implementation name to that implementation's value for the row's
    key; unless an implementation is itself named [metric], the row also
    maps [metric] to the display name of the metric, and its keys are
    [metric] followed by the implementation names in their order. *)
Theorem compare_implementations_rows
    (V : Type) (implementations_results : Dict.t (Dict.t V)) :
  NoDup (map fst implementations_results) ->
  (forall name res key,
      In (name, res) implementations_results -> In key metric_keys ->
      Dict.get res key <> None) ->
  exists rows,
    compare_implementations implementations_results = Some rows /\
    length rows = 4%nat /\
    forall j metric key,
      nth_error metric_names j = Some metric ->
      nth_error metric_keys j = Some key ->
      exists row,
        nth_error rows j = Some row /\
        (forall name res,
            In (name, res) implementations_results ->
            exists v, Dict.get res key = Some v /\
                      Dict.get row name = Some (Score v)) /\
        (~ In "metric"%string (map fst implementations_results) ->
         Dict.get row "metric" = Some (Name V metric) /\
         map fst row = "metric"%string :: map fst implementations_results).
Proof.
  intros Hnd Hkeys.
  destruct (compare_implementations implementations_results) as [rows|] eqn:E.
  2:{ apply compare_implementations_none_iff in E
        as (name & res & key & Hi & Hk & Hn).
      exfalso. now apply (Hkeys name res key). }
  exists rows. split; [reflexivity|].
  unfold compare_implementations in E.
  destruct (mapM_spec _ _ E) as [Hlen Hnth].
  split; [exact Hlen|].
  intros j metric key Hm Hk.
  assert (Hj : (j < length metric_keys)%nat)
    by (apply nth_error_Some; congruence).
  specialize (Hnth j (EmptyString, EmptyString) [] Hj).
  rewrite (combine_nth metric_names metric_keys j EmptyString EmptyString eq_refl)
    in Hnth.
  rewrite (nth_error_nth _ _ EmptyString Hm),
    (nth_error_nth _ _ EmptyString Hk) in Hnth.
  cbv beta iota in Hnth.
  exists (nth j rows []).
  split; [apply nth_error_nth'; rewrite Hlen; exact Hj|]. split.
  - intros name res Hin.
    apply (@add_scores_get V key implementations_results _ _ name res Hnd Hnth Hin).
  - intros Hfresh. split.
    + rewrite (@add_scores_get_other V key implementations_results _ _ _
                 Hnth Hfresh).
      reflexivity.
    + assert (Hnd' : NoDup (map fst [("metric"%string, Name V metric)]
                            ++ map fst implementations_results))
        by (cbn [map fst app]; now constructor).
      rewrite (@add_scores_keys V key implementations_results _ _ Hnd' Hnth).
      reflexivity.
Qed.

Lemma notebook_results_keys (name : string) (res : Dict.t Q) (key : string) :
  In (name, res) notebook_results -> In key metric_keys ->
  Dict.get res key <> None.
Proof.
  intros [[= <- <-] | [[= <- <-] | [[= <- <-] | []]]]
         [<- | [<- | [<- | [<- | []]]]]; discriminate.
Qed.

Lemma notebook_results_names : NoDup (map fst notebook_results).
Proof.
  cbn. repeat constructor; cbn; intuition discriminate.
Qed.

Lemma compare_implementations_rows_witness :
  exists rows,
    compare_implementations notebook_results = Some rows /\
    length rows = 4%nat /\
    forall j metric key,
      nth_error metric_names j = Some metric ->
      nth_error metric_keys j = Some key ->
      exists row,
        nth_error rows j = Some row /\
        (forall name res,
            In (name, res) notebook_results ->
            exists v, Dict.get res key = Some v /\
                      Dict.get row name = Some (Score v)) /\
        (~ In "metric"%string (map fst notebook_results) ->
         Dict.get row "metric" = Some (Name Q metric) /\
         map fst row = "metric"%string :: map fst notebook_results).
Proof.
  apply (@compare_implementations_rows Q notebook_results).
  - exact notebook_results_names.
  - exact notebook_results_keys.
Defined.

(** ** Logged computations *)

Section Runs.

Variable V : Type.

Lemma snd_seq_run (A B : Type) (m : Plt.run V A) (k : A -> Plt.run V B) :
  snd (Plt.seq_run m k)
  = match snd m with Some a => snd (k a) | None => None end.
Proof.
  destruct m as [log [a|]]; cbn; [|reflexivity]. now destruct (k a).
Qed.

Lemma fst_seq_run (A B : Type) (m : Plt.run V A) (k : A -> Plt.run V B) :
  fst (Plt.seq_run m k)
  = fst m ++ match snd m with Some a => fst (k a) | None => [] end.
Proof.
  destruct m as [log [a|]]; cbn; [|now rewrite app_nil_r]. now destruct (k a).
Qed.

Lemma each_finishes_iff (A : Type) (body : A -> Plt.run V unit) (l : list A) :
  snd (Plt.each body l) = Some tt <-> forall a, In a l -> snd (body a) = Some tt.
Proof.
  induction l as [|a l IH]; cbn [Plt.each].
  - split; [intros _ a []|reflexivity].
  - rewrite snd_seq_run. split.
    + intros H a' [<- | Hin].
      * destruct (snd (body a)) as [[]|]; [reflexivity|discriminate].
      * destruct (snd (body a)); [|discriminate]. now apply IH.
    + intros H. rewrite (H a (or_introl eq_refl)). apply IH.
      intros a' Ha'. apply H. now right.
Qed.

Lemma each_log (A : Type) (P : Plt.call V -> Prop)
    (body : A -> Plt.run V unit) (l : list A) :
  (forall a, In a l -> Forall P (fst (body a))) ->
  Forall P (fst (Plt.each body l)).
Proof.
  induction l as [|a l IH]; intros H; cbn [Plt.each].
  - constructor.
  - rewrite fst_seq_run. apply Forall_app. split.
    + apply H. now left.
    + destruct (snd (body a)); [|constructor].
      apply IH. intros a' Ha'. apply H. now right.
Qed.

Lemma each_finished (A : Type) (body : A -> Plt.run V unit)
    (h : A -> list (Plt.call V)) (l : list A) :
  (forall a, In a l -> body a = (h a, Some tt)) ->
  Plt.each body l = (flat_map h l, Some tt).
Proof.
  induction l as [|a l IH]; intros H; cbn [Plt.each flat_map]; [reflexivity|].
  rewrite (H a (or_introl eq_refl)), IH by (intros; apply H; now right).
  reflexivity.
Qed.

End Runs.

Lemma in_enumerate_from (A : Type) (l : list A) (s i : nat) (a : A) :
  In (i, a) (combine (seq s (length l)) l) <->
  (s <= i)%nat /\ nth_error l (i - s) = Some a.
Proof.
  revert s. induction l as [|x l IH]; intros s; cbn [length seq combine].
  - split; [intros []|]. intros [_ H]. now destruct (i - s)%nat.
  - cbn [In]. rewrite IH. split.
    + intros [[= <- <-] | [Hle H]].
      * rewrite Nat.sub_diag. split; [lia|reflexivity].
      * split; [lia|]. replace (i - s)%nat with (S (i - S s)) by lia. exact H.
    + intros [Hle H]. destruct (Nat.eq_dec i s) as [->|Hne].
      * rewrite Nat.sub_diag in H. injection H as <-. now left.
      * right. split; [lia|].
        replace (i - s)%nat with (S (i - S s)) in H by lia. exact H.
Qed.

Lemma in_enumerate (A : Type) (l : list A) (i : nat) (a : A) :
  In (i, a) (enumerate l) <-> nth_error l i = Some a.
Proof.
  unfold enumerate. rewrite in_enumerate_from, Nat.sub_0_r.
  split; [tauto|]. intros H. split; [lia|assumption].
Qed.

Lemma enumerate_length (A : Type) (l : list A) :
  length (enumerate l) = length l.
Proof.
  unfold enumerate. rewrite length_combine, length_seq. lia.
Qed.

Lemma each_finished_map (V A : Type) (body : A -> Plt.run V unit)
    (h : A -> Plt.call V) (l : list A) :
  (forall a, In a l -> body a = ([h a], Some tt)) ->
  Plt.each body l = (map h l, Some tt).
Proof.
  induction l as [|a l IH]; intros H; cbn [Plt.each map]; [reflexivity|].
  rewrite (H a (or_introl eq_refl)), IH by (intros; apply H; now right).
  reflexivity.
Qed.

Ltac run_simpl :=
  cbn [Plt.seq_run Plt.eval Plt.emit Plt.ret Plt.each fst snd app].

(** ** [plot_implementations_comparison] *)

Section PlotComparison.

Variable V : Type.

Lemma plot_lines_finishes_iff (impls : Dict.t (Dict.t V)) :
  snd (plot_lines impls) = Some tt <->
  (length impls <= 5)%nat /\
  forall name res, In (name, res) impls -> metric_values res <> None.
Proof.
  unfold plot_lines. rewrite each_finishes_iff. split.
  - intros H. split.
    + destruct (Nat.le_gt_cases (length impls) 5) as [Hle|Hgt]; [assumption|].
      destruct (nth_error impls 5) as [[name res]|] eqn:E.
      * apply in_enumerate in E. specialize (H _ E). cbv beta iota in H.
        destruct (metric_values res); cbn in H; discriminate.
      * apply nth_error_None in E. lia.
    + intros name res Hin Hnone.
      apply In_nth_error in Hin as [i Hi]. apply in_enumerate in Hi.
      specialize (H _ Hi). cbv beta iota in H.
      rewrite Hnone in H. cbn in H. discriminate.
  - intros [Hlen Hkeys] [idx [name res]] Hin. apply in_enumerate in Hin.
    cbv beta iota.
    destruct (metric_values res) as [values|] eqn:Ev.
    + destruct (nth_error markers idx) as [marker|] eqn:Em.
      * reflexivity.
      * apply nth_error_None in Em. cbn [length markers] in Em.
        assert ((idx < length impls)%nat) by (apply nth_error_Some; congruence).
        lia.
    + exfalso. apply nth_error_In in Hin. now apply (Hkeys name res).
Qed.

Lemma plot_lines_drawing (impls : Dict.t (Dict.t V)) :
  Forall (@Plt.drawing V) (fst (plot_lines impls)).
Proof.
  unfold plot_lines. apply each_log. intros [idx [name res]] _.
  cbv beta iota.
  destruct (metric_values res); run_simpl; [|constructor].
  destruct (nth_error markers idx); run_simpl; repeat constructor.
Qed.

Lemma plot_lines_finished (impls : Dict.t (Dict.t V)) :
  snd (plot_lines impls) = Some tt ->
  plot_lines impls =
  (map (fun item : nat * (string * Dict.t V) =>
          Plt.Plot metric_names
            (match metric_values (snd (snd item)) with
             | Some values => values
             | None => []
             end)
            (nth (fst item) markers EmptyString) (fst (snd item)))
       (enumerate impls),
   Some tt).
Proof.
  intros H. apply plot_lines_finishes_iff in H as [Hlen Hkeys].
  unfold plot_lines. apply each_finished_map.
  intros [idx [name res]] Hin. apply in_enumerate in Hin. cbn [fst snd].
  destruct (metric_values res) as [values|] eqn:Ev.
  - assert (Hidx : (idx < length markers)%nat).
    { assert ((idx < length impls)%nat) by (apply nth_error_Some; congruence).
      cbn [length markers]. lia. }
    run_simpl. rewrite (nth_error_nth' markers EmptyString Hidx). reflexivity.
  - exfalso. apply nth_error_In in Hin. now apply (Hkeys name res).
Qed.

Lemma annotate_inner (values : list V) :
  (length values <= 4)%nat ->
  Plt.each
    (fun iv : nat * V =>
       x <~ Plt.eval V (nth_error metric_names (fst iv)) ;;
       Plt.emit (Plt.Annotate x (snd iv)))
    (enumerate values)
  = (map (fun iv : nat * V =>
            Plt.Annotate (nth (fst iv) metric_names EmptyString) (snd iv))
         (enumerate values),
     Some tt).
Proof.
  intros Hlen. apply each_finished_map. intros [i v] Hin.
  apply in_enumerate in Hin. cbn [fst snd].
  assert (Hi : (i < length metric_names)%nat).
  { assert ((i < length values)%nat) by (apply nth_error_Some; congruence).
    cbn [length metric_names]. lia. }
  rewrite (nth_error_nth' metric_names EmptyString Hi). reflexivity.
Qed.

Lemma annotate_body (res : Dict.t V) :
  (values <~ Plt.eval V (metric_values res) ;;
   Plt.each
     (fun iv : nat * V =>
        x <~ Plt.eval V (nth_error metric_names (fst iv)) ;;
        Plt.emit (Plt.Annotate x (snd iv)))
     (enumerate values))
  = match metric_values res with
    | Some values =>
        (map (fun iv : nat * V =>
                Plt.Annotate (nth (fst iv) metric_names EmptyString) (snd iv))
             (enumerate values),
         Some tt)
    | None => ([], None)
    end.
Proof.
  destruct (metric_values res) as [values|] eqn:Ev; [|reflexivity].
  cbn [Plt.seq_run Plt.eval].
  rewrite annotate_inner by (rewrite (metric_values_length _ Ev); lia).
  reflexivity.
Qed.

Lemma annotate_finishes_iff (impls : Dict.t (Dict.t V)) :
  snd (annotate_values impls) = Some tt <->
  forall name res, In (name, res) impls -> metric_values res <> None.
Proof.
  unfold annotate_values. rewrite each_finishes_iff. split.
  - intros H name res Hin Hnone. specialize (H _ Hin). cbv beta iota in H.
    rewrite annotate_body, Hnone in H. discriminate.
  - intros H [name res] Hin. cbv beta iota. rewrite annotate_body.
    destruct (metric_values res) eqn:E; [reflexivity|].
    exfalso. now apply (H name res).
Qed.

Lemma annotate_drawing (impls : Dict.t (Dict.t V)) :
  Forall (@Plt.drawing V) (fst (annotate_values impls)).
Proof.
  unfold annotate_values. apply each_log. intros [name res] _.
  cbv beta iota. rewrite annotate_body.
  destruct (metric_values res); cbn [fst]; [|constructor].
  apply Forall_forall. intros c Hc. apply in_map_iff in Hc as (iv & <- & _).
  exact I.
Qed.

Lemma annotate_finished (impls : Dict.t (Dict.t V)) :
  snd (annotate_values impls) = Some tt ->
  annotate_values impls =
  (flat_map
     (fun item : string * Dict.t V =>
        map (fun iv : nat * V =>
               Plt.Annotate (nth (fst iv) metric_names EmptyString) (snd iv))
            (enumerate (match metric_values (snd item) with
                        | Some values => values
                        | None => []
                        end)))
     impls,
   Some tt).
Proof.
  intros H. unfold annotate_values. apply each_finished.
  intros [name res] Hin. rewrite annotate_body. cbn [snd].
  destruct (metric_values res) eqn:E; [reflexivity|].
  exfalso. now apply (proj1 (annotate_finishes_iff impls) H name res).
Qed.

Lemma savefig_run (path : string) :
  Plt.savefig V path =
  if savefig_ok path then ([Plt.Savefig V path], Some tt) else ([], None).
Proof. unfold Plt.savefig, Plt.emit. now destruct (savefig_ok path). Qed.

(** The calls issued after the drawing is complete. *)
Lemma plot_comparison_shape
    (impls : Dict.t (Dict.t V)) (output_path : option string) :
  let finish :=
    match output_path with
    | None | Some EmptyString => []
    | Some path =>
        [Plt.Savefig V path; Plt.Print V ("Plot saved to " ++ path)]
    end ++ [Plt.Close V] in
  let drawn :=
    [Plt.Setup V "style.use"; Plt.Setup V "figure"]
    ++ fst (plot_lines impls)
    ++ match snd (plot_lines impls) with
       | Some _ =>
           map (Plt.Setup V)
             ["xlabel"; "ylabel"; "title"; "grid"; "spines.top"; "spines.right";
              "legend"; "xticks"; "yticks"; "ylim"]%string
           ++ fst (annotate_values impls)
           ++ match snd (annotate_values impls) with
              | Some _ => [Plt.Setup V "tight_layout"]
              | None => []
              end
       | None => []
       end in
  Forall (@Plt.drawing V) drawn /\
  plot_implementations_comparison impls output_path =
  match snd (plot_lines impls), snd (annotate_values impls) with
  | Some _, Some _ =>
      if saves output_path then (drawn ++ finish, Some tt) else (drawn, None)
  | _, _ => (drawn, None)
  end.
Proof.
  cbv zeta. split.
  - repeat constructor. apply Forall_app. split; [apply plot_lines_drawing|].
    destruct (snd (plot_lines impls)); [|constructor].
    apply Forall_app. split; [repeat constructor|].
    apply Forall_app. split; [apply annotate_drawing|].
    destruct (snd (annotate_values impls)); repeat constructor.
  - unfold plot_implementations_comparison, saves.
    destruct (plot_lines impls) as [l1 [[]|]];
      destruct (annotate_values impls) as [l2 [[]|]];
      destruct output_path as [[|a path]|];
      rewrite ?savefig_run; try destruct (savefig_ok (String a path));
      cbn [Plt.seq_run Plt.emit Plt.ret Plt.each fst snd app map];
      rewrite ?app_nil_r; repeat (cbn [app]; rewrite <- ?app_assoc);
      reflexivity.
Qed.

End PlotComparison.

Lemma metric_values_some_iff (V : Type) (res : Dict.t V) :
  metric_values res <> None <->
  forall key, In key metric_keys -> Dict.get res key <> None.
Proof.
  rewrite metric_values_none_iff. split.
  - intros H key Hk Hn. apply H. now exists key.
  - intros H (key & Hk & Hn). now apply (H key).
Qed.

Lemma nth_error_enumerate_from (A : Type) (l : list A) (s i : nat) (a : A) :
  nth_error l i = Some a ->
  nth_error (combine (seq s (length l)) l) i = Some ((s + i)%nat, a).
Proof.
  revert s i. induction l as [|x l IH]; intros s [|i] H; cbn in *; try discriminate.
  - injection H as ->. now rewrite Nat.add_0_r.
  - rewrite (IH (S s) i H). do 2 f_equal. lia.
Qed.

Lemma nth_error_enumerate (A : Type) (l : list A) (i : nat) (a : A) :
  nth_error l i = Some a -> nth_error (enumerate l) i = Some (i, a).
Proof. intros H. apply (nth_error_enumerate_from l 0 i H). Qed.

Lemma saves_iff (output_path : option string) :
  saves output_path = true <->
  forall path, output_path = Some path -> path <> EmptyString ->
               savefig_ok path = true.
Proof.
  destruct output_path as [[|a p]|]; cbn [saves].
  - split; [|reflexivity]. intros _ path [= <-] H. congruence.
  - split.
    + intros H path [= <-] _. exact H.
    + intros H. apply H; [reflexivity|discriminate].
  - split; [|reflexivity]. intros _ path E. discriminate.
Qed.

Lemma plot_comparison_finishes
    (V : Type) (impls : Dict.t (Dict.t V)) (output_path : option string) :
  snd (plot_implementations_comparison impls output_path) = Some tt <->
  (length impls <= 5)%nat /\
  (forall name res key,
     In (name, res) impls -> In key metric_keys -> Dict.get res key <> None) /\
  saves output_path = true.
Proof.
  destruct (plot_comparison_shape impls output_path) as [_ ->].
  pose proof (plot_lines_finishes_iff impls) as Hl.
  pose proof (annotate_finishes_iff impls) as Ha.
  assert (Hkeys : (forall name res, In (name, res) impls ->
                     metric_values res <> None) <->
                  (forall name res key, In (name, res) impls ->
                     In key metric_keys -> Dict.get res key <> None)).
  { split.
    - intros H name res key Hin. now apply metric_values_some_iff, (H name).
    - intros H name res Hin. apply metric_values_some_iff. intros key.
      now apply (H name). }
  rewrite <- Hkeys. split.
  - destruct (snd (plot_lines impls)) as [[]|] eqn:El; [|discriminate].
    destruct (snd (annotate_values impls)) as [[]|] eqn:Ea; [|discriminate].
    destruct (saves output_path); [|discriminate].
    intros _. destruct (proj1 Hl eq_refl) as [Hlen H]. now repeat split.
  - intros (Hlen & H & Hs).
    rewrite (proj2 Hl (conj Hlen H)), (proj2 Ha H), Hs. reflexivity.
Qed.

(** [plot_implementations_comparison] raises when there are more than
    five implementations, one per marker, when an implementation lacks
    one of the four metric keys, and when the output path has an
    extension that [plt.savefig] cannot write.  Without a path to save
    to ([None] or the empty string) it finishes exactly when there are
    at most five implementations and each of them holds the four
    keys. *)
Theorem plot_comparison_finishing_conditions
    (V : Type) (implementations_results : Dict.t (Dict.t V))
    (output_path : option string) :
  let run := plot_implementations_comparison implementations_results output_path in
  let drawable :=
    (length implementations_results <= 5)%nat /\
    forall name res key,
      In (name, res) implementations_results -> In key metric_keys ->
      Dict.get res key <> None in
  (snd run = Some tt ->
   drawable /\
   forall path, output_path = Some path -> path <> EmptyString ->
                savefig_ok path = true) /\
  (output_path = None \/ output_path = Some EmptyString ->
   (snd run = Some tt <-> drawable)).
Proof.
  cbv zeta. rewrite <- saves_iff.
  pose proof (plot_comparison_finishes implementations_results output_path)
    as Hiff.
  split.
  - intros H. apply Hiff in H as (Hlen & Hkeys & Hs). now repeat split.
  - intros Hpath. rewrite Hiff.
    assert (Hs : saves output_path = true) by (now destruct Hpath as [-> | ->]).
    split.
    + intros (Hlen & Hkeys & _). now split.
    + intros [Hlen Hkeys]. now repeat split.
Qed.

Lemma plot_comparison_finishing_conditions_witness :
  snd (plot_implementations_comparison notebook_results (Some "x.xyz"%string))
    = None /\
  snd (plot_implementations_comparison notebook_results None) = Some tt.
Proof.
  split.
  - destruct (snd (plot_implementations_comparison notebook_results
                     (Some "x.xyz"%string))) as [[]|] eqn:E; [|reflexivity].
    destruct (proj1 (@plot_comparison_finishing_conditions Q notebook_results
                       (Some "x.xyz"%string)) E) as [_ H].
    specialize (H "x.xyz"%string eq_refl ltac:(discriminate)).
    vm_compute in H. discriminate.
  - apply (proj2 (@plot_comparison_finishing_conditions Q notebook_results None)
             (or_introl eq_refl)).
    split; [cbn; lia|exact notebook_results_keys].
Defined.

(** [plot_implementations_comparison] closes the figure exactly when it
    finishes, and writes a file exactly when it finishes and was given a
    non-empty output path: when it raises, the figure stays open and
    nothing is saved. *)
Theorem plot_comparison_saves_and_closes_iff_finished
    (V : Type) (implementations_results : Dict.t (Dict.t V))
    (output_path : option string) :
  let run := plot_implementations_comparison implementations_results output_path in
  (In (Plt.Close V) (fst run) <-> snd run = Some tt) /\
  forall path,
    In (Plt.Savefig V path) (fst run) <->
    snd run = Some tt /\ output_path = Some path /\ path <> EmptyString.
Proof.
  cbv zeta.
  destruct (plot_comparison_shape implementations_results output_path)
    as [Hdrawn ->].
  set (drawn := _ ++ _ ++ _) in *. clearbody drawn.
  rewrite Forall_forall in Hdrawn.
  assert (Hraise :
            (In (Plt.Close V) (fst (drawn, @None unit)) <->
             snd (drawn, @None unit) = Some tt) /\
            forall path,
              In (Plt.Savefig V path) (fst (drawn, @None unit)) <->
              snd (drawn, @None unit) = Some tt /\
              output_path = Some path /\ path <> EmptyString).
  { cbn [fst snd]. split.
    - split; [intros Hin; destruct (Hdrawn _ Hin)|discriminate].
    - intros path. split; [intros Hin; destruct (Hdrawn _ Hin)|].
      intros [E _]. discriminate. }
  destruct (snd (plot_lines implementations_results)) as [[]|];
    [destruct (snd (annotate_values implementations_results)) as [[]|];
     [destruct (saves output_path)|]|]; try exact Hraise.
  cbn [fst snd]. split.
  - split; [reflexivity|]. intros _. apply in_or_app. right.
    apply in_or_app. right. now left.
  - intros path. rewrite in_app_iff. split.
    + intros [Hin | Hin]; [destruct (Hdrawn _ Hin)|].
      split; [reflexivity|].
      destruct output_path as [[|a p]|]; cbn in Hin.
      * destruct Hin as [E | []]. discriminate.
      * destruct Hin as [[= <-] | [E | [E | []]]]; try discriminate.
        split; [reflexivity|discriminate].
      * destruct Hin as [E | []]. discriminate.
    + intros (_ & -> & Hne). right. destruct path; [congruence|].
      now left.
Qed.

(** When [plot_implementations_comparison] finishes, the implementation
    at position [i] is drawn as line [i], with marker [markers[i]], its
    own name as legend label and its four values in the order of the
    metric keys, and each of its values is annotated at its metric. *)
Theorem plot_comparison_lines
    (V : Type) (implementations_results : Dict.t (Dict.t V))
    (output_path : option string) (i : nat) (name : string) (res : Dict.t V) :
  snd (plot_implementations_comparison implementations_results output_path)
    = Some tt ->
  nth_error implementations_results i = Some (name, res) ->
  exists values marker,
    metric_values res = Some values /\
    nth_error markers i = Some marker /\
    nth_error (fst (plot_implementations_comparison implementations_results
                      output_path)) (2 + i)
      = Some (Plt.Plot metric_names values marker name) /\
    forall j metric value,
      nth_error metric_names j = Some metric ->
      nth_error values j = Some value ->
      In (Plt.Annotate metric value)
         (fst (plot_implementations_comparison implementations_results
                 output_path)).
Proof.
  intros Hfin Hi.
  destruct (proj1 (plot_comparison_finishes _ _) Hfin) as (Hlen & Hkeys & Hsave).
  assert (Hvals : forall n r, In (n, r) implementations_results ->
                    metric_values r <> None).
  { intros n r Hin. apply metric_values_some_iff. intros key.
    now apply (Hkeys n). }
  pose proof (proj2 (plot_lines_finishes_iff implementations_results)
                (conj Hlen Hvals)) as Hl.
  pose proof (proj2 (annotate_finishes_iff implementations_results) Hvals) as Ha.
  destruct (plot_comparison_shape implementations_results output_path)
    as [_ Hshape].
  rewrite Hshape, Hl, Ha, Hsave. cbn [fst].
  rewrite (plot_lines_finished _ Hl), (annotate_finished _ Ha). cbn [fst].
  destruct (metric_values res) as [values|] eqn:Ev.
  2:{ exfalso. apply nth_error_In in Hi. now apply (Hvals name res). }
  assert (Hidx : (i < length markers)%nat).
  { assert ((i < length implementations_results)%nat)
      by (apply nth_error_Some; congruence).
    cbn [length markers]. lia. }
  exists values, (nth i markers EmptyString).
  split; [reflexivity|]. split; [now apply nth_error_nth'|]. split.
  - cbn [app Nat.add nth_error].
    rewrite <- app_assoc. rewrite nth_error_app1
      by (rewrite length_map, enumerate_length; apply nth_error_Some; congruence).
    rewrite nth_error_map, (nth_error_enumerate _ _ Hi).
    cbn [option_map fst snd]. now rewrite Ev.
  - intros j metric value Hm Hv.
    rewrite !in_app_iff. left. right. right. right. left.
    apply in_flat_map. exists (name, res).
    split; [now apply nth_error_In in Hi|]. cbn [snd]. rewrite Ev.
    apply in_map_iff. exists (j, value). cbn [fst snd].
    split; [now rewrite (nth_error_nth _ _ EmptyString Hm)|].
    now apply in_enumerate.
Qed.

Lemma notebook_results_plot_finishes :
  snd (plot_implementations_comparison notebook_results
         (Some "implementations_comparison.png"%string)) = Some tt.
Proof.
  apply plot_comparison_finishes. split; [cbn; lia|].
  split; [exact notebook_results_keys|reflexivity].
Qed.

Lemma plot_comparison_lines_witness :
  exists values marker,
    metric_values [("accuracy"%string, 76 # 100); ("precision"%string, 75 # 100);
                   ("recall"%string, 72 # 100); ("f1_score"%string, 74 # 100)]
      = Some values /\
    nth_error markers 1 = Some marker /\
    nth_error (fst (plot_implementations_comparison notebook_results
                      (Some "implementations_comparison.png"%string))) (2 + 1)
      = Some (Plt.Plot metric_names values marker "VGG 16") /\
    forall j metric value,
      nth_error metric_names j = Some metric ->
      nth_error values j = Some value ->
      In (Plt.Annotate metric value)
         (fst (plot_implementations_comparison notebook_results
                 (Some "implementations_comparison.png"%string))).
Proof.
  apply (@plot_comparison_lines Q notebook_results
           (Some "implementations_comparison.png"%string) 1 "VGG 16"%string).
  - exact notebook_results_plot_finishes.
  - reflexivity.
Defined.

(** ** [inference_on_samples], [evaluate] and [main] together *)

Lemma mapM_nth_error (A B : Type) (f : A -> option B) (l : list A) (bs : list B)
    (k : nat) (a : A) :
  mapM f l = Some bs -> nth_error l k = Some a ->
  exists b, nth_error bs k = Some b /\ f a = Some b.
Proof.
  revert bs k. induction l as [|x l IH]; intros bs k; cbn [mapM].
  - intros _ H. destruct k; discriminate.
  - destruct (f x) as [b|] eqn:Ex; cbn [bind]; [|discriminate].
    destruct (mapM f l) as [bs'|]; cbn [bind]; [|discriminate].
    intros [= <-] Hk. destruct k as [|k]; cbn [nth_error] in *.
    + injection Hk as <-. now exists b.
    + now apply IH.
Qed.

Lemma inference_matches_predictions
    (Image : Type) (image_features : Image -> Np.vec)
    (c : classifier Image) (prs : list (string * Np.vec))
    (k : nat) (r : prediction) :
  mapM (predict image_features c) (dataset c) = Some prs ->
  infer_sample image_features c k = Some r ->
  exists smp scores p,
    nth_error (dataset c) k = Some smp /\
    nth_error prs k = Some (predicted_label r, scores) /\
    true_label r = text smp /\
    index r = k /\
    softmax scores = Some p /\
    all_scores r = Dict.of_list (combine (labels c) p).
Proof.
  intros Hprs Hr.
  destruct (infer_sample_inv _ _ _ Hr)
    as (smp & scores & p & i & Hs & Hsc & Hi & Hp & Hl & _ & Hidx & Ht & Hall).
  destruct (mapM_nth_error _ _ _ Hprs Hs) as ([l sc] & Hk & Hpred).
  destruct (predict_inv _ _ _ Hpred) as (Hsc' & i' & Hi' & Hl').
  rewrite Hsc in Hsc'. injection Hsc' as <-.
  rewrite Hi in Hi'. injection Hi' as <-.
  rewrite Hl in Hl'. injection Hl' as <-.
  exists smp, scores, p. repeat split; assumption.
Qed.

(** [inference_on_samples] and [evaluate] agree: a result for index [k]
    carries the label that [evaluate] predicts at position [k] and the
    true label stored there, and its [all_scores] are the softmax of row
    [k] of the raw scores of [evaluate]. *)
Theorem inference_agrees_with_evaluate
    (Image : Type) (image_features : Image -> Np.vec)
    (c : classifier Image) (batch_size : nat) (ev : evaluation)
    (sample_indices : list nat) (rs : list prediction) :
  evaluate image_features c batch_size = Some ev ->
  inference_on_samples image_features c sample_indices = Some rs ->
  forall r, In r rs ->
    nth_error (predictions ev) (index r) = Some (predicted_label r) /\
    nth_error (true_labels ev) (index r) = Some (true_label r) /\
    exists row p,
      nth_error (raw_scores ev) (index r) = Some row /\
      softmax row = Some p /\
      all_scores r = Dict.of_list (combine (labels c) p).
Proof.
  intros Hev Hrs r Hr.
  destruct (evaluate_inv _ _ _ Hev)
    as (_ & prs & report & Hprs & _ & -> & -> & -> & _).
  destruct (mapM_in _ _ Hrs _ Hr) as (k & _ & Hk).
  destruct (inference_matches_predictions _ _ _ Hprs Hk)
    as (smp & scores & p & Hs & Hp & Ht & -> & Hsm & Hall).
  rewrite !nth_error_map, Hp, Hs, Ht. cbn [option_map fst snd].
  split; [reflexivity|]. split; [reflexivity|].
  exists scores, p. repeat split; assumption.
Qed.

Lemma inference_agrees_with_evaluate_witness :
  exists ev rs,
    let c := prepare_dataset cat_dog_features two_cat_like_images in
    evaluate (fun v => v) c 32 = Some ev /\
    inference_on_samples (fun v => v) c [1; 0]%nat = Some rs /\
    forall r, In r rs ->
      nth_error (predictions ev) (index r) = Some (predicted_label r) /\
      nth_error (true_labels ev) (index r) = Some (true_label r) /\
      exists row p,
        nth_error (raw_scores ev) (index r) = Some row /\
        softmax row = Some p /\
        all_scores r = Dict.of_list (combine (labels c) p).
Proof.
  destruct two_cat_like_evaluation as [ev Hev].
  destruct (@mapM_total nat prediction
              (infer_sample (fun v => v)
                 (prepare_dataset cat_dog_features two_cat_like_images))
              [1; 0]%nat) as [rs Hrs].
  { intros k Hk.
    destruct (evaluate_inv _ _ _ Hev) as (_ & prs & _ & Hprs & _).
    assert (Hs : exists smp,
               nth_error (dataset (prepare_dataset cat_dog_features
                                     two_cat_like_images)) k = Some smp).
    { destruct Hk as [<- | [<- | []]]; eexists; reflexivity. }
    destruct Hs as [smp Hs].
    destruct (mapM_nth_error _ _ _ Hprs Hs) as ([l sc] & _ & Hpred).
    destruct (infer_sample_spec _ _ _ Hs Hpred) as (p & i & _ & _ & _ & _ & _ & Hinf).
    eexists. exact Hinf. }
  exists ev, rs. cbv zeta. split; [exact Hev|]. split; [exact Hrs|].
  apply (@inference_agrees_with_evaluate Np.vec (fun v => v)
           (prepare_dataset cat_dog_features two_cat_like_images) 32 ev
           [1; 0]%nat rs Hev Hrs).
Defined.

(** [main] asks for the samples 0, 10, 20, 30 and 40: on a dataset of
    40 samples or fewer it raises, whatever the encoders are. *)
Theorem main_raises_below_41_samples
    (Image : Type) (image_features : Image -> Np.vec)
    (text_features : string -> Np.vec) (ds : list (sample Image)) :
  (length ds <= 40)%nat ->
  main image_features text_features ds = None.
Proof.
  intros Hlen. unfold main.
  destruct (evaluate image_features (prepare_dataset text_features ds) 32)
    as [ev|]; cbn [bind]; [|reflexivity].
  destruct (inference_on_samples image_features
              (prepare_dataset text_features ds) [0; 10; 20; 30; 40]%nat)
    as [rs|] eqn:E; cbn [bind]; [|reflexivity].
  destruct (inference_on_samples_inv _ _ _ E) as (_ & Hb & _).
  specialize (Hb 40%nat). cbn [prepare_dataset dataset] in Hb.
  assert (40 < length ds)%nat by (apply Hb; cbn; tauto). lia.
Qed.

Lemma main_raises_below_41_samples_witness :
  main (fun v => v) cat_dog_features two_cat_like_images = None.
Proof.
  apply main_raises_below_41_samples. cbn [length two_cat_like_images]. lia.
Defined.

(** On a dataset of more than 40 samples whose embeddings all have the
    same dimension, [main] returns: the evaluation is the one of
    [evaluate(32)], there are five sample results, for the indices 0,
    10, 20, 30 and 40 in this order, and each of them shows the label
    that the evaluation predicts at its index. *)
Theorem main_returns_five_predictions
    (Image : Type) (image_features : Image -> Np.vec)
    (text_features : string -> Np.vec) (D : nat) (ds : list (sample Image)) :
  (forall s, length (text_features s) = D) ->
  (forall smp, In smp ds -> length (image_features (image smp)) = D) ->
  (40 < length ds)%nat ->
  exists ev rs,
    main image_features text_features ds = Some (ev, rs) /\
    evaluate image_features (prepare_dataset text_features ds) 32 = Some ev /\
    map index rs = [0; 10; 20; 30; 40]%nat /\
    forall r, In r rs ->
      nth_error (predictions ev) (index r) = Some (predicted_label r) /\
      nth_error (true_labels ev) (index r) = Some (true_label r).
Proof.
  intros Htext Himage Hlen.
  assert (Hne : ds <> []) by (intros ->; cbn in Hlen; lia).
  destruct (@evaluate_prepared Image image_features text_features D ds
              Htext Himage Hne 32 ltac:(lia))
    as (prs & report & Hprs & _ & _ & _ & Hev).
  set (c := prepare_dataset text_features ds) in *.
  destruct (@mapM_total nat prediction (infer_sample image_features c)
              [0; 10; 20; 30; 40]%nat) as [rs Hrs].
  { intros k Hk.
    assert (Hk' : (k < length (dataset c))%nat).
    { cbn [c prepare_dataset dataset].
      destruct Hk as [<- | [<- | [<- | [<- | [<- | []]]]]]; lia. }
    destruct (nth_error (dataset c) k) as [smp|] eqn:Hs;
      [|apply nth_error_None in Hs; lia].
    destruct (mapM_nth_error _ _ _ Hprs Hs) as ([l sc] & _ & Hpred).
    destruct (infer_sample_spec _ _ _ Hs Hpred)
      as (p & i & _ & _ & _ & _ & _ & Hinf).
    eexists. exact Hinf. }
  eexists. exists rs. split; [|split; [exact Hev|split]].
  - unfold main. fold c. rewrite Hev. cbn [bind].
    unfold inference_on_samples. rewrite Hrs. reflexivity.
  - now destruct (@inference_on_samples_inv Image image_features c _ rs Hrs).
  - intros r Hr. cbn [predictions true_labels].
    destruct (mapM_in _ _ Hrs _ Hr) as (k & _ & Hk).
    destruct (inference_matches_predictions _ _ _ Hprs Hk)
      as (smp & scores & p & Hs & Hp & Ht & -> & _).
    cbn [c prepare_dataset dataset] in Hs.
    rewrite !nth_error_map, Hp, Hs, Ht. cbn [option_map fst]. now split.
Qed.

Lemma main_returns_five_predictions_witness :
  exists ev rs,
    let ds := two_cat_like_images
              ++ repeat {| image := [1; 0]; text := "cat"%string |} 39 in
    main (fun v => v) cat_dog_features ds = Some (ev, rs) /\
    evaluate (fun v => v) (prepare_dataset cat_dog_features ds) 32 = Some ev /\
    map index rs = [0; 10; 20; 30; 40]%nat /\
    forall r, In r rs ->
      nth_error (predictions ev) (index r) = Some (predicted_label r) /\
      nth_error (true_labels ev) (index r) = Some (true_label r).
Proof.
  apply (@main_returns_five_predictions Np.vec (fun v => v) cat_dog_features 2
           (two_cat_like_images
            ++ repeat {| image := [1; 0]; text := "cat"%string |} 39)).
  - exact cat_dog_features_dim.
  - intros smp Hin. apply in_app_or in Hin as [Hin | Hin].
    + now apply two_cat_like_images_dim.
    + apply repeat_spec in Hin. now subst smp.
  - rewrite length_app, repeat_length. cbn [length two_cat_like_images Nat.add]. lia.
Defined.

(** ** The confusion matrix drawn by [evaluate] *)

Section Sums.

Local Open Scope nat_scope.

Lemma list_sum_map_zero (I : Type) (idx : list I) :
  list_sum (map (fun _ => 0) idx) = 0.
Proof. induction idx as [|i idx IH]; [reflexivity|exact IH]. Qed.

Lemma list_sum_map_add (I : Type) (f g : I -> nat) (idx : list I) :
  list_sum (map (fun i => f i + g i) idx)
  = list_sum (map f idx) + list_sum (map g idx).
Proof.
  induction idx as [|i idx IH]; [reflexivity|].
  cbn [map]. rewrite !list_sum_cons, IH. lia.
Qed.

Lemma list_sum_swap (A I : Type) (g : A -> I -> nat)
    (pairs : list A) (idx : list I) :
  list_sum (map (fun i => list_sum (map (fun q => g q i) pairs)) idx)
  = list_sum (map (fun q => list_sum (map (g q) idx)) pairs).
Proof.
  induction pairs as [|q pairs IH]; cbn [map].
  - apply list_sum_map_zero.
  - rewrite list_sum_cons, <- IH.
    rewrite <- (list_sum_map_add (g q)
                  (fun i => list_sum (map (fun q => g q i) pairs))).
    reflexivity.
Qed.

Lemma length_filter_sum (A : Type) (f : A -> bool) (l : list A) :
  length (filter f l) = list_sum (map (fun q => if f q then 1 else 0) l).
Proof.
  induction l as [|a l IH]; [reflexivity|].
  cbn [filter map]. rewrite list_sum_cons.
  destruct (f a); cbn [length]; rewrite IH; reflexivity.
Qed.

Lemma count_sum (A I : Type) (test : A -> I -> bool) (w : A -> nat)
    (pairs : list A) (idx : list I) :
  (forall q, In q pairs ->
     list_sum (map (fun i => if test q i then 1 else 0) idx) = w q) ->
  list_sum (map (fun i => length (filter (fun q => test q i) pairs)) idx)
  = list_sum (map w pairs).
Proof.
  intros Hw.
  rewrite (map_ext _ (fun i => list_sum
                        (map (fun q => if test q i then 1 else 0) pairs)))
    by (intros i; apply length_filter_sum).
  rewrite (list_sum_swap (fun q i => if test q i then 1 else 0)).
  f_equal. apply map_ext_in. exact Hw.
Qed.

Lemma indicator_seq (a s m : nat) :
  list_sum (map (fun i => if Nat.eqb a i then 1 else 0) (seq s m))
  = if Nat.leb s a && Nat.ltb a (s + m) then 1 else 0.
Proof.
  revert s. induction m as [|m IH]; intros s; cbn [seq map].
  - destruct (Nat.leb_spec s a), (Nat.ltb_spec a (s + 0)); cbn; try reflexivity; lia.
  - rewrite list_sum_cons, IH.
    destruct (Nat.eqb_spec a s), (Nat.leb_spec (S s) a),
      (Nat.ltb_spec a (S s + m)), (Nat.leb_spec s a),
      (Nat.ltb_spec a (s + S m)); cbn; try reflexivity; lia.
Qed.

Lemma indicator_below (a n : nat) :
  a < n ->
  list_sum (map (fun i => if Nat.eqb a i then 1 else 0) (seq 0 n)) = 1.
Proof.
  intros H. rewrite indicator_seq.
  destruct (Nat.leb_spec 0 a), (Nat.ltb_spec a (0 + n)); cbn; try reflexivity; lia.
Qed.

Lemma in_combine_seq (A : Type) (l : list A) (s i : nat) (a : A) :
  In (a, i) (combine l (seq s (length l))) ->
  s <= i /\ nth_error l (i - s) = Some a.
Proof.
  revert s. induction l as [|x l IH]; intros s; cbn [length seq combine].
  - intros [].
  - intros [[= -> ->] | Hin].
    + split; [lia|]. now rewrite Nat.sub_diag.
    + destruct (IH _ Hin) as [Hle Hn]. split; [lia|].
      replace (i - s) with (S (i - S s)) by lia. exact Hn.
Qed.

Lemma get_fold_set_some (V : Type) (ps : list (string * V)) (d : Dict.t V)
    (k : string) :
  (exists v, Dict.get d k = Some v) \/ In k (map fst ps) ->
  exists v,
    Dict.get (fold_left (fun d kv => Dict.set d (fst kv) (snd kv)) ps d) k
    = Some v.
Proof.
  revert d. induction ps as [|[k0 v0] ps IH]; intros d H; cbn [fold_left].
  - destruct H as [H | []]. exact H.
  - apply IH. cbn [fst snd map] in *.
    destruct (String.eqb_spec k k0) as [->|Hne].
    + left. exists v0. apply get_set_same.
    + destruct H as [[v Hv] | [E | Hin]].
      * left. exists v. now rewrite get_set_other.
      * congruence.
      * now right.
Qed.

End Sums.

Section ConfusionCounts.

Local Open Scope nat_scope.

Variable labels : list string.

Let ind := label_to_ind labels.

Lemma label_to_ind_inv (t : string) (i : nat) :
  Dict.get ind t = Some i -> nth_error labels i = Some t.
Proof.
  intros H. apply get_of_list_in, in_combine_seq in H as [_ H].
  now rewrite Nat.sub_0_r in H.
Qed.

Lemma label_to_ind_bound (t : string) (i : nat) :
  Dict.get ind t = Some i -> i < length labels.
Proof.
  intros H. apply label_to_ind_inv in H. apply nth_error_Some. congruence.
Qed.

Lemma label_to_ind_in (t : string) :
  In t labels -> exists i, Dict.get ind t = Some i.
Proof.
  intros H. apply get_fold_set_some. right.
  rewrite map_fst_combine by now rewrite length_seq.
  exact H.
Qed.

Lemma diagonal_hit (q : string * string) :
  In (fst q) labels ->
  list_sum
    (map (fun i =>
            if match Dict.get ind (fst q), Dict.get ind (snd q) with
               | Some a, Some b => Nat.eqb a i && Nat.eqb b i
               | _, _ => false
               end
            then 1 else 0)
         (seq 0 (length labels)))
  = if String.eqb (fst q) (snd q) then 1 else 0.
Proof.
  destruct q as [t p]. cbn [fst snd]. intros Ht.
  destruct (label_to_ind_in _ Ht) as [a Ha]. rewrite Ha.
  pose proof (label_to_ind_bound _ Ha) as Hlt.
  destruct (String.eqb_spec t p) as [<-|Hne].
  - rewrite Ha.
    rewrite (map_ext _ (fun i => if Nat.eqb a i then 1 else 0))
      by (intros i; now destruct (Nat.eqb a i)).
    now apply indicator_below.
  - destruct (Dict.get ind p) as [b|] eqn:Hb; [|apply list_sum_map_zero].
    rewrite (map_ext _ (fun _ => 0)); [apply list_sum_map_zero|].
    intros i. destruct (Nat.eqb_spec a i) as [->|]; [|reflexivity].
    destruct (Nat.eqb_spec b i) as [->|]; [|reflexivity].
    apply label_to_ind_inv in Ha, Hb. congruence.
Qed.

Lemma row_hit (q : string * string) (i : nat) :
  In (snd q) labels ->
  list_sum
    (map (fun j =>
            if match Dict.get ind (fst q), Dict.get ind (snd q) with
               | Some a, Some b => Nat.eqb a i && Nat.eqb b j
               | _, _ => false
               end
            then 1 else 0)
         (seq 0 (length labels)))
  = match Dict.get ind (fst q) with
    | Some a => if Nat.eqb a i then 1 else 0
    | None => 0
    end.
Proof.
  destruct q as [t p]. cbn [fst snd]. intros Hp.
  destruct (label_to_ind_in _ Hp) as [b Hb]. rewrite Hb.
  pose proof (label_to_ind_bound _ Hb) as Hlt.
  destruct (Dict.get ind t) as [a|]; [|apply list_sum_map_zero].
  destruct (Nat.eqb a i); cbn [andb].
  - now apply indicator_below.
  - apply list_sum_map_zero.
Qed.

Lemma diagonal_counts_matches (pairs : list (string * string)) :
  (forall q, In q pairs -> In (fst q) labels) ->
  list_sum (map (fun i => cell_count ind pairs i i) (seq 0 (length labels)))
  = length (filter (fun q => String.eqb (fst q) (snd q)) pairs).
Proof.
  intros Hin. unfold cell_count.
  rewrite (@count_sum _ _
             (fun q i => match Dict.get ind (fst q), Dict.get ind (snd q) with
                         | Some a, Some b => Nat.eqb a i && Nat.eqb b i
                         | _, _ => false
                         end)
             (fun q => if String.eqb (fst q) (snd q) then 1 else 0)).
  - symmetry. apply length_filter_sum.
  - intros q Hq. apply diagonal_hit. now apply Hin.
Qed.

Lemma all_cells_count_every_pair (pairs : list (string * string)) :
  (forall q, In q pairs -> In (fst q) labels /\ In (snd q) labels) ->
  list_sum
    (map (fun i =>
            list_sum (map (fun j => cell_count ind pairs i j)
                          (seq 0 (length labels))))
         (seq 0 (length labels)))
  = length pairs.
Proof.
  intros Hin.
  rewrite (map_ext _
             (fun i => list_sum
                (map (fun q => match Dict.get ind (fst q) with
                               | Some a => if Nat.eqb a i then 1 else 0
                               | None => 0
                               end) pairs))).
  2:{ intros i. unfold cell_count.
      apply (@count_sum _ _
               (fun q j => match Dict.get ind (fst q), Dict.get ind (snd q) with
                           | Some a, Some b => Nat.eqb a i && Nat.eqb b j
                           | _, _ => false
                           end)).
      intros q Hq. apply row_hit. now apply Hin. }
  rewrite (list_sum_swap
             (fun q i => match Dict.get ind (fst q) with
                         | Some a => if Nat.eqb a i then 1 else 0
                         | None => 0
                         end)).
  rewrite (map_ext_in _ (fun _ => 1)).
  - clear Hin. induction pairs as [|q pairs IH]; [reflexivity|].
    cbn [map length]. now rewrite list_sum_cons, IH.
  - intros q Hq. destruct (Hin q Hq) as [Ht _].
    destruct (label_to_ind_in _ Ht) as [a Ha]. rewrite Ha.
    apply indicator_below. now apply (label_to_ind_bound (fst q)).
Qed.

End ConfusionCounts.

Lemma matches_count (preds trues : list string) :
  length preds = length trues ->
  length (filter (fun q => String.eqb (fst q) (snd q)) (combine trues preds))
  = count_occ bool_dec (equal_elementwise preds trues) true.
Proof.
  unfold equal_elementwise.
  revert trues. induction preds as [|p preds IH]; intros [|t trues] Hlen;
    cbn [length] in Hlen; try discriminate; [reflexivity|].
  injection Hlen as Hlen.
  cbn [combine filter map fst snd]. rewrite (String.eqb_sym t p).
  destruct (String.eqb p t); cbn [length count_occ].
  - destruct (bool_dec true true) as [_|N]; [|congruence].
    now rewrite (IH trues Hlen).
  - destruct (bool_dec false true) as [E|_]; [discriminate|].
    exact (IH trues Hlen).
Qed.

Lemma confusion_matrix_some_iff (y_true y_pred labels : list string) :
  length y_true = length y_pred ->
  (y_true = [] -> labels = []) ->
  (exists l, In l labels /\ In l y_true) <->
  confusion_matrix y_true y_pred labels =
  Some (map (fun i =>
               map (fun j => cell_count (label_to_ind labels)
                               (combine y_true y_pred) i j)
                   (seq 0 (length labels)))
            (seq 0 (length labels))).
Proof.
  intros Hlen Hempty. unfold confusion_matrix.
  rewrite <- Hlen, Nat.eqb_refl. cbn [negb].
  destruct labels as [|l0 ls].
  - split; [intros (l & [] & _)|discriminate].
  - destruct y_true as [|t ts]; [specialize (Hempty eq_refl); discriminate|].
    destruct (existsb _ (l0 :: ls)) eqn:E.
    + split; [reflexivity|]. intros _.
      apply existsb_exists in E as (l & Hl & E).
      apply existsb_exists in E as (y & Hy & E).
      apply String.eqb_eq in E as ->. now exists y.
    + split; [|discriminate]. intros (l & Hl & Hy).
      assert (H : existsb (fun l => existsb (String.eqb l) (t :: ts)) (l0 :: ls)
                  = true).
      { apply existsb_exists. exists l. split; [assumption|].
        apply existsb_exists. exists l. split; [assumption|].
        apply String.eqb_refl. }
      rewrite H in E. discriminate.
Qed.

Lemma confusion_matrix_some_inv (y_true y_pred labels : list string)
    (cm : list (list nat)) :
  (y_true = [] -> labels = []) ->
  confusion_matrix y_true y_pred labels = Some cm ->
  exists l, In l labels /\ In l y_true.
Proof.
  intros Hempty. unfold confusion_matrix.
  destruct (negb _); [discriminate|].
  destruct labels as [|l0 ls]; [discriminate|].
  destruct y_true as [|t ts]; [specialize (Hempty eq_refl); discriminate|].
  destruct (existsb _ (l0 :: ls)) eqn:E; [|discriminate]. intros _.
  apply existsb_exists in E as (l & Hl & E).
  apply existsb_exists in E as (y & Hy & E).
  apply String.eqb_eq in E as ->. now exists y.
Qed.

Lemma trace_of_cells (f : nat -> nat -> nat) (n : nat) :
  trace (map (fun i => map (fun j => f i j) (seq 0 n)) (seq 0 n))
  = list_sum (map (fun i => f i i) (seq 0 n)).
Proof.
  unfold trace. rewrite length_map, length_seq. f_equal.
  apply map_ext_in. intros i Hi. apply in_seq in Hi.
  rewrite (@nth_map_in nat (list nat) (fun i => map (fun j => f i j) (seq 0 n))
             (seq 0 n) [] 0%nat i) by (rewrite length_seq; lia).
  rewrite seq_nth by lia. cbn [Nat.add].
  rewrite (@nth_map_in nat nat (fun j => f i j) (seq 0 n) 0%nat 0%nat i)
    by (rewrite length_seq; lia).
  rewrite seq_nth by lia. reflexivity.
Qed.

Lemma evaluate_lengths (Image : Type) (image_features : Image -> Np.vec)
    (c : classifier Image) (batch_size : nat) (ev : evaluation) :
  evaluate image_features c batch_size = Some ev ->
  length (true_labels ev) = length (dataset c) /\
  length (predictions ev) = length (dataset c) /\
  (forall l, In l (predictions ev) -> In l (labels c)) /\
  (true_labels ev = [] -> labels c = []) /\
  accuracy (eval_metrics ev)
    = mean_bool (equal_elementwise (predictions ev) (true_labels ev)).
Proof.
  intros H. destruct (evaluate_inv _ _ _ H)
    as (_ & prs & report & Hprs & Hrep & -> & -> & _ & _ & Hacc).
  destruct (mapM_spec _ _ Hprs) as [Hlen _].
  rewrite !length_map. repeat split; try assumption.
  - intros l Hl. apply in_map_iff in Hl as ([l' sc] & <- & Hin).
    destruct (mapM_in _ _ Hprs _ Hin) as (smp & _ & Hp).
    apply predict_inv in Hp as (_ & idx & _ & Hl).
    now apply nth_error_In in Hl.
  - intros Hnil. apply map_eq_nil in Hnil.
    rewrite Hnil in *. destruct prs; [|discriminate].
    unfold Sklearn.classification_report in Hrep.
    destruct (Nat.eqb_spec
                (length (Sklearn.unique_labels (map (@text Image) [])
                           (map fst (@nil (string * Np.vec)))))
                (length (labels c))) as [E|_]; [|discriminate].
    cbn in E. now destruct (labels c).
Qed.

(** The heat map that [evaluate] draws agrees with the accuracy that it
    returns.  When every true label is in the vocabulary, the confusion
    matrix exists, is square with one row per vocabulary entry, counts
    every sample exactly once, and the sum of its diagonal over the
    number of samples is the accuracy. *)
Theorem confusion_matrix_matches_accuracy
    (Image : Type) (image_features : Image -> Np.vec)
    (c : classifier Image) (batch_size : nat) (ev : evaluation) :
  evaluate image_features c batch_size = Some ev ->
  dataset c <> [] ->
  incl (true_labels ev) (labels c) ->
  exists cm,
    confusion_matrix (true_labels ev) (predictions ev) (labels c) = Some cm /\
    length cm = length (labels c) /\
    (forall row, In row cm -> length row = length (labels c)) /\
    list_sum (map (@list_sum) cm) = length (dataset c) /\
    accuracy (eval_metrics ev)
      = (of_nat (trace cm) / of_nat (length (dataset c)))%Q.
Proof.
  intros Hev Hne Hincl.
  destruct (evaluate_lengths _ _ _ Hev) as (Ht & Hp & Hpin & Hnil & Hacc).
  assert (Hlen : length (true_labels ev) = length (predictions ev)) by congruence.
  assert (Hex : exists l, In l (labels c) /\ In l (true_labels ev)).
  { destruct (true_labels ev) as [|t ts] eqn:E.
    - destruct (dataset c); [congruence|discriminate].
    - exists t. split; [apply Hincl|]; now left. }
  eexists. split;
    [apply (proj1 (@confusion_matrix_some_iff _ _ (labels c) Hlen Hnil) Hex)|].
  rewrite length_map, length_seq. split; [reflexivity|]. split; [|split].
  - intros row Hrow. apply in_map_iff in Hrow as (i & <- & _).
    now rewrite length_map, length_seq.
  - rewrite map_map, all_cells_count_every_pair.
    + rewrite length_combine, <- Hlen, Nat.min_id. exact Ht.
    + intros [t p] Hq. cbn [fst snd]. split.
      * apply Hincl. now apply in_combine_l in Hq.
      * apply Hpin. now apply in_combine_r in Hq.
  - rewrite Hacc. unfold mean_bool. unfold equal_elementwise at 2.
    rewrite length_map, length_combine, <- Hlen, Nat.min_id, Ht.
    rewrite (trace_of_cells
               (cell_count (label_to_ind (labels c))
                  (combine (true_labels ev) (predictions ev)))).
    rewrite diagonal_counts_matches.
    + now rewrite matches_count by congruence.
    + intros [t p] Hq. cbn [fst]. apply Hincl. now apply in_combine_l in Hq.
Qed.

Lemma confusion_matrix_matches_accuracy_witness :
  exists ev cm,
    let c := prepare_dataset cat_dog_features two_cat_like_images in
    evaluate (fun v => v) c 32 = Some ev /\
    confusion_matrix (true_labels ev) (predictions ev) (labels c) = Some cm /\
    length cm = length (labels c) /\
    (forall row, In row cm -> length row = length (labels c)) /\
    list_sum (map (@list_sum) cm) = length (dataset c) /\
    accuracy (eval_metrics ev)
      = (of_nat (trace cm) / of_nat (length (dataset c)))%Q.
Proof.
  destruct two_cat_like_evaluation as [ev Hev].
  assert (Hincl : incl (true_labels ev)
                    (labels (prepare_dataset cat_dog_features two_cat_like_images))).
  { destruct (evaluate_inv _ _ _ Hev) as (_ & prs & report & _ & _ & _ & -> & _).
    intros l Hl. cbn [prepare_dataset labels dataset] in *.
    now apply in_sorted_set. }
  destruct (@confusion_matrix_matches_accuracy Np.vec (fun v => v)
              (prepare_dataset cat_dog_features two_cat_like_images) 32 ev
              Hev ltac:(discriminate) Hincl) as (cm & H).
  exists ev, cm. cbv zeta. split; [exact Hev|exact H].
Defined.

(** ** The plots generated by [evaluate] *)

Lemma generate_plots_run (Image : Type) (c : classifier Image) (ev : evaluation) :
  generate_plots c ev =
  match confusion_matrix (true_labels ev) (predictions ev) (labels c) with
  | None => ([], None)
  | Some cm =>
      ([Plt.Setup Q "figure"; Plt.Heatmap Q cm (labels c) (labels c)]
       ++ map (Plt.Setup Q)
            ["title"; "ylabel"; "xlabel"; "xticks"; "tight_layout"]%string
       ++ [Plt.Savefig Q "confusion_matrix.png"; Plt.Close Q;
           Plt.Setup Q "figure";
           Plt.Bar metric_keys
             [accuracy (eval_metrics ev); precision (eval_metrics ev);
              recall (eval_metrics ev); f1_score (eval_metrics ev)];
           Plt.Setup Q "title"; Plt.Setup Q "ylabel"]
       ++ map (@Plt.Text Q)
            [accuracy (eval_metrics ev); precision (eval_metrics ev);
             recall (eval_metrics ev); f1_score (eval_metrics ev)]
       ++ [Plt.Setup Q "ylim"; Plt.Savefig Q "metrics_comparison.png";
           Plt.Close Q],
       Some tt)
  end.
Proof.
  unfold generate_plots, plot_confusion_matrix, plot_metrics_comparison,
    metrics_dict.
  destruct (confusion_matrix _ _ _); reflexivity.
Qed.

Lemma generate_plots_finish_iff
    (Image : Type) (image_features : Image -> Np.vec)
    (c : classifier Image) (batch_size : nat) (ev : evaluation) :
  evaluate image_features c batch_size = Some ev ->
  snd (generate_plots c ev) = Some tt <->
  exists l, In l (labels c) /\ In l (true_labels ev).
Proof.
  intros Hev.
  destruct (evaluate_lengths _ _ _ Hev) as (Ht & Hp & _ & Hnil & _).
  assert (Hlen : length (true_labels ev) = length (predictions ev)) by congruence.
  rewrite generate_plots_run.
  pose proof (@confusion_matrix_some_iff _ _ (labels c) Hlen Hnil) as Hiff.
  destruct (confusion_matrix (true_labels ev) (predictions ev) (labels c))
    as [cm|] eqn:E; cbn [snd].
  - split; [intros _|reflexivity].
    exact (@confusion_matrix_some_inv _ _ _ cm Hnil E).
  - split; [discriminate|]. intros Hex. apply Hiff in Hex. discriminate.
Qed.

(** The two plots at the end of [evaluate] are drawn exactly when some
    vocabulary entry occurs among the true labels.  Otherwise
    [confusion_matrix] raises before any figure is opened and nothing is
    written; when they are drawn, both files are saved and the bars
    show the four returned metrics in the order accuracy, precision,
    recall, F1. *)
Theorem plots_of_evaluate_finish_iff
    (Image : Type) (image_features : Image -> Np.vec)
    (c : classifier Image) (batch_size : nat) (ev : evaluation) :
  evaluate image_features c batch_size = Some ev ->
  let run := generate_plots c ev in
  (snd run = Some tt <-> exists l, In l (labels c) /\ In l (true_labels ev)) /\
  (snd run = None -> fst run = []) /\
  (snd run = Some tt ->
     In (Plt.Savefig Q "confusion_matrix.png") (fst run) /\
     In (Plt.Savefig Q "metrics_comparison.png") (fst run) /\
     In (Plt.Bar metric_keys
           [accuracy (eval_metrics ev); precision (eval_metrics ev);
            recall (eval_metrics ev); f1_score (eval_metrics ev)]) (fst run)).
Proof.
  intros Hev. cbv zeta.
  split; [exact (generate_plots_finish_iff _ _ _ Hev)|].
  rewrite generate_plots_run.
  destruct (confusion_matrix _ _ _) as [cm|]; cbn [fst snd].
  - split; [discriminate|]. intros _.
    cbn [map app In]. repeat split; tauto.
  - split; [reflexivity|discriminate].
Qed.

Lemma plots_of_evaluate_finish_iff_witness :
  exists ev,
    let c := prepare_dataset cat_dog_features two_cat_like_images in
    evaluate (fun v => v) c 32 = Some ev /\
    let run := generate_plots c ev in
    (snd run = Some tt <-> exists l, In l (labels c) /\ In l (true_labels ev)) /\
    (snd run = None -> fst run = []) /\
    (snd run = Some tt ->
       In (Plt.Savefig Q "confusion_matrix.png") (fst run) /\
       In (Plt.Savefig Q "metrics_comparison.png") (fst run) /\
       In (Plt.Bar metric_keys
             [accuracy (eval_metrics ev); precision (eval_metrics ev);
              recall (eval_metrics ev); f1_score (eval_metrics ev)]) (fst run)).
Proof.
  destruct two_cat_like_evaluation as [ev Hev].
  exists ev. cbv zeta. split; [exact Hev|].
  apply (@plots_of_evaluate_finish_iff Np.vec (fun v => v)
           (prepare_dataset cat_dog_features two_cat_like_images) 32 ev Hev).
Defined.

(** After [prepare_dataset] on a non-empty dataset whose embeddings all
    have the same dimension, [evaluate] returns for every positive batch
    size and its two plots are drawn: leaving the plots out of the
    returned value loses no exception. *)
Theorem prepared_evaluation_draws_its_plots
    (Image : Type) (image_features : Image -> Np.vec)
    (text_features : string -> Np.vec) (D : nat) (ds : list (sample Image))
    (batch_size : nat) :
  (forall s, length (text_features s) = D) ->
  (forall smp, In smp ds -> length (image_features (image smp)) = D) ->
  ds <> [] ->
  (0 < batch_size)%nat ->
  exists ev,
    evaluate image_features (prepare_dataset text_features ds) batch_size
      = Some ev /\
    snd (generate_plots (prepare_dataset text_features ds) ev) = Some tt.
Proof.
  intros Htext Himage Hne Hbs.
  destruct (@evaluate_prepared Image image_features text_features D ds
              Htext Himage Hne batch_size Hbs)
    as (prs & report & _ & _ & _ & _ & Hev).
  eexists. split; [exact Hev|].
  apply (generate_plots_finish_iff _ _ _ Hev).
  cbn [true_labels prepare_dataset labels].
  destruct ds as [|smp ds']; [congruence|].
  exists (text smp). split.
  - apply in_sorted_set. now left.
  - now left.
Qed.

Lemma prepared_evaluation_draws_its_plots_witness :
  exists ev,
    evaluate (fun v => v) (prepare_dataset cat_dog_features two_cat_like_images) 32
      = Some ev /\
    snd (generate_plots (prepare_dataset cat_dog_features two_cat_like_images) ev)
      = Some tt.
Proof.
  apply (@prepared_evaluation_draws_its_plots Np.vec (fun v => v)
           cat_dog_features 2 two_cat_like_images 32).
  - exact cat_dog_features_dim.
  - exact two_cat_like_images_dim.
  - discriminate.
  - lia.
Defined.

(** ** The metrics returned by [evaluate] *)

Section MetricBounds.

Local Open Scope Q_scope.

Lemma of_nat_le (a b : nat) : (a <= b)%nat -> of_nat a <= of_nat b.
Proof. intros H. unfold of_nat. rewrite <- Zle_Qle. lia. Qed.

Lemma prf_divide_bounds (a b : nat) :
  (a <= b)%nat -> 0 <= Sklearn.prf_divide a b <= 1.
Proof.
  intros H. unfold Sklearn.prf_divide.
  destruct (Nat.eqb_spec b 0) as [_|Hb]; [split; discriminate|].
  assert (Hpos : 0 < of_nat b) by (apply of_nat_pos; lia).
  split.
  - apply Qle_shift_div_l; [assumption|]. rewrite Qmult_0_l. apply of_nat_nonneg.
  - apply Qle_shift_div_r; [assumption|]. rewrite Qmult_1_l. now apply of_nat_le.
Qed.

Lemma Qsum_nonneg (w : list Q) :
  (forall x, In x w -> 0 <= x) -> 0 <= Sklearn.Qsum w.
Proof.
  induction w as [|x w IH]; intros H; cbn [Sklearn.Qsum fold_right];
    [discriminate|].
  fold (Sklearn.Qsum w).
  assert (0 <= x) by (apply H; now left).
  assert (0 <= Sklearn.Qsum w) by (apply IH; intros; apply H; now right).
  lra.
Qed.

Lemma weighted_sum_bounds (a w : list Q) :
  (forall x, In x a -> 0 <= x <= 1) ->
  (forall x, In x w -> 0 <= x) ->
  0 <= Sklearn.Qsum (map (fun p => fst p * snd p) (combine a w))
    <= Sklearn.Qsum w.
Proof.
  revert w. induction a as [|x a IH]; intros w Ha Hw.
  - cbn [combine map Sklearn.Qsum fold_right].
    split; [discriminate|now apply Qsum_nonneg].
  - destruct w as [|y w].
    + cbn [combine map Sklearn.Qsum fold_right]. split; discriminate.
    + cbn [combine map Sklearn.Qsum fold_right fst snd].
      fold (Sklearn.Qsum (map (fun p => fst p * snd p) (combine a w))).
      fold (Sklearn.Qsum w).
      destruct (IH w) as [H0 H1].
      * intros; apply Ha; now right.
      * intros; apply Hw; now right.
      * assert (Hx : 0 <= x <= 1) by (apply Ha; now left).
        assert (Hy : 0 <= y) by (apply Hw; now left).
        split; nra.
Qed.

Lemma average_bounds (a w : list Q) :
  (forall x, In x a -> 0 <= x <= 1) ->
  (forall x, In x w -> 0 <= x) ->
  0 <= Sklearn.average a w <= 1.
Proof.
  intros Ha Hw. unfold Sklearn.average.
  destruct (weighted_sum_bounds a w Ha Hw) as [H0 H1].
  set (N := Sklearn.Qsum (map (fun p => fst p * snd p) (combine a w))) in *.
  set (S := Sklearn.Qsum w) in *.
  destruct (Qlt_le_dec 0 S) as [Hpos|Hle].
  - split.
    + apply Qle_shift_div_l; [assumption|]. now rewrite Qmult_0_l.
    + apply Qle_shift_div_r; [assumption|]. now rewrite Qmult_1_l.
  - assert (E : S == 0) by lra.
    assert (E' : N / S == 0).
    { rewrite E. unfold Qdiv. cbn [Qinv Qnum]. ring. }
    rewrite E'. split; discriminate.
Qed.

Lemma class_scores_bounds (trues preds : list string) (c : string) :
  length preds = length trues ->
  let row := Sklearn.class_scores trues preds c in
  0 <= Sklearn.precision row <= 1 /\
  0 <= Sklearn.recall row <= 1 /\
  0 <= Sklearn.f1 row <= 1 /\
  0 <= Sklearn.support row.
Proof.
  intros Hlen. cbv zeta.
  destruct (confusion_counts trues preds c Hlen) as (Htp & Hps & Hts).
  cbn [Sklearn.class_scores Sklearn.precision Sklearn.recall Sklearn.f1
       Sklearn.support].
  repeat split; try (apply prf_divide_bounds; lia); apply of_nat_nonneg.
Qed.

Lemma weighted_scores_bounds (trues preds : list string) :
  length preds = length trues ->
  let prf := Sklearn.precision_recall_fscore_support_weighted trues preds in
  0 <= fst (fst prf) <= 1 /\ 0 <= snd (fst prf) <= 1 /\ 0 <= snd prf <= 1.
Proof.
  intros Hlen. unfold Sklearn.precision_recall_fscore_support_weighted.
  cbn [fst snd Sklearn.weighted_avg Sklearn.precision Sklearn.recall Sklearn.f1].
  unfold Sklearn.per_class.
  repeat split; apply average_bounds;
    intros x Hx; rewrite map_map in Hx; apply in_map_iff in Hx as (c & <- & _);
    destruct (class_scores_bounds trues preds c Hlen) as (Hp & Hr & Hf & Hs);
    assumption.
Qed.

Lemma mean_bool_bounds (bs : list bool) : 0 <= mean_bool bs <= 1.
Proof.
  unfold mean_bool.
  assert (Hle : (count_occ bool_dec bs true <= length bs)%nat)
    by apply count_occ_bound.
  pose proof (prf_divide_bounds Hle) as H. unfold Sklearn.prf_divide in H.
  destruct (Nat.eqb_spec (length bs) 0) as [E|_]; [|exact H].
  apply length_zero_iff_nil in E. subst bs. split; discriminate.
Qed.

Lemma weighted_recall_accuracy (trues preds : list string) :
  length preds = length trues ->
  snd (fst (Sklearn.precision_recall_fscore_support_weighted trues preds))
  == mean_bool (equal_elementwise preds trues).
Proof.
  intros Hlen.
  destruct (weighted_scores_standard trues preds Hlen) as (_ & Hr & _).
  cbv zeta in Hr. rewrite Hr. clear Hr.
  unfold Standard.weighted.
  fold (Sklearn.Qsum
          (map (fun c => Standard.support trues preds c / of_nat (length trues)
                         * Standard.recall trues preds c)
               (Sklearn.unique_labels trues preds))).
  rewrite Qsum_scale.
  rewrite (@Qsum_ext _ _ (fun c => of_nat (Sklearn.tp_sum trues preds c))).
  2:{ intros c _.
      destruct (confusion_counts trues preds c Hlen) as (-> & _ & _).
      unfold Standard.recall, Standard.support, Standard.ratio.
      pose proof (of_nat_nonneg (Standard.TP trues preds c)) as H1.
      pose proof (of_nat_nonneg (Standard.FN trues preds c)) as H2.
      destruct (Qeq_bool _ 0) eqn:E.
      - apply Qeq_bool_eq in E. lra.
      - apply Qeq_bool_neq in E. field. exact E. }
  rewrite Qsum_of_nat.
  unfold Sklearn.tp_sum. rewrite counts_add_up.
  - unfold mean_bool, Sklearn.agreeing.
    rewrite length_map, (@matches_count preds trues Hlen).
    destruct (count_equal_elementwise _ _ Hlen) as [_ ->].
    now rewrite Hlen.
  - apply ascending_NoDup, sorted_set_ascending.
  - intros y Hy. unfold Sklearn.unique_labels.
    apply in_sorted_set, in_or_app. left.
    unfold Sklearn.agreeing in Hy. apply in_map_iff in Hy as ([t p] & <- & Hq).
    apply filter_In in Hq as [Hq _]. now apply in_combine_l in Hq.
Qed.

End MetricBounds.

Lemma evaluate_metrics_inv (Image : Type) (image_features : Image -> Np.vec)
    (c : classifier Image) (batch_size : nat) (ev : evaluation) :
  evaluate image_features c batch_size = Some ev ->
  length (predictions ev) = length (true_labels ev) /\
  eval_metrics ev =
  let prf := Sklearn.precision_recall_fscore_support_weighted
               (true_labels ev) (predictions ev) in
  {| accuracy := mean_bool (equal_elementwise (predictions ev) (true_labels ev));
     precision := fst (fst prf);
     recall := snd (fst prf);
     f1_score := snd prf |}.
Proof.
  intros H.
  assert (Hbs : (0 < batch_size)%nat).
  { destruct batch_size; [discriminate|lia]. }
  rewrite (evaluate_eq image_features c Hbs) in H.
  destruct (mapM (predict image_features c) (dataset c)) as [prs|] eqn:Hprs;
    cbn [bind] in H; [|discriminate].
  destruct (mapM_spec _ _ Hprs) as [Hlen _].
  unfold compute_metrics in H.
  destruct (Sklearn.precision_recall_fscore_support_weighted _ _)
    as [[p r] f] eqn:Eprf.
  destruct (Sklearn.classification_report _ _ _) as [report|];
    cbn [bind] in H; [|discriminate].
  injection H as <-. cbn [predictions true_labels eval_metrics].
  split; [now rewrite !length_map|]. now rewrite Eprf.
Qed.

(** On a dataset that is not empty, the weighted recall that [evaluate]
    returns is always its accuracy: the entries [recall] and [accuracy]
    of [metrics] carry the same number. *)
Theorem evaluate_recall_is_accuracy
    (Image : Type) (image_features : Image -> Np.vec)
    (c : classifier Image) (batch_size : nat) (ev : evaluation) :
  dataset c <> [] ->
  evaluate image_features c batch_size = Some ev ->
  (recall (eval_metrics ev) == accuracy (eval_metrics ev))%Q.
Proof.
  intros _ H. destruct (evaluate_metrics_inv _ _ _ H) as [Hlen ->].
  cbn [recall accuracy]. now apply weighted_recall_accuracy.
Qed.

Lemma evaluate_recall_is_accuracy_witness :
  exists ev,
    evaluate (fun v => v) (prepare_dataset cat_dog_features two_cat_like_images) 32
      = Some ev /\
    (recall (eval_metrics ev) == accuracy (eval_metrics ev))%Q.
Proof.
  destruct two_cat_like_evaluation as [ev Hev].
  exists ev. split; [exact Hev|].
  apply (@evaluate_recall_is_accuracy Np.vec (fun v => v)
           (prepare_dataset cat_dog_features two_cat_like_images) 32 ev);
    [discriminate|exact Hev].
Defined.

(** On a dataset that is not empty, the four metrics that [evaluate]
    returns lie between 0 and 1, so
    the bars of [plot_metrics_comparison] drawn from them fit below the
    upper limit 1.1 of the y axis. *)
Theorem evaluate_metrics_between_zero_and_one
    (Image : Type) (image_features : Image -> Np.vec)
    (c : classifier Image) (batch_size : nat) (ev : evaluation) :
  dataset c <> [] ->
  evaluate image_features c batch_size = Some ev ->
  forall key value,
    Dict.get (metrics_dict (eval_metrics ev)) key = Some value ->
    (0 <= value <= 1)%Q.
Proof.
  intros _ H key value.
  destruct (evaluate_metrics_inv _ _ _ H) as [Hlen ->].
  destruct (@weighted_scores_bounds _ _ Hlen) as (Hp & Hr & Hf).
  cbv zeta in *. unfold metrics_dict.
  cbn [Dict.get accuracy precision recall f1_score].
  repeat (destruct (String.eqb _ _);
          [intros [= <-]; first [apply mean_bool_bounds | assumption]|]).
  discriminate.
Qed.

Lemma evaluate_metrics_between_zero_and_one_witness :
  exists ev,
    evaluate (fun v => v) (prepare_dataset cat_dog_features two_cat_like_images) 32
      = Some ev /\
    forall key value,
      Dict.get (metrics_dict (eval_metrics ev)) key = Some value ->
      (0 <= value <= 1)%Q.
Proof.
  destruct two_cat_like_evaluation as [ev Hev].
  exists ev. split; [exact Hev|].
  apply (@evaluate_metrics_between_zero_and_one Np.vec (fun v => v)
           (prepare_dataset cat_dog_features two_cat_like_images) 32 ev);
    [discriminate|exact Hev].
Defined.

(** ** Embeddings of the wrong dimension *)

Lemma dot_length_mismatch (a b : Np.vec) :
  length a <> length b -> Np.dot a b = None.
Proof.
  revert b. induction a as [|x a IH]; intros [|y b] H; cbn [Np.dot];
    try reflexivity; [now contradiction H|].
  rewrite IH; [reflexivity|]. cbn [length] in H. congruence.
Qed.

Lemma predict_dimension_mismatch
    (Image : Type) (image_features : Image -> Np.vec)
    (c : classifier Image) (smp : sample Image) (row : Np.vec) :
  In row (label_embeddings c) ->
  length (image_features (image smp)) <> length row ->
  mapM (Np.dot (image_features (image smp))) (label_embeddings c) = None.
Proof.
  intros Hrow Hlen. apply mapM_none_iff. exists row.
  split; [assumption|]. now apply dot_length_mismatch.
Qed.

(** One image whose embedding has another length than some label
    embedding makes [evaluate] raise for every batch size, and makes
    [inference_on_samples] raise for every list of indices that holds
    the position of that image. *)
Theorem dimension_mismatch_raises
    (Image : Type) (image_features : Image -> Np.vec)
    (c : classifier Image) (k : nat) (smp : sample Image) (row : Np.vec) :
  nth_error (dataset c) k = Some smp ->
  In row (label_embeddings c) ->
  length (image_features (image smp)) <> length row ->
  (forall batch_size, evaluate image_features c batch_size = None) /\
  (forall sample_indices,
     In k sample_indices ->
     inference_on_samples image_features c sample_indices = None).
Proof.
  intros Hk Hrow Hlen.
  pose proof (@predict_dimension_mismatch Image image_features c smp row Hrow Hlen)
    as Hdot.
  split.
  - intros [|b]; [reflexivity|].
    rewrite evaluate_eq by lia.
    assert (Hnone : mapM (predict image_features c) (dataset c) = None).
    { apply mapM_none_iff. exists smp.
      split; [now apply nth_error_In in Hk|].
      unfold predict. now rewrite Hdot. }
    now rewrite Hnone.
  - intros sample_indices Hin. unfold inference_on_samples.
    apply mapM_none_iff. exists k. split; [assumption|].
    destruct (infer_sample image_features c k) as [r|] eqn:E; [|reflexivity].
    destruct (infer_sample_inv _ _ _ E) as (smp' & scores & _ & _ & Hs & Hsc & _).
    rewrite Hk in Hs. injection Hs as <-. congruence.
Qed.

Lemma dimension_mismatch_raises_witness :
  let c := {| dataset := [ {| image := [1; 0; 0]; text := "cat"%string |} ];
              labels := ["cat"; "dog"]%string;
              label_embeddings := [[1; 0]; [0; 1]] |} in
  (forall batch_size, evaluate (fun v : Np.vec => v) c batch_size = None) /\
  (forall sample_indices,
     In 0%nat sample_indices ->
     inference_on_samples (fun v : Np.vec => v) c sample_indices = None).
Proof.
  apply (@dimension_mismatch_raises Np.vec (fun v => v)
           {| dataset := [ {| image := [1; 0; 0]; text := "cat"%string |} ];
              labels := ["cat"; "dog"]%string;
              label_embeddings := [[1; 0]; [0; 1]] |}
           0%nat {| image := [1; 0; 0]; text := "cat"%string |} [1; 0]).
  - reflexivity.
  - now left.
  - cbn [image length]. lia.
Defined.

(** ** The two plots of the class and their output path *)

Lemma save_calls_run (V : Type) (output_path : option string) :
  Plt.savefig_if V output_path =
  if saves output_path
  then (match output_path with
        | None | Some EmptyString => []
        | Some path => [Plt.Savefig V path]
        end, Some tt)
  else ([], None).
Proof.
  unfold Plt.savefig_if, Plt.savefig, saves, Plt.emit, Plt.ret.
  destruct output_path as [[|a p]|]; reflexivity.
Qed.

Lemma plot_metrics_comparison_run (V : Type) (metrics_dict : Dict.t V)
    (output_path : option string) :
  let drawn :=
    [Plt.Setup V "figure";
     Plt.Bar (map fst metrics_dict) (map snd metrics_dict);
     Plt.Setup V "title"; Plt.Setup V "ylabel"]
    ++ map (@Plt.Text V) (map snd metrics_dict)
    ++ [Plt.Setup V "ylim"] in
  Forall (@Plt.drawing V) drawn /\
  plot_metrics_comparison metrics_dict output_path =
  if saves output_path
  then (drawn
        ++ match output_path with
           | None | Some EmptyString => []
           | Some path => [Plt.Savefig V path]
           end
        ++ [Plt.Close V], Some tt)
  else (drawn, None).
Proof.
  cbv zeta. split.
  - repeat constructor. apply Forall_app. split; [|repeat constructor].
    apply Forall_forall. intros c Hc. apply in_map_iff in Hc as (x & <- & _).
    exact I.
  - unfold plot_metrics_comparison.
    rewrite (@each_finished_map V V (fun height => Plt.emit (Plt.Text height))
               (@Plt.Text V) (map snd metrics_dict)) by reflexivity.
    rewrite save_calls_run.
    destruct (saves output_path);
      cbn [Plt.seq_run Plt.emit fst snd app];
      rewrite ?app_nil_r; repeat (cbn [app]; rewrite <- ?app_assoc);
      reflexivity.
Qed.

Lemma plot_confusion_matrix_run (Image : Type) (c : classifier Image)
    (true_labels pred_labels : list string) (output_path : option string) :
  plot_confusion_matrix c true_labels pred_labels output_path =
  match confusion_matrix true_labels pred_labels (labels c) with
  | None => ([], None)
  | Some cm =>
      let drawn :=
        [Plt.Setup Q "figure"; Plt.Heatmap Q cm (labels c) (labels c)]
        ++ map (Plt.Setup Q)
             ["title"; "ylabel"; "xlabel"; "xticks"; "tight_layout"]%string in
      if saves output_path
      then (drawn
            ++ match output_path with
               | None | Some EmptyString => []
               | Some path => [Plt.Savefig Q path]
               end
            ++ [Plt.Close Q], Some tt)
      else (drawn, None)
  end.
Proof.
  unfold plot_confusion_matrix.
  destruct (confusion_matrix _ _ _); [|reflexivity].
  rewrite save_calls_run. now destruct (saves output_path).
Qed.

Lemma finished_plot_log (V : Type) (drawn : list (Plt.call V))
    (output_path : option string) :
  Forall (@Plt.drawing V) drawn ->
  let run :=
    if saves output_path
    then (drawn
          ++ match output_path with
             | None | Some EmptyString => []
             | Some path => [Plt.Savefig V path]
             end
          ++ [Plt.Close V], Some tt)
    else (drawn, @None unit) in
  (In (Plt.Close V) (fst run) <-> snd run = Some tt) /\
  forall path,
    In (Plt.Savefig V path) (fst run) <->
    snd run = Some tt /\ output_path = Some path /\ path <> EmptyString.
Proof.
  intros Hdrawn. rewrite Forall_forall in Hdrawn. cbv zeta.
  destruct (saves output_path); cbn [fst snd].
  - split.
    + split; [reflexivity|]. intros _. rewrite !in_app_iff. right. right.
      now left.
    + intros path. rewrite !in_app_iff. split.
      * intros [Hin | [Hin | Hin]].
        -- destruct (Hdrawn _ Hin).
        -- split; [reflexivity|].
           destruct output_path as [[|a p]|]; try destruct Hin.
           ++ injection H as <-. split; [reflexivity|discriminate].
           ++ destruct H.
        -- destruct Hin as [E | []]. discriminate.
      * intros (_ & -> & Hne). right. left.
        destruct path; [congruence|]. now left.
  - split.
    + split; [intros Hin; destruct (Hdrawn _ Hin)|discriminate].
    + intros path. split; [intros Hin; destruct (Hdrawn _ Hin)|].
      intros [E _]. discriminate.
Qed.

(** [plot_metrics_comparison] raises only at [plt.savefig], and does so
    on an output path whose extension names no supported format;
    [plot_confusion_matrix] raises there too, and where
    [confusion_matrix] does, before any figure is opened.  Without a
    path to save to ([None] or the empty string) the first always
    finishes and the second finishes exactly when [confusion_matrix]
    returns.  Each of them closes its figure exactly when it finishes,
    so a failed save leaves the figure open, and writes a file exactly
    when it finishes and was given a path that is neither [None] nor
    the empty string, to that path only. *)
Theorem class_plots_save_only_to_nonempty_path
    (Image : Type) (c : classifier Image)
    (true_labels pred_labels : list string) (metrics_dict : Dict.t Q)
    (output_path : option string) :
  let bars := plot_metrics_comparison metrics_dict output_path in
  let heat := plot_confusion_matrix c true_labels pred_labels output_path in
  let supported :=
    forall path, output_path = Some path -> path <> EmptyString ->
                 savefig_ok path = true in
  let unsaved := output_path = None \/ output_path = Some EmptyString in
  (snd bars = Some tt -> supported) /\
  (unsaved -> snd bars = Some tt) /\
  (snd heat = Some tt ->
   confusion_matrix true_labels pred_labels (labels c) <> None /\ supported) /\
  (unsaved ->
   (snd heat = Some tt <->
    confusion_matrix true_labels pred_labels (labels c) <> None)) /\
  (confusion_matrix true_labels pred_labels (labels c) = None ->
   heat = ([], None)) /\
  forall run, run = bars \/ run = heat ->
    (In (Plt.Close Q) (fst run) <-> snd run = Some tt) /\
    forall path,
      In (Plt.Savefig Q path) (fst run) <->
      snd run = Some tt /\ output_path = Some path /\ path <> EmptyString.
Proof.
  cbv zeta. rewrite <- saves_iff.
  assert (Hunsaved : output_path = None \/ output_path = Some EmptyString ->
                     saves output_path = true)
    by (now intros [-> | ->]).
  destruct (plot_metrics_comparison_run metrics_dict output_path)
    as [Hbars ->].
  rewrite plot_confusion_matrix_run.
  split; [|split; [|split; [|split; [|split]]]].
  - destruct (saves output_path); cbn [snd]; congruence.
  - intros Hu. now rewrite (Hunsaved Hu).
  - destruct (confusion_matrix _ _ _) as [cm|]; cbv zeta.
    + destruct (saves output_path); cbn [snd]; [|discriminate].
      intros _. split; [discriminate|reflexivity].
    + discriminate.
  - intros Hu. rewrite (Hunsaved Hu).
    destruct (confusion_matrix _ _ _) as [cm|]; cbv zeta; cbn [snd].
    + split; [discriminate|reflexivity].
    + split; [discriminate|congruence].
  - now intros ->.
  - intros run [-> | ->].
    + exact (finished_plot_log output_path Hbars).
    + destruct (confusion_matrix _ _ _) as [cm|]; cbv zeta.
      * apply finished_plot_log. repeat constructor.
      * cbn [fst snd]. split.
        -- split; [intros []|discriminate].
        -- intros path. split; [intros []|]. intros [E _]. discriminate.
Qed.

Lemma class_plots_save_only_to_nonempty_path_witness :
  let bars := plot_metrics_comparison [("accuracy"%string, 1 # 2)]
                (Some "metrics.xyz"%string) in
  let heat := plot_confusion_matrix cat_dog_classifier
                ["cat"; "dog"]%string ["cat"; "cat"]%string None in
  snd bars = None /\ ~ In (Plt.Close Q) (fst bars) /\
  snd heat = Some tt /\ In (Plt.Close Q) (fst heat).
Proof.
  cbv zeta.
  pose proof (@class_plots_save_only_to_nonempty_path Np.vec cat_dog_classifier
                ["cat"; "dog"]%string ["cat"; "cat"]%string
                [("accuracy"%string, 1 # 2)] (Some "metrics.xyz"%string))
    as (Hb & _ & _ & _ & _ & Hlog).
  pose proof (@class_plots_save_only_to_nonempty_path Np.vec cat_dog_classifier
                ["cat"; "dog"]%string ["cat"; "cat"]%string [] None)
    as (_ & _ & _ & Hh & _ & Hlog').
  cbv zeta in *.
  assert (Hbn : snd (plot_metrics_comparison [("accuracy"%string, 1 # 2)]
                       (Some "metrics.xyz"%string)) = None).
  { destruct (snd (plot_metrics_comparison _ _)) as [[]|]; [|reflexivity].
    assert (E : savefig_ok "metrics.xyz" = true)
      by (apply (Hb eq_refl); [reflexivity|discriminate]).
    vm_compute in E. discriminate. }
  assert (Hhf : snd (plot_confusion_matrix cat_dog_classifier
                       ["cat"; "dog"]%string ["cat"; "cat"]%string None)
                = Some tt).
  { apply (Hh (or_introl eq_refl)). vm_compute. discriminate. }
  split; [exact Hbn|]. split.
  - intros Hin. apply (Hlog _ (or_introl eq_refl)) in Hin. congruence.
  - split; [exact Hhf|].
    apply (Hlog' _ (or_intror eq_refl)). exact Hhf.
Defined.
